(** * AES block cipher and CBC mode of wachidamirul/AES-Encryption

    A shallow embedding of [src/crypto/keyExpansion.ts], [src/crypto/aesCore.ts],
    [src/crypto/cbcMode.ts], [src/crypto/utils.ts] and the string-level
    [encrypt]/[decrypt] of [src/crypto/index.ts].

    Conventions.
    - A JavaScript [number] holding a byte is a [Z]; [a ^ b] is [Z.lxor a b],
      which agrees with JavaScript's 32-bit XOR on every pair of integers of
      the signed 32-bit range.
    - A [number[]] is a [list Z]; [arr[i]] is [nth i arr 0].  Reading past the
      end yields [undefined] in JavaScript, and [undefined ^ x] is [x], which
      is what the default [0] gives under [Z.lxor].
    - A [throw new Error(msg)] is the [Throw] of [Result]; the constructors of
      [Error] carry the values interpolated into the message, and [message]
      renders the text. *)

From Stdlib Require Import String Ascii DecimalString HexadecimalString.
From stdpp Require Import list.
From Stdlib Require Import ZArith List Lia Bool Btauto.
Import ListNotations.
Local Open Scope Z_scope.

(** ** Errors *)

Inductive Error : Type :=
| InvalidKeyLength (len : nat)
| InvalidBlockSize (len : nat)
| InvalidIVLength (len : nat)
| InvalidCiphertextLength (len : nat)
| LengthMismatch (la lb : nat)
| EmptyInput
| InvalidPaddingLength (paddingLength : Z)
| InvalidPaddingByte (paddingLength found : Z) (position : nat)
| DecryptionFailedInvalidPadding
| DecryptionFailed (cause : Error).

Inductive Result (A : Type) : Type :=
| Ok (a : A)
| Throw (e : Error).

Arguments Ok {A} a.
Arguments Throw {A} e.

Definition bind {A B : Type} (r : Result A) (k : A -> Result B) : Result B :=
  match r with
  | Ok a => k a
  | Throw e => Throw e
  end.

Notation "'let*' x ':=' r 'in' k" := (bind r (fun x => k))
  (at level 10, x pattern, r at level 100, k at level 200).

(** [try { body } catch (error) { throw handler(error) }] *)
Definition tryCatch {A : Type} (body : Result A) (handler : Error -> Error) : Result A :=
  match body with
  | Ok a => Ok a
  | Throw e => Throw (handler e)
  end.

(** A [for] loop whose body may throw, run over the successive values of its
    counter. *)
Fixpoint forEach {S I : Type} (body : S -> I -> Result S) (counter : list I) (s : S) : Result S :=
  match counter with
  | [] => Ok s
  | i :: rest => let* s' := body s i in forEach body rest s'
  end.

Definition natToString (n : nat) : string := DecimalString.NilEmpty.string_of_uint (Nat.to_uint n).
Definition numToString (z : Z) : string := DecimalString.NilZero.string_of_int (Z.to_int z).

(** The text of the thrown [Error], as the template strings of the source
    build it. *)
Fixpoint message (e : Error) : string :=
  match e with
  | InvalidKeyLength len =>
      "Invalid key length: " ++ natToString len ++ " bytes. Must be 16, 24, or 32 bytes."
  | InvalidBlockSize len =>
      "Invalid block size: " ++ natToString len ++ " bytes. Must be 16 bytes."
  | InvalidIVLength len =>
      "Invalid IV length: " ++ natToString len ++ " bytes. Must be 16 bytes."
  | InvalidCiphertextLength len =>
      "Invalid ciphertext length: " ++ natToString len ++ " bytes. Must be a multiple of 16 bytes."
  | LengthMismatch la lb =>
      "Byte arrays must have the same length: " ++ natToString la ++ " vs " ++ natToString lb
  | EmptyInput => "Cannot unpad empty data"
  | InvalidPaddingLength n => "Invalid padding length: " ++ numToString n
  | InvalidPaddingByte n found position =>
      "Invalid padding: expected " ++ numToString n ++ " but found " ++ numToString found
      ++ " at position " ++ natToString position
  | DecryptionFailedInvalidPadding =>
      "Decryption failed: Invalid padding. This may be due to incorrect key, IV, or corrupted ciphertext."
  | DecryptionFailed cause =>
      "Decryption failed: " ++ message cause
      ++ ". This may be due to incorrect key, IV, or corrupted ciphertext."
  end%string.

(** The error taxonomy of the specification (section 7). *)
Inductive ErrorKind : Type :=
| KInvalidKeyLength | KInvalidIVLength | KInvalidBlockLength | KInvalidCiphertextLength
| KEmptyInput | KInvalidPadding | KDecryptionFailed | KOther.

Definition kind (e : Error) : ErrorKind :=
  match e with
  | InvalidKeyLength _ => KInvalidKeyLength
  | InvalidBlockSize _ => KInvalidBlockLength
  | InvalidIVLength _ => KInvalidIVLength
  | InvalidCiphertextLength _ => KInvalidCiphertextLength
  | LengthMismatch _ _ => KOther
  | EmptyInput => KEmptyInput
  | InvalidPaddingLength _ => KInvalidPadding
  | InvalidPaddingByte _ _ _ => KInvalidPadding
  | DecryptionFailedInvalidPadding => KDecryptionFailed
  | DecryptionFailed _ => KDecryptionFailed
  end.

(** ** Bytes *)

Definition byte (b : Z) : Prop := 0 <= b < 256.
Definition isByte (b : Z) : bool := (0 <=? b) && (b <? 256).
Definition allBytes : list Z := map Z.of_nat (seq 0 256).

(** [table[b]]; outside the table JavaScript yields [undefined], which the
    XOR that consumes every lookup reads as [0]. *)
Definition idx (table : list Z) (b : Z) : Z :=
  if b <? 0 then 0 else nth (Z.to_nat b) table 0.

(** ** aesConstants.ts *)

Module Constants.

(** Modelled from the spec: [aesConstants.ts] is not among the sources; its
    constants are rebuilt from sections 3 and 4.1.  [xtime] multiplies by x
    in GF(2^8), reducing by x^8+x^4+x^3+x+1. *)
Definition xtime (a : Z) : Z :=
  let shifted := Z.land (Z.shiftl a 1) 255 in
  if Z.testbit a 7 then Z.lxor shifted 27 else shifted.

(** Modelled from the spec: the carry-less multiply-and-reduce loop, one step
    per bit of [b]. *)
Fixpoint gfMultiplyLoop (steps : nat) (a b acc : Z) : Z :=
  match steps with
  | O => acc
  | Datatypes.S steps' =>
      gfMultiplyLoop steps' (xtime a) (Z.shiftr b 1) (if Z.odd b then Z.lxor acc a else acc)
  end.

(** Modelled from the spec: [gfMultiply(b, constant)] of section 4.1. *)
Definition gfMultiply (a b : Z) : Z := gfMultiplyLoop 8 a b 0.

(** Modelled from the spec: squaring in GF(2^8). *)
Definition gfSquare (a : Z) : Z := gfMultiply a a.

(** Modelled from the spec: the multiplicative inverse in GF(2^8), [a^254],
    with [0] sent to [0], from which FIPS-197 builds the S-box. *)
Definition gfInverse (a : Z) : Z :=
  let a2 := gfSquare a in
  let a4 := gfSquare a2 in
  let a8 := gfSquare a4 in
  let a16 := gfSquare a8 in
  let a32 := gfSquare a16 in
  let a64 := gfSquare a32 in
  let a128 := gfSquare a64 in
  gfMultiply a128 (gfMultiply a64 (gfMultiply a32 (gfMultiply a16
    (gfMultiply a8 (gfMultiply a4 a2))))).

(** Modelled from the spec: rotation of a byte to the left. *)
Definition rotl8 (a : Z) (k : Z) : Z :=
  Z.land (Z.lor (Z.shiftl a k) (Z.shiftr a (8 - k))) 255.

(** Modelled from the spec: an entry of the FIPS-197 S-box, the affine
    transformation of the inverse. *)
Definition sboxValue (a : Z) : Z :=
  let x := gfInverse a in
  Z.lxor (Z.lxor (Z.lxor (Z.lxor (Z.lxor x (rotl8 x 1)) (rotl8 x 2)) (rotl8 x 3)) (rotl8 x 4)) 99.

(** Modelled from the spec: the position of [y] in a table, for the inverse
    S-box. *)
Fixpoint indexOf (y : Z) (l : list Z) (i : Z) : Z :=
  match l with
  | [] => 0
  | x :: rest => if x =? y then i else indexOf y rest (i + 1)
  end.

(** Modelled from the spec: a block is sixteen bytes. *)
Definition BLOCK_SIZE_BYTES : nat := 16.

(** Modelled from the spec: the forward S-box, a table of 256 bytes. *)
Definition SBOX : list Z := Eval vm_compute in map sboxValue allBytes.

(** Modelled from the spec: the inverse S-box, the exact inverse of [SBOX]. *)
Definition INV_SBOX : list Z := Eval vm_compute in map (fun y => indexOf y SBOX 0) allBytes.

(** Modelled from the spec: [table[b] = gfMultiply(b, 2)]. *)
Definition MULT_2 : list Z := Eval vm_compute in map (fun b => gfMultiply b 2) allBytes.

(** Modelled from the spec: [table[b] = gfMultiply(b, 3)]. *)
Definition MULT_3 : list Z := Eval vm_compute in map (fun b => gfMultiply b 3) allBytes.

(** Modelled from the spec: [table[b] = gfMultiply(b, 9)]. *)
Definition MULT_9 : list Z := Eval vm_compute in map (fun b => gfMultiply b 9) allBytes.

(** Modelled from the spec: [table[b] = gfMultiply(b, 11)]. *)
Definition MULT_11 : list Z := Eval vm_compute in map (fun b => gfMultiply b 11) allBytes.

(** Modelled from the spec: [table[b] = gfMultiply(b, 13)]. *)
Definition MULT_13 : list Z := Eval vm_compute in map (fun b => gfMultiply b 13) allBytes.

(** Modelled from the spec: [table[b] = gfMultiply(b, 14)]. *)
Definition MULT_14 : list Z := Eval vm_compute in map (fun b => gfMultiply b 14) allBytes.

(** Modelled from the spec: the round constants, indexed from 1; [RCON[0]]
    is never read. *)
Definition RCON : list Z := [0x00; 0x01; 0x02; 0x04; 0x08; 0x10; 0x20; 0x40; 0x80; 0x1b; 0x36].

(** Modelled from the spec: the three key sizes, the keys of [KEY_SIZES]. *)
Inductive KeySize : Type := AES_128 | AES_192 | AES_256.

(** Modelled from the spec: 10, 12 or 14 rounds. *)
Definition NUM_ROUNDS (keySize : KeySize) : nat :=
  match keySize with
  | AES_128 => 10
  | AES_192 => 12
  | AES_256 => 14
  end%nat.

End Constants.
Import Constants.

Infix ".^" := Z.lxor (at level 40, left associativity).

(** ** keyExpansion.ts *)

(** [w[i][j] = v], for [i] and [j] within the arrays. *)
Definition setByte (w : list (list Z)) (i j : nat) (v : Z) : list (list Z) :=
  <[i := <[j := v]> (nth i w [])]> w.

(** Body of the loop that copies the key into the first [Nk] words. *)
Definition copyKeyWord (key : list Z) (w : list (list Z)) (i : nat) : list (list Z) :=
  let w := setByte w i 0 (nth (4 * i) key 0) in
  let w := setByte w i 1 (nth (4 * i + 1) key 0) in
  let w := setByte w i 2 (nth (4 * i + 2) key 0) in
  setByte w i 3 (nth (4 * i + 3) key 0).

(** Body of the loop that expands the key. *)
Definition expandWord (Nk : nat) (w : list (list Z)) (i : nat) : list (list Z) :=
  let temp := nth (i - 1) w [] in
  let back := nth (i - Nk) w [] in
  if (i mod Nk =? 0)%nat then
    let rotWord := [nth 1 temp 0; nth 2 temp 0; nth 3 temp 0; nth 0 temp 0] in
    let subWord := map (idx SBOX) rotWord in
    let subWord := <[0%nat := nth 0 subWord 0 .^ nth (i / Nk) RCON 0]> subWord in
    <[i := imap (fun j byte => byte .^ nth j back 0) subWord]> w
  else if (6 <? Nk)%nat && (i mod Nk =? 4)%nat then
    let subWord := map (idx SBOX) temp in
    <[i := imap (fun j byte => byte .^ nth j back 0) subWord]> w
  else
    <[i := imap (fun j byte => byte .^ nth j back 0) temp]> w.

Definition keyExpansion (key : list Z) : Result (list (list Z)) :=
  let keyLengthBytes := length key in
  let* keySize :=
    if (keyLengthBytes =? 16)%nat then Ok AES_128
    else if (keyLengthBytes =? 24)%nat then Ok AES_192
    else if (keyLengthBytes =? 32)%nat then Ok AES_256
    else Throw (InvalidKeyLength keyLengthBytes) in
  let numRounds := NUM_ROUNDS keySize in
  let Nk := (keyLengthBytes / 4)%nat in
  let Nb := 4%nat in
  let Nr := numRounds in
  let expandedKeyWords := (Nb * (Nr + 1))%nat in
  let w := repeat [0; 0; 0; 0] expandedKeyWords in
  let w := fold_left (copyKeyWord key) (seq 0 Nk) w in
  let w := fold_left (expandWord Nk) (seq Nk (expandedKeyWords - Nk)) w in
  Ok (map (fun i => concat (map (fun j => nth (i * 4 + j) w []) (seq 0 4)))
          (seq 0 (numRounds + 1))).

(** ** aesCore.ts *)

(** The 4x4 state matrix, a [number[][]] of four rows of four numbers:
    [bytesToState] builds one, and every transformation below reads the
    sixteen entries of its argument and returns a new one. *)
Definition State : Type := list (list Z).

(** [state[row][col]] *)
Definition cell (state : State) (row col : nat) : Z := nth col (nth row state []) 0.

Definition four {A : Type} (f : nat -> A) : list A := [f 0%nat; f 1%nat; f 2%nat; f 3%nat].

(** The 4x4 matrix whose entry at [row], [col] is [f row col]: what the
    nested loops over [row] and [col] leave in [newState]. *)
Definition matrix (f : nat -> nat -> Z) : State := four (fun row => four (fun col => f row col)).

(** The copy of [state] the source starts from is overwritten in all of its
    sixteen entries. *)
Definition subBytes (state : State) : State :=
  matrix (fun row col => idx SBOX (cell state row col)).

Definition invSubBytes (state : State) : State :=
  matrix (fun row col => idx INV_SBOX (cell state row col)).

Definition shiftRows (state : State) : State :=
  [ [cell state 0 0; cell state 0 1; cell state 0 2; cell state 0 3];
    [cell state 1 1; cell state 1 2; cell state 1 3; cell state 1 0];
    [cell state 2 2; cell state 2 3; cell state 2 0; cell state 2 1];
    [cell state 3 3; cell state 3 0; cell state 3 1; cell state 3 2] ].

Definition invShiftRows (state : State) : State :=
  [ [cell state 0 0; cell state 0 1; cell state 0 2; cell state 0 3];
    [cell state 1 3; cell state 1 0; cell state 1 1; cell state 1 2];
    [cell state 2 2; cell state 2 3; cell state 2 0; cell state 2 1];
    [cell state 3 1; cell state 3 2; cell state 3 3; cell state 3 0] ].

Definition mixColumns (state : State) : State :=
  [ four (fun col => idx MULT_2 (cell state 0 col) .^ idx MULT_3 (cell state 1 col)
                     .^ cell state 2 col .^ cell state 3 col);
    four (fun col => cell state 0 col .^ idx MULT_2 (cell state 1 col)
                     .^ idx MULT_3 (cell state 2 col) .^ cell state 3 col);
    four (fun col => cell state 0 col .^ cell state 1 col
                     .^ idx MULT_2 (cell state 2 col) .^ idx MULT_3 (cell state 3 col));
    four (fun col => idx MULT_3 (cell state 0 col) .^ cell state 1 col
                     .^ cell state 2 col .^ idx MULT_2 (cell state 3 col)) ].

Definition invMixColumns (state : State) : State :=
  [ four (fun col => idx MULT_14 (cell state 0 col) .^ idx MULT_11 (cell state 1 col)
                     .^ idx MULT_13 (cell state 2 col) .^ idx MULT_9 (cell state 3 col));
    four (fun col => idx MULT_9 (cell state 0 col) .^ idx MULT_14 (cell state 1 col)
                     .^ idx MULT_11 (cell state 2 col) .^ idx MULT_13 (cell state 3 col));
    four (fun col => idx MULT_13 (cell state 0 col) .^ idx MULT_9 (cell state 1 col)
                     .^ idx MULT_14 (cell state 2 col) .^ idx MULT_11 (cell state 3 col));
    four (fun col => idx MULT_11 (cell state 0 col) .^ idx MULT_13 (cell state 1 col)
                     .^ idx MULT_9 (cell state 2 col) .^ idx MULT_14 (cell state 3 col)) ].

Definition addRoundKey (state : State) (roundKey : list Z) : State :=
  let keyMatrix := matrix (fun row col => nth (col * 4 + row) roundKey 0) in
  matrix (fun row col => cell state row col .^ cell keyMatrix row col).

(** The loop stores [bytes[i]] at row [i % 4], column [floor(i / 4)], so the
    entry at [row], [col] is [bytes[col * 4 + row]]. *)
Definition bytesToState (bytes : list Z) : Result State :=
  if negb (length bytes =? BLOCK_SIZE_BYTES)%nat then Throw (InvalidBlockSize (length bytes))
  else Ok (matrix (fun row col => nth (col * 4 + row) bytes 0)).

Definition stateToBytes (state : State) : list Z :=
  concat (four (fun col => four (fun row => cell state row col))).

Definition aesEncryptionRound (state : State) (roundKey : list Z) (isFinalRound : bool) : State :=
  let newState := subBytes state in
  let newState := shiftRows newState in
  let newState := if negb isFinalRound then mixColumns newState else newState in
  addRoundKey newState roundKey.

Definition aesDecryptionRound (state : State) (roundKey : list Z) (isFirstRound : bool) : State :=
  let newState := invShiftRows state in
  let newState := invSubBytes newState in
  let newState := addRoundKey newState roundKey in
  if negb isFirstRound then invMixColumns newState else newState.

Definition aesEncryptBlock (block key : list Z) : Result (list Z) :=
  let* roundKeys := keyExpansion key in
  let numRounds := (length roundKeys - 1)%nat in
  let* state := bytesToState block in
  let state := addRoundKey state (nth 0 roundKeys []) in
  (* for (round = 1; round < numRounds; round++) *)
  let state := fold_left (fun state round => aesEncryptionRound state (nth round roundKeys []) false)
                         (seq 1 (numRounds - 1)) state in
  let state := aesEncryptionRound state (nth numRounds roundKeys []) true in
  Ok (stateToBytes state).

Definition aesDecryptBlock (block key : list Z) : Result (list Z) :=
  let* roundKeys := keyExpansion key in
  let numRounds := (length roundKeys - 1)%nat in
  let* state := bytesToState block in
  let state := addRoundKey state (nth numRounds roundKeys []) in
  (* for (round = numRounds - 1; round > 0; round--) *)
  let state := fold_left (fun state round => aesDecryptionRound state (nth round roundKeys []) false)
                         (rev (seq 1 (numRounds - 1))) state in
  let state := aesDecryptionRound state (nth 0 roundKeys []) true in
  Ok (stateToBytes state).

(** ** utils.ts *)

(** [generateRandomBytes] draws from [Math.random]; the bytes a call returns
    are given by an oracle [nat -> list Z], from the requested length to
    that many bytes. *)
Definition RandomSource : Type := nat -> list Z.

Definition xorBytes (a b : list Z) : Result (list Z) :=
  if negb (length a =? length b)%nat then Throw (LengthMismatch (length a) (length b))
  else Ok (map (fun i => nth i a 0 .^ nth i b 0) (seq 0 (length a))).

Definition isValidKeyLength {A : Type} (key : list A) : bool :=
  (length key =? 16)%nat || (length key =? 24)%nat || (length key =? 32)%nat.

(** Strings are sequences of 8-bit characters; [\s] matches, among them, the
    tab, line feed, vertical tab, form feed, carriage return, space and
    no-break space. *)
Definition isSpace (c : ascii) : bool :=
  let n := nat_of_ascii c in
  ((9 <=? n) && (n <=? 13) || (n =? 32) || (n =? 160))%nat.

(** [hex.replace(/\s/g, '')] *)
Fixpoint removeSpaces (s : string) : string :=
  match s with
  | EmptyString => EmptyString
  | String c rest => if isSpace c then removeSpaces rest else String c (removeSpaces rest)
  end.

Definition hexDigit (c : ascii) : option Z :=
  let n := nat_of_ascii c in
  if ((48 <=? n) && (n <=? 57))%nat then Some (Z.of_nat n - 48)
  else if ((97 <=? n) && (n <=? 102))%nat then Some (Z.of_nat n - 87)
  else if ((65 <=? n) && (n <=? 70))%nat then Some (Z.of_nat n - 55)
  else None.

Definition isHexDigit (c : ascii) : bool :=
  match hexDigit c with Some _ => true | None => false end.

(** [parseInt(pair, 16)] on a string of two characters, neither of them white
    space; [None] is [NaN].  [parseInt] accepts a sign, skips a [0x] prefix,
    and reads the longest run of hexadecimal digits that follows, ignoring
    whatever comes after it. *)
Definition parseIntHexPair (c1 c2 : ascii) : option Z :=
  if Ascii.eqb c1 "-" then option_map Z.opp (hexDigit c2)
  else if Ascii.eqb c1 "+" then hexDigit c2
  else
    match hexDigit c1 with
    | None => None
    | Some d1 =>
        if (d1 =? 0) && (Ascii.eqb c2 "x" || Ascii.eqb c2 "X") then None
        else match hexDigit c2 with
             | Some d2 => Some (16 * d1 + d2)
             | None => Some d1
             end
    end.

(** The loop over [hex.substring(i, i + 2)], [i] advancing by two. *)
Fixpoint parsePairs (hex : string) : list (option Z) :=
  match hex with
  | String c1 (String c2 rest) => parseIntHexPair c1 c2 :: parsePairs rest
  | _ => []
  end.

Definition hexToBytes (hex : string) : list (option Z) :=
  let hex := removeSpaces hex in
  let hex := if negb (String.length hex mod 2 =? 0)%nat then String "0" hex else hex in
  parsePairs hex.

(** [/^[0-9A-Fa-f]+$/.test(input.replace(/\s/g, ''))] *)
Fixpoint allHexDigits (s : string) : bool :=
  match s with
  | EmptyString => true
  | String c rest => isHexDigit c && allHexDigits rest
  end.

Definition isValidHex (input : string) : bool :=
  let stripped := removeSpaces input in
  negb (String.length stripped =? 0)%nat && allHexDigits stripped.

(** [byte.toString(16).padStart(2, '0')] *)
Definition byteToHex (b : Z) : string :=
  let digits := HexadecimalString.NilZero.string_of_int (Z.to_hex_int b) in
  if (String.length digits <? 2)%nat then String "0" digits else digits.

Definition bytesToHex (bytes : list Z) : string :=
  String.concat EmptyString (map byteToHex bytes).

Definition stringToBytes (str : string) : list Z :=
  map (fun c => Z.of_nat (nat_of_ascii c)) (list_ascii_of_string str).

(** [String.fromCharCode(...bytes)], for character codes below 256. *)
Definition bytesToString (bytes : list Z) : string :=
  string_of_list_ascii (map (fun b => ascii_of_nat (Z.to_nat b)) bytes).

(** ** cbcMode.ts *)

(** [arr.slice(start, stop)] for [start <= stop]. *)
Definition slice {A : Type} (arr : list A) (start stop : nat) : list A :=
  firstn (stop - start) (skipn start arr).

(** The values [i] takes in [for (let i = 0; i < len; i += BLOCK_SIZE_BYTES)]. *)
Definition blockStarts (len : nat) : list nat :=
  map (fun k => k * BLOCK_SIZE_BYTES)%nat (seq 0 ((len + (BLOCK_SIZE_BYTES - 1)) / BLOCK_SIZE_BYTES)).

(** For [blockSize = 0] JavaScript computes [NaN] and the loop appends
    nothing; so does the truncated subtraction here. *)
Definition padPKCS7 (data : list Z) (blockSize : nat) : list Z :=
  let paddingLength := (blockSize - length data mod blockSize)%nat in
  data ++ repeat (Z.of_nat paddingLength) paddingLength.

(** Body of the loop of [unpadPKCS7] that checks the padding bytes. *)
Definition checkPadding (data : list Z) (paddingLength : Z) (_ : unit) (i : nat) : Result unit :=
  if negb (nth i data 0 =? paddingLength)
  then Throw (InvalidPaddingByte paddingLength (nth i data 0) i)
  else Ok tt.

Definition unpadPKCS7 (data : list Z) : Result (list Z) :=
  if (length data =? 0)%nat then Throw EmptyInput
  else
    let paddingLength := nth (length data - 1) data 0 in
    if (paddingLength <=? 0) || (paddingLength >? Z.of_nat BLOCK_SIZE_BYTES)
       || (paddingLength >? Z.of_nat (length data))
    then Throw (InvalidPaddingLength paddingLength)
    else
      let* _ := forEach (checkPadding data paddingLength)
                        (seq (length data - Z.to_nat paddingLength) (Z.to_nat paddingLength)) tt in
      Ok (slice data 0 (length data - Z.to_nat paddingLength)).

Record Encrypted : Type := { enc_iv : list Z; enc_ciphertext : list Z }.

(** Body of the loop of [encryptCBC]; the loop carries [ciphertext] and
    [previousBlock]. *)
Definition encryptCBCLoop (paddedPlaintext key : list Z)
    (vars : list Z * list Z) (i : nat) : Result (list Z * list Z) :=
  let '(ciphertext, previousBlock) := vars in
  let block := slice paddedPlaintext i (i + BLOCK_SIZE_BYTES) in
  let* xoredBlock := xorBytes block previousBlock in
  let* encryptedBlock := aesEncryptBlock xoredBlock key in
  Ok (ciphertext ++ encryptedBlock, encryptedBlock).

Definition encryptCBC (generateRandomBytes : RandomSource)
    (plaintext key : list Z) (iv : option (list Z)) : Result Encrypted :=
  let initVector := match iv with
                    | Some iv => iv
                    | None => generateRandomBytes BLOCK_SIZE_BYTES
                    end in
  if negb (length initVector =? BLOCK_SIZE_BYTES)%nat
  then Throw (InvalidIVLength (length initVector))
  else
    let paddedPlaintext := padPKCS7 plaintext BLOCK_SIZE_BYTES in
    let* vars := forEach (encryptCBCLoop paddedPlaintext key)
                         (blockStarts (length paddedPlaintext)) ([], initVector) in
    let '(ciphertext, _) := vars in
    Ok {| enc_iv := initVector; enc_ciphertext := ciphertext |}.

(** Body of the loop of [decryptCBC]; the loop carries [plaintext] and
    [previousBlock]. *)
Definition decryptCBCLoop (ciphertext key : list Z)
    (vars : list Z * list Z) (i : nat) : Result (list Z * list Z) :=
  let '(plaintext, previousBlock) := vars in
  let block := slice ciphertext i (i + BLOCK_SIZE_BYTES) in
  let* decryptedBlock := aesDecryptBlock block key in
  let* xoredBlock := xorBytes decryptedBlock previousBlock in
  Ok (plaintext ++ xoredBlock, block).

Definition decryptCBC (ciphertext key iv : list Z) : Result (list Z) :=
  if negb (length iv =? BLOCK_SIZE_BYTES)%nat then Throw (InvalidIVLength (length iv))
  else if negb (length ciphertext mod BLOCK_SIZE_BYTES =? 0)%nat
  then Throw (InvalidCiphertextLength (length ciphertext))
  else
    let* vars := forEach (decryptCBCLoop ciphertext key)
                         (blockStarts (length ciphertext)) ([], iv) in
    let '(plaintext, _) := vars in
    tryCatch (unpadPKCS7 plaintext) (fun _ => DecryptionFailedInvalidPadding).

Record EncryptBlockStep : Type :=
  { es_index : nat; es_plainBlock : list Z; es_xorWithPrevious : list Z; es_encrypted : list Z }.

Record EncryptSteps : Type :=
  { esteps_iv : list Z;
    esteps_plaintext : list Z;
    esteps_paddedPlaintext : list Z;
    esteps_blocks : list EncryptBlockStep;
    esteps_ciphertext : list Z }.

(** Body of the loop of [encryptCBCWithSteps]; the loop carries
    [result.blocks], [result.ciphertext] and [previousBlock]. *)
Definition encryptCBCWithStepsLoop (paddedPlaintext key : list Z)
    (vars : list EncryptBlockStep * list Z * list Z) (i : nat)
  : Result (list EncryptBlockStep * list Z * list Z) :=
  let '(blocks, ciphertext, previousBlock) := vars in
  let plainBlock := slice paddedPlaintext i (i + BLOCK_SIZE_BYTES) in
  let* xoredBlock := xorBytes plainBlock previousBlock in
  let* encryptedBlock := aesEncryptBlock xoredBlock key in
  Ok (blocks ++ [ {| es_index := (i / BLOCK_SIZE_BYTES)%nat;
                     es_plainBlock := plainBlock;
                     es_xorWithPrevious := xoredBlock;
                     es_encrypted := encryptedBlock |} ],
      ciphertext ++ encryptedBlock, encryptedBlock).

Definition encryptCBCWithSteps (plaintext key iv : list Z) : Result EncryptSteps :=
  let paddedPlaintext := padPKCS7 plaintext BLOCK_SIZE_BYTES in
  let* vars := forEach (encryptCBCWithStepsLoop paddedPlaintext key)
                       (blockStarts (length paddedPlaintext)) ([], [], iv) in
  let '(blocks, ciphertext, _) := vars in
  Ok {| esteps_iv := iv;
        esteps_plaintext := plaintext;
        esteps_paddedPlaintext := paddedPlaintext;
        esteps_blocks := blocks;
        esteps_ciphertext := ciphertext |}.

Record DecryptBlockStep : Type :=
  { ds_index : nat; ds_cipherBlock : list Z; ds_decrypted : list Z; ds_xorWithPrevious : list Z }.

Record DecryptSteps : Type :=
  { dsteps_iv : list Z;
    dsteps_ciphertext : list Z;
    dsteps_blocks : list DecryptBlockStep;
    dsteps_paddedPlaintext : list Z;
    dsteps_plaintext : list Z }.

(** Body of the loop of [decryptCBCWithSteps]; the loop carries
    [result.blocks], [result.paddedPlaintext] and [previousBlock]. *)
Definition decryptCBCWithStepsLoop (ciphertext key : list Z)
    (vars : list DecryptBlockStep * list Z * list Z) (i : nat)
  : Result (list DecryptBlockStep * list Z * list Z) :=
  let '(blocks, paddedPlaintext, previousBlock) := vars in
  let cipherBlock := slice ciphertext i (i + BLOCK_SIZE_BYTES) in
  let* decryptedBlock := aesDecryptBlock cipherBlock key in
  let* xoredBlock := xorBytes decryptedBlock previousBlock in
  Ok (blocks ++ [ {| ds_index := (i / BLOCK_SIZE_BYTES)%nat;
                     ds_cipherBlock := cipherBlock;
                     ds_decrypted := decryptedBlock;
                     ds_xorWithPrevious := xoredBlock |} ],
      paddedPlaintext ++ xoredBlock, cipherBlock).

(** The whole body is inside [try]; the handler wraps the message of
    whatever was thrown. *)
Definition decryptCBCWithSteps (ciphertext key iv : list Z) : Result DecryptSteps :=
  tryCatch
    (let* vars := forEach (decryptCBCWithStepsLoop ciphertext key)
                          (blockStarts (length ciphertext)) ([], [], iv) in
     let '(blocks, paddedPlaintext, _) := vars in
     let* plaintext := unpadPKCS7 paddedPlaintext in
     Ok {| dsteps_iv := iv;
           dsteps_ciphertext := ciphertext;
           dsteps_blocks := blocks;
           dsteps_paddedPlaintext := paddedPlaintext;
           dsteps_plaintext := plaintext |})
    (fun error => DecryptionFailed error).

(** ** index.ts *)

(** The byte arrays [hexToBytes] returns may hold [NaN]; the cipher is
    embedded on numbers only. *)
Fixpoint numbers (parsed : list (option Z)) : option (list Z) :=
  match parsed with
  | [] => Some []
  | Some b :: rest => option_map (cons b) (numbers rest)
  | None :: _ => None
  end.

Record EncryptOutput : Type :=
  { out_iv : string; out_ciphertext : string; out_steps : option EncryptSteps }.

Record DecryptOutput : Type :=
  { out_plaintext : string; out_decryptSteps : option DecryptSteps }.

(** [None]: a [NaN] byte reached the cipher, which this embedding does not
    follow. *)
Definition encrypt (generateRandomBytes : RandomSource)
    (plaintext key : string) (recordSteps : bool) : option (Result EncryptOutput) :=
  let plaintextBytes := stringToBytes plaintext in
  let keyBytes := hexToBytes key in
  if negb (isValidKeyLength keyBytes) then Some (Throw (InvalidKeyLength (length keyBytes)))
  else
    let iv := generateRandomBytes BLOCK_SIZE_BYTES in
    match numbers keyBytes with
    | None => None
    | Some keyBytes =>
        Some (if recordSteps then
                let* result := encryptCBCWithSteps plaintextBytes keyBytes iv in
                Ok {| out_iv := bytesToHex (esteps_iv result);
                      out_ciphertext := bytesToHex (esteps_ciphertext result);
                      out_steps := Some result |}
              else
                let* result := encryptCBC generateRandomBytes plaintextBytes keyBytes (Some iv) in
                Ok {| out_iv := bytesToHex (enc_iv result);
                      out_ciphertext := bytesToHex (enc_ciphertext result);
                      out_steps := None |})
    end.

Definition decrypt (ciphertext key iv : string) (recordSteps : bool)
  : option (Result DecryptOutput) :=
  let ciphertextBytes := hexToBytes ciphertext in
  let keyBytes := hexToBytes key in
  let ivBytes := hexToBytes iv in
  if negb (isValidKeyLength keyBytes) then Some (Throw (InvalidKeyLength (length keyBytes)))
  else
    match numbers ciphertextBytes, numbers keyBytes, numbers ivBytes with
    | Some ciphertextBytes, Some keyBytes, Some ivBytes =>
        Some (if recordSteps then
                let* result := decryptCBCWithSteps ciphertextBytes keyBytes ivBytes in
                Ok {| out_plaintext := bytesToString (dsteps_plaintext result);
                      out_decryptSteps := Some result |}
              else
                let* plaintextBytes := decryptCBC ciphertextBytes keyBytes ivBytes in
                Ok {| out_plaintext := bytesToString plaintextBytes;
                      out_decryptSteps := None |})
    | _, _, _ => None
    end.

(** ** Predicates of the statements *)

Definition forallBytes (p : Z -> bool) : bool := forallb p allBytes.

(** A lookup table is linear when it sends the XOR of two bytes to the XOR of
    their images, as multiplication by a constant in GF(2^8) does. *)
Definition linearTable (table : list Z) : bool :=
  forallBytes (fun a => forallBytes (fun b => idx table (a .^ b) =? idx table a .^ idx table b)).

(** A state of the cipher: four rows of four bytes. *)
Definition byteState (s : State) : Prop :=
  s = matrix (cell s) /\ forall row col, byte (cell s row col).

Definition wordOk (word : list Z) : Prop := length word = 4%nat /\ Forall byte word.

(** [n] words of four bytes each. *)
Definition scheduleOk (n : nat) (w : list (list Z)) : Prop := length w = n /\ Forall wordOk w.

(** A round key: sixteen bytes. *)
Definition roundKeyOk (roundKey : list Z) : Prop :=
  length roundKey = 16%nat /\ Forall byte roundKey.

(** The number of rounds the key length selects. *)
Definition roundsFor (keyLengthBytes : nat) : nat := (keyLengthBytes / 4 + 6)%nat.

Definition validKeyLength (n : nat) : Prop := n = 16%nat \/ n = 24%nat \/ n = 32%nat.

(** Two results that agree: both return, with related values, or both throw
    the same error. *)
Definition agree {A B : Type} (R : A -> B -> Prop) (r1 : Result A) (r2 : Result B) : Prop :=
  match r1, r2 with
  | Ok a, Ok b => R a b
  | Throw e1, Throw e2 => e1 = e2
  | _, _ => False
  end.

(** The variables the plain loops and the step-recording loops share. *)
Definition sameVars {B : Type} (vars : list Z * list Z) (vars' : list B * list Z * list Z) : Prop :=
  snd (fst vars') = fst vars /\ snd vars' = snd vars.

(** The padding that section 4.5 of the specification has [unpad] reject,
    [n] being the last byte of [data]. *)
Definition paddingRejected (data : list Z) : Prop :=
  let n := nth (length data - 1) data 0 in
  n = 0 \/ n > 16 \/ n > Z.of_nat (length data)
  \/ exists i, (length data - Z.to_nat n <= i < length data)%nat /\ nth i data 0 <> n.

(** The vectors of FIPS-197, appendix C.1. *)
Definition fipsKey : list Z :=
  [0x00; 0x01; 0x02; 0x03; 0x04; 0x05; 0x06; 0x07; 0x08; 0x09; 0x0a; 0x0b; 0x0c; 0x0d; 0x0e; 0x0f].
Definition fipsBlock : list Z :=
  [0x00; 0x11; 0x22; 0x33; 0x44; 0x55; 0x66; 0x77; 0x88; 0x99; 0xaa; 0xbb; 0xcc; 0xdd; 0xee; 0xff].
Definition fipsCipher : list Z :=
  [0x69; 0xc4; 0xe0; 0xd8; 0x6a; 0x7b; 0x04; 0x30; 0xd8; 0xcd; 0xb7; 0x80; 0x70; 0xb4; 0xc5; 0x5a].

Definition zeroBlock : list Z := repeat 0 16.
Definition zeroSource : RandomSource := fun n => repeat 0 n.

(** Under [fipsKey] and a zero IV: the encryption of sixteen zero bytes, a
    padded plaintext whose last byte is [0]; and of fourteen zero bytes
    followed by [7; 2], a padded plaintext whose last two bytes differ. *)
Definition zeroPaddingCipher : list Z :=
  [0xc6; 0xa1; 0x3b; 0x37; 0x87; 0x8f; 0x5b; 0x82; 0x6f; 0x4f; 0x81; 0x62; 0xa1; 0xc8; 0xd8; 0x79].
Definition mismatchedPaddingCipher : list Z :=
  [0x2a; 0xbf; 0x00; 0x80; 0xbb; 0xca; 0x23; 0xad; 0x97; 0xbc; 0x30; 0x67; 0x85; 0x2a; 0x58; 0x34].

(** A key string in which every second character is not a hexadecimal
    digit. *)
Definition nonHexKey : string := "1g1g1g1g1g1g1g1g1g1g1g1g1g1g1g1g".
Definition zeroIVHex : string := "00000000000000000000000000000000".
Definition helloCipherHex : string := "1ec5b6e7afe8229f5c65121f4180fd6c".

(** ** Further functions of utils.ts, keyExpansion.ts and index.ts *)

(** The values [i] takes in [for (let i = 0; i < len; i += step)], from a
    given [i] on.  With [step = 0] the loop never ends, so the counter runs
    on fuel: [None] when the fuel is spent before the loop ends. *)
Fixpoint loopCounter (fuel len step i : nat) : option (list nat) :=
  match fuel with
  | O => if (i <? len)%nat then None else Some []
  | Datatypes.S fuel' =>
      if (i <? len)%nat then option_map (cons i) (loopCounter fuel' len step (i + step))
      else Some []
  end.

(** [splitIntoBlocks(bytes, blockSize)], for a [blockSize] that is a natural
    number. *)
Definition splitIntoBlocks (fuel : nat) (bytes : list Z) (blockSize : nat)
  : option (list (list Z)) :=
  option_map (map (fun i => slice bytes i (i + blockSize)))
             (loopCounter fuel (length bytes) blockSize 0).

(** [blocks.flat()] *)
Definition joinBlocks (blocks : list (list Z)) : list Z := concat blocks.

(** [str.trim()] on 8-bit strings. *)
Fixpoint trimStart (s : string) : string :=
  match s with
  | EmptyString => EmptyString
  | String c rest => if isSpace c then trimStart rest else s
  end.

Fixpoint trimEnd (s : string) : string :=
  match s with
  | EmptyString => EmptyString
  | String c rest =>
      match trimEnd rest with
      | EmptyString => if isSpace c then EmptyString else String c EmptyString
      | rest' => String c rest'
      end
  end.

Definition trim (s : string) : string := trimEnd (trimStart s).

(** [formatBytesForDisplay(bytes, bytesPerGroup)]; the source's default for
    [bytesPerGroup] is 4. *)
Definition formatBytesForDisplay (fuel : nat) (bytes : list Z) (bytesPerGroup : nat)
  : option string :=
  let hex := bytesToHex bytes in
  option_map
    (fun counter =>
       trim (fold_left
               (fun result i =>
                  (result ++ substring i (bytesPerGroup * 2) hex ++ " ")%string)
               counter EmptyString))
    (loopCounter fuel (String.length hex) (bytesPerGroup * 2) 0).



(** What [generateKey] yields: the key, or the error
    [Invalid key size: ${bits} bits. Must be 128, 192, or 256 bits.] *)
Inductive GeneratedKey : Type :=
| KeyHex (key : string)
| ThrowInvalidKeySize (bits : Z).

(** The object [aesEducational] of index.ts.  As for [encrypt] and
    [decrypt], [None] stands for a [NaN] byte reaching the cipher. *)
(** ** displayKeyExpansionSteps of keyExpansion.ts *)

Record KeyExpansionDetail : Type :=
  { ked_round : nat; ked_keyHex : string; ked_keyMatrix : State }.

Record KeyExpansionSteps : Type :=
  { kes_originalKey : string;
    kes_roundKeys : list string;
    kes_details : list KeyExpansionDetail }.

(** [None]: a [NaN] byte reached the key schedule. *)
Definition displayKeyExpansionSteps (key : string) : option (Result KeyExpansionSteps) :=
  match numbers (hexToBytes key) with
  | None => None
  | Some keyBytes =>
      Some (let* roundKeys := keyExpansion keyBytes in
            Ok {| kes_originalKey := key;
                  kes_roundKeys := map bytesToHex roundKeys;
                  kes_details :=
                    imap (fun i rk =>
                            {| ked_round := i;
                               ked_keyHex := bytesToHex rk;
                               ked_keyMatrix := matrix (fun row col => nth (col * 4 + row) rk 0) |})
                         roundKeys |})
  end.

Module aesEducational.

Definition expandKey (key : string) : option (Result KeyExpansionSteps) :=
  displayKeyExpansionSteps key.

Definition encryptBlock (block key : string) : option (Result string) :=
  match numbers (hexToBytes block), numbers (hexToBytes key) with
  | Some blockBytes, Some keyBytes =>
      Some (let* encrypted := aesEncryptBlock blockBytes keyBytes in Ok (bytesToHex encrypted))
  | _, _ => None
  end.

Definition decryptBlock (block key : string) : option (Result string) :=
  match numbers (hexToBytes block), numbers (hexToBytes key) with
  | Some blockBytes, Some keyBytes =>
      Some (let* decrypted := aesDecryptBlock blockBytes keyBytes in Ok (bytesToHex decrypted))
  | _, _ => None
  end.



Definition generateIV (generateRandomBytes : RandomSource) : string :=
  bytesToHex (generateRandomBytes BLOCK_SIZE_BYTES).

Definition generateKey (generateRandomBytes : RandomSource) (bits : Z) : GeneratedKey :=
  if bits =? 128 then KeyHex (bytesToHex (generateRandomBytes 16%nat))
  else if bits =? 192 then KeyHex (bytesToHex (generateRandomBytes 24%nat))
  else if bits =? 256 then KeyHex (bytesToHex (generateRandomBytes 32%nat))
  else ThrowInvalidKeySize bits.

Definition isValidKeyLength (key : string) : bool :=
  isValidKeyLength (hexToBytes key).

(** [None] is [null]. *)
Definition getKeySize (key : string) : option Z :=
  let keyBytes := hexToBytes key in
  if (length keyBytes =? 16)%nat then Some 128
  else if (length keyBytes =? 24)%nat then Some 192
  else if (length keyBytes =? 32)%nat then Some 256
  else None.

End aesEducational.

(** What [generateRandomBytes(length)] returns: [length] values, each
    [Math.floor(Math.random() * 256)]. *)
Definition randomBytesOk (generateRandomBytes : RandomSource) : Prop :=
  forall n, length (generateRandomBytes n) = n /\ Forall byte (generateRandomBytes n).

(** The two characters [byteToHex] gives for a byte are hexadecimal digits
    that [parseIntHexPair] reads back as the byte. *)
Definition hexPairOk (b : Z) : bool :=
  match byteToHex b with
  | String c1 (String c2 EmptyString) =>
      match parseIntHexPair c1 c2 with
      | Some z => (z =? b) && isHexDigit c1 && isHexDigit c2
                  && negb (isSpace c1) && negb (isSpace c2)
      | None => false
      end
  | _ => false
  end.


(** [iv || generateRandomBytes(BLOCK_SIZE_BYTES)]: an array, even an empty
    one, is truthy. *)
Definition initVectorOf (generateRandomBytes : RandomSource) (iv : option (list Z)) : list Z :=
  match iv with
  | Some iv => iv
  | None => generateRandomBytes BLOCK_SIZE_BYTES
  end.

(** The recorded steps of an encryption follow one another as the loop of
    [encryptCBCWithSteps] computes them: each plain block is XORed with the
    previous encrypted block ([previousBlock] for the first) and the result
    encrypted. *)
Fixpoint encryptChain (key previousBlock : list Z) (blocks : list EncryptBlockStep) : Prop :=
  match blocks with
  | [] => True
  | step :: rest =>
      xorBytes (es_plainBlock step) previousBlock = Ok (es_xorWithPrevious step)
      /\ aesEncryptBlock (es_xorWithPrevious step) key = Ok (es_encrypted step)
      /\ encryptChain key (es_encrypted step) rest
  end.

(** The same for the loop of [decryptCBCWithSteps]: each cipher block is
    decrypted and the result XORed with the previous cipher block. *)
Fixpoint decryptChain (key previousBlock : list Z) (blocks : list DecryptBlockStep) : Prop :=
  match blocks with
  | [] => True
  | step :: rest =>
      aesDecryptBlock (ds_cipherBlock step) key = Ok (ds_decrypted step)
      /\ xorBytes (ds_decrypted step) previousBlock = Ok (ds_xorWithPrevious step)
      /\ decryptChain key (ds_cipherBlock step) rest
  end.

(** The steps [encryptCBCWithSteps] records for the empty plaintext under
    [fipsKey] and a zero IV, and those [decryptCBCWithSteps] records for the
    resulting ciphertext. *)
Definition emptyMessageSteps : EncryptSteps :=
  Eval vm_compute in
    match encryptCBCWithSteps [] fipsKey zeroBlock with
    | Ok result => result
    | Throw _ => {| esteps_iv := []; esteps_plaintext := []; esteps_paddedPlaintext := [];
                    esteps_blocks := []; esteps_ciphertext := [] |}
    end.

Definition emptyMessageDecryptSteps : DecryptSteps :=
  Eval vm_compute in
    match decryptCBCWithSteps (esteps_ciphertext emptyMessageSteps) fipsKey zeroBlock with
    | Ok result => result
    | Throw _ => {| dsteps_iv := []; dsteps_ciphertext := []; dsteps_blocks := [];
                    dsteps_paddedPlaintext := []; dsteps_plaintext := [] |}
    end.

Definition fipsKeyHex : string := "000102030405060708090a0b0c0d0e0f".
Definition fipsBlockHex : string := "00112233445566778899aabbccddeeff".





(** * Properties *)

(** ** Bytes and tables *)

Lemma byte_In b : byte b -> In b allBytes.
Proof.
  intros Hb. unfold allBytes.
  replace b with (Z.of_nat (Z.to_nat b)) by (unfold byte in Hb; lia).
  apply in_map, in_seq. unfold byte in Hb. lia.
Qed.

Lemma forallBytes_spec p : forallBytes p = true -> forall b, byte b -> p b = true.
Proof.
  unfold forallBytes. rewrite forallb_forall. intros H b Hb. apply H, byte_In, Hb.
Qed.

Lemma isByte_spec b : isByte b = true <-> byte b.
Proof. unfold isByte, byte. rewrite andb_true_iff, Z.leb_le, Z.ltb_lt. tauto. Qed.

Lemma byte_0 : byte 0.
Proof. unfold byte; lia. Qed.

Lemma Forall_byte_check l : forallb isByte l = true -> Forall byte l.
Proof.
  rewrite forallb_forall, Forall_forall. intros H x Hx. apply isByte_spec, H, Hx.
Qed.

Lemma idx_byte table b : Forall byte table -> byte (idx table b).
Proof.
  intros H. unfold idx. destruct (b <? 0); [apply byte_0 |].
  destruct (Nat.lt_ge_cases (Z.to_nat b) (length table)) as [Hlt | Hge].
  - apply Forall_nth; assumption.
  - rewrite nth_overflow by assumption. apply byte_0.
Qed.

Lemma nth_byte i l : Forall byte l -> byte (nth i l 0).
Proof.
  intros H. destruct (Nat.lt_ge_cases i (length l)) as [Hlt | Hge].
  - apply Forall_nth; assumption.
  - rewrite nth_overflow by assumption. apply byte_0.
Qed.

Lemma SBOX_bytes : Forall byte SBOX.
Proof. apply Forall_byte_check. vm_compute. reflexivity. Qed.
Lemma INV_SBOX_bytes : Forall byte INV_SBOX.
Proof. apply Forall_byte_check. vm_compute. reflexivity. Qed.
Lemma RCON_bytes : Forall byte RCON.
Proof. apply Forall_byte_check. vm_compute. reflexivity. Qed.
Lemma MULT_2_bytes : Forall byte MULT_2.
Proof. apply Forall_byte_check. vm_compute. reflexivity. Qed.
Lemma MULT_3_bytes : Forall byte MULT_3.
Proof. apply Forall_byte_check. vm_compute. reflexivity. Qed.
Lemma MULT_9_bytes : Forall byte MULT_9.
Proof. apply Forall_byte_check. vm_compute. reflexivity. Qed.
Lemma MULT_11_bytes : Forall byte MULT_11.
Proof. apply Forall_byte_check. vm_compute. reflexivity. Qed.
Lemma MULT_13_bytes : Forall byte MULT_13.
Proof. apply Forall_byte_check. vm_compute. reflexivity. Qed.
Lemma MULT_14_bytes : Forall byte MULT_14.
Proof. apply Forall_byte_check. vm_compute. reflexivity. Qed.

Create HintDb bytes.
#[local] Hint Resolve byte_0 SBOX_bytes INV_SBOX_bytes RCON_bytes MULT_2_bytes MULT_3_bytes
  MULT_9_bytes MULT_11_bytes MULT_13_bytes MULT_14_bytes idx_byte nth_byte : bytes.

(** XOR keeps bytes bytes: no bit at position 8 or above appears. *)
Lemma byte_high_bits b : byte b <-> (0 <= b /\ forall i, 8 <= i -> Z.testbit b i = false).
Proof.
  unfold byte. split.
  - intros Hb. split; [lia |]. intros i Hi.
    destruct (Z.eq_dec b 0) as [-> | Hne]; [apply Z.bits_0 |].
    apply Z.bits_above_log2; [lia |].
    assert (Z.log2 b < 8) by (apply Z.log2_lt_pow2; lia). lia.
  - intros [Hnn Hhi]. split; [assumption |].
    destruct (Z.lt_ge_cases b 256) as [Hlt | Hge]; [assumption | exfalso].
    assert (Hlog : 8 <= Z.log2 b) by (apply Z.log2_le_pow2; lia).
    specialize (Hhi (Z.log2 b) Hlog).
    rewrite Z.bit_log2 in Hhi by lia. discriminate.
Qed.

Lemma lxor_byte a b : byte a -> byte b -> byte (a .^ b).
Proof.
  rewrite !byte_high_bits. intros [Ha Ha'] [Hb Hb']. split.
  - apply Z.lxor_nonneg. tauto.
  - intros i Hi. rewrite Z.lxor_spec, Ha', Hb' by assumption. reflexivity.
Qed.

#[local] Hint Resolve lxor_byte : bytes.

Lemma lxor_cancel_r a k : a .^ k .^ k = a.
Proof. rewrite Z.lxor_assoc, Z.lxor_nilpotent, Z.lxor_0_r. reflexivity. Qed.

(** The inverse S-box undoes the S-box on every byte. *)
Lemma INV_SBOX_SBOX b : byte b -> idx INV_SBOX (idx SBOX b) = b.
Proof.
  intros Hb.
  assert (H : forallBytes (fun b => idx INV_SBOX (idx SBOX b) =? b) = true)
    by (vm_compute; reflexivity).
  apply Z.eqb_eq. exact (forallBytes_spec _ H b Hb).
Qed.

Lemma linearTable_spec table :
  linearTable table = true ->
  forall a b, byte a -> byte b -> idx table (a .^ b) = idx table a .^ idx table b.
Proof.
  intros H a b Ha Hb. apply Z.eqb_eq.
  pose proof (forallBytes_spec _ H a Ha) as H1. cbv beta in H1.
  exact (forallBytes_spec _ H1 b Hb).
Qed.

Lemma linearTable4 table a b c d :
  linearTable table = true -> byte a -> byte b -> byte c -> byte d ->
  idx table (a .^ b .^ c .^ d) = idx table a .^ idx table b .^ idx table c .^ idx table d.
Proof.
  intros H Ha Hb Hc Hd.
  rewrite !(linearTable_spec table H); auto with bytes.
Qed.

Lemma MULT_9_linear : linearTable MULT_9 = true.
Proof. vm_compute. reflexivity. Qed.
Lemma MULT_11_linear : linearTable MULT_11 = true.
Proof. vm_compute. reflexivity. Qed.
Lemma MULT_13_linear : linearTable MULT_13 = true.
Proof. vm_compute. reflexivity. Qed.
Lemma MULT_14_linear : linearTable MULT_14 = true.
Proof. vm_compute. reflexivity. Qed.

(** ** The state matrix *)

Ltac cases6 n := destruct n as [| [| [| [| [| n]]]]].

Ltac split_list :=
  repeat match goal with
         | |- _ :: _ = _ :: _ => apply (f_equal2 cons)
         | |- [] = [] => reflexivity
         end.

(** Replace a well-shaped state by [matrix f] for a fresh [f]. *)
Ltac as_matrix s f Hf :=
  match goal with
  | H : byteState s |- _ =>
      let Hs := fresh "Hs" in
      let Heq := fresh "Heq" in
      destruct H as [Hs Hf]; remember (cell s) as f eqn:Heq; clear Heq; subst s
  end.

Lemma cell_matrix_byte f :
  (forall row col, byte (f row col)) -> forall row col, byte (cell (matrix f) row col).
Proof.
  intros H row col. cases6 row; cases6 col; cbv [cell matrix four nth]; auto with bytes.
Qed.

Lemma byteState_matrix f : (forall row col, byte (f row col)) -> byteState (matrix f).
Proof. intros H. split; [reflexivity | apply cell_matrix_byte, H]. Qed.

Lemma subBytes_byteState s : byteState (subBytes s).
Proof. apply byteState_matrix. auto with bytes. Qed.

Lemma invSubBytes_byteState s : byteState (invSubBytes s).
Proof. apply byteState_matrix. auto with bytes. Qed.

Lemma addRoundKey_byteState s roundKey :
  byteState s -> Forall byte roundKey -> byteState (addRoundKey s roundKey).
Proof.
  intros [_ Hs] Hk. apply byteState_matrix. intros row col.
  apply lxor_byte; [apply Hs |]. apply cell_matrix_byte. auto with bytes.
Qed.

Lemma shiftRows_byteState s : byteState s -> byteState (shiftRows s).
Proof.
  intros [_ Hs]. split; [reflexivity |]. intros row col.
  cases6 row; cases6 col; cbv [cell shiftRows nth]; solve [apply Hs | apply byte_0].
Qed.

Lemma invShiftRows_byteState s : byteState s -> byteState (invShiftRows s).
Proof.
  intros [_ Hs]. split; [reflexivity |]. intros row col.
  cases6 row; cases6 col; cbv [cell invShiftRows nth]; solve [apply Hs | apply byte_0].
Qed.

Lemma mixColumns_byteState s : byteState s -> byteState (mixColumns s).
Proof.
  intros H. as_matrix s f Hf. split; [reflexivity |]. intros row col.
  cases6 row; cases6 col; cbv [cell mixColumns matrix four nth];
    repeat apply lxor_byte; auto with bytes.
Qed.

Lemma invMixColumns_byteState s : byteState s -> byteState (invMixColumns s).
Proof.
  intros H. as_matrix s f Hf. split; [reflexivity |]. intros row col.
  cases6 row; cases6 col; cbv [cell invMixColumns matrix four nth];
    repeat apply lxor_byte; auto with bytes.
Qed.

#[local] Hint Resolve subBytes_byteState invSubBytes_byteState addRoundKey_byteState
  shiftRows_byteState invShiftRows_byteState mixColumns_byteState invMixColumns_byteState
  : bytes.

(** Each transformation of decryption undoes its counterpart of encryption. *)

Lemma invSubBytes_subBytes s : byteState s -> invSubBytes (subBytes s) = s.
Proof.
  intros H. as_matrix s f Hf.
  cbv [invSubBytes subBytes matrix four cell nth]. split_list; apply INV_SBOX_SBOX, Hf.
Qed.

Lemma invShiftRows_shiftRows s : byteState s -> invShiftRows (shiftRows s) = s.
Proof. intros H. as_matrix s f Hf. reflexivity. Qed.

Lemma addRoundKey_involutive s roundKey :
  byteState s -> addRoundKey (addRoundKey s roundKey) roundKey = s.
Proof.
  intros H. as_matrix s f Hf.
  cbv [addRoundKey matrix four cell nth]. split_list; apply lxor_cancel_r.
Qed.

(** Sixteen XOR terms, grouped by rows or by columns. *)
Lemma lxor_regroup a1 a2 a3 a4 b1 b2 b3 b4 c1 c2 c3 c4 d1 d2 d3 d4 :
  (a1 .^ a2 .^ a3 .^ a4) .^ (b1 .^ b2 .^ b3 .^ b4) .^ (c1 .^ c2 .^ c3 .^ c4)
    .^ (d1 .^ d2 .^ d3 .^ d4)
  = (a1 .^ b1 .^ c1 .^ d1) .^ (a2 .^ b2 .^ c2 .^ d2) .^ (a3 .^ b3 .^ c3 .^ d3)
    .^ (a4 .^ b4 .^ c4 .^ d4).
Proof.
  apply Z.bits_inj'. intros n _. rewrite !Z.lxor_spec. btauto.
Qed.

(** Decide an equation in one byte variable by trying all 256 values. *)
Ltac all_bytes :=
  apply Z.eqb_eq;
  match goal with
  | H : byte ?x |- context [idx _ ?x] =>
      revert x H;
      match goal with
      | |- forall x, byte x -> @?p x = true => apply (forallBytes_spec p)
      end;
      vm_compute; reflexivity
  end.

Ltac inv_mix_row :=
  intros;
  rewrite (linearTable4 MULT_14 _ _ _ _ MULT_14_linear) by auto with bytes;
  rewrite (linearTable4 MULT_11 _ _ _ _ MULT_11_linear) by auto with bytes;
  rewrite (linearTable4 MULT_13 _ _ _ _ MULT_13_linear) by auto with bytes;
  rewrite (linearTable4 MULT_9 _ _ _ _ MULT_9_linear) by auto with bytes;
  rewrite lxor_regroup.

Lemma invMix_row0 a b c d : byte a -> byte b -> byte c -> byte d ->
  idx MULT_14 (idx MULT_2 a .^ idx MULT_3 b .^ c .^ d)
  .^ idx MULT_11 (a .^ idx MULT_2 b .^ idx MULT_3 c .^ d)
  .^ idx MULT_13 (a .^ b .^ idx MULT_2 c .^ idx MULT_3 d)
  .^ idx MULT_9 (idx MULT_3 a .^ b .^ c .^ idx MULT_2 d) = a.
Proof.
  inv_mix_row. transitivity (a .^ 0 .^ 0 .^ 0); [| rewrite !Z.lxor_0_r; reflexivity].
  f_equal; [f_equal; [f_equal |] |]; all_bytes.
Qed.

Lemma invMix_row1 a b c d : byte a -> byte b -> byte c -> byte d ->
  idx MULT_9 (idx MULT_2 a .^ idx MULT_3 b .^ c .^ d)
  .^ idx MULT_14 (a .^ idx MULT_2 b .^ idx MULT_3 c .^ d)
  .^ idx MULT_11 (a .^ b .^ idx MULT_2 c .^ idx MULT_3 d)
  .^ idx MULT_13 (idx MULT_3 a .^ b .^ c .^ idx MULT_2 d) = b.
Proof.
  inv_mix_row. transitivity (0 .^ b .^ 0 .^ 0); [| rewrite !Z.lxor_0_r; reflexivity].
  f_equal; [f_equal; [f_equal |] |]; all_bytes.
Qed.

Lemma invMix_row2 a b c d : byte a -> byte b -> byte c -> byte d ->
  idx MULT_13 (idx MULT_2 a .^ idx MULT_3 b .^ c .^ d)
  .^ idx MULT_9 (a .^ idx MULT_2 b .^ idx MULT_3 c .^ d)
  .^ idx MULT_14 (a .^ b .^ idx MULT_2 c .^ idx MULT_3 d)
  .^ idx MULT_11 (idx MULT_3 a .^ b .^ c .^ idx MULT_2 d) = c.
Proof.
  inv_mix_row. transitivity (0 .^ 0 .^ c .^ 0); [| rewrite !Z.lxor_0_r; reflexivity].
  f_equal; [f_equal; [f_equal |] |]; all_bytes.
Qed.

Lemma invMix_row3 a b c d : byte a -> byte b -> byte c -> byte d ->
  idx MULT_11 (idx MULT_2 a .^ idx MULT_3 b .^ c .^ d)
  .^ idx MULT_13 (a .^ idx MULT_2 b .^ idx MULT_3 c .^ d)
  .^ idx MULT_9 (a .^ b .^ idx MULT_2 c .^ idx MULT_3 d)
  .^ idx MULT_14 (idx MULT_3 a .^ b .^ c .^ idx MULT_2 d) = d.
Proof.
  inv_mix_row. transitivity (0 .^ 0 .^ 0 .^ d); [| rewrite !Z.lxor_0_r; reflexivity].
  f_equal; [f_equal; [f_equal |] |]; all_bytes.
Qed.

Lemma invMixColumns_mixColumns s : byteState s -> invMixColumns (mixColumns s) = s.
Proof.
  intros H. as_matrix s f Hf.
  cbv [invMixColumns mixColumns matrix four cell nth].
  split_list;
    first [apply invMix_row0 | apply invMix_row1 | apply invMix_row2 | apply invMix_row3];
    apply Hf.
Qed.

(** ** The key schedule *)

Lemma fold_left_invariant {S I : Type} (P : S -> Prop) (f : S -> I -> S) (l : list I) (s : S) :
  (forall s i, In i l -> P s -> P (f s i)) -> P s -> P (fold_left f l s).
Proof.
  revert s. induction l as [| i l IH]; intros s Hstep Hs; [exact Hs |].
  cbn [fold_left]. apply IH.
  - intros s' i' Hin. apply Hstep. right. exact Hin.
  - apply Hstep; [left; reflexivity | exact Hs].
Qed.

Lemma Forall_imap_intro {A B : Type} (P : A -> Prop) (Q : B -> Prop) (f : nat -> A -> B) l :
  Forall P l -> (forall j x, P x -> Q (f j x)) -> Forall Q (imap f l).
Proof.
  revert f. induction l as [| x l IH]; intros f Hl Hf; [constructor |].
  rewrite imap_cons. inversion Hl; subst. constructor.
  - apply Hf. assumption.
  - apply IH; [assumption |]. intros j y Hy. apply Hf, Hy.
Qed.

Lemma scheduleOk_nth n w i : scheduleOk n w -> (i < n)%nat -> wordOk (nth i w []).
Proof.
  intros [Hlen Hall] Hi. apply Forall_nth; [exact Hall | lia].
Qed.

Lemma scheduleOk_insert n w i word :
  scheduleOk n w -> wordOk word -> scheduleOk n (<[i := word]> w).
Proof.
  intros [Hlen Hall] Hword. split.
  - rewrite length_insert. exact Hlen.
  - apply Forall_insert; assumption.
Qed.

Lemma setByte_ok n w i j v :
  scheduleOk n w -> (i < n)%nat -> byte v -> scheduleOk n (setByte w i j v).
Proof.
  intros Hw Hi Hv. unfold setByte. apply scheduleOk_insert; [exact Hw |].
  destruct (scheduleOk_nth n w i Hw Hi) as [Hlen Hall]. split.
  - rewrite length_insert. exact Hlen.
  - apply Forall_insert; assumption.
Qed.

Lemma copyKeyWord_ok key n w i :
  Forall byte key -> scheduleOk n w -> (i < n)%nat -> scheduleOk n (copyKeyWord key w i).
Proof.
  intros Hkey Hw Hi. unfold copyKeyWord.
  repeat apply setByte_ok; auto with bytes.
Qed.

Lemma xorWord_ok word back :
  wordOk word -> Forall byte back ->
  wordOk (imap (fun j b => b .^ nth j back 0) word).
Proof.
  intros [Hlen Hall] Hback. split.
  - rewrite length_imap. exact Hlen.
  - apply Forall_imap_intro with (P := byte); [exact Hall |].
    intros j x Hx. auto with bytes.
Qed.

Lemma subWord_ok word : length word = 4%nat -> wordOk (map (idx SBOX) word).
Proof.
  intros Hlen. split.
  - rewrite length_map. exact Hlen.
  - apply Forall_map, Forall_forall. intros x _. auto with bytes.
Qed.

Lemma expandWord_ok Nk n w i :
  scheduleOk n w -> (i < n)%nat -> scheduleOk n (expandWord Nk w i).
Proof.
  intros Hw Hi.
  assert (Htemp : wordOk (nth (i - 1) w [])) by (apply (scheduleOk_nth n); [exact Hw | lia]).
  assert (Hback : wordOk (nth (i - Nk) w [])) by (apply (scheduleOk_nth n); [exact Hw | lia]).
  unfold expandWord.
  destruct (i mod Nk =? 0)%nat; [| destruct ((6 <? Nk)%nat && (i mod Nk =? 4)%nat)];
    apply scheduleOk_insert; try exact Hw; apply xorWord_ok; try apply Hback.
  - destruct (subWord_ok [nth 1 (nth (i - 1) w []) 0; nth 2 (nth (i - 1) w []) 0;
                          nth 3 (nth (i - 1) w []) 0; nth 0 (nth (i - 1) w []) 0] eq_refl)
      as [Hlen Hall].
    split.
    + rewrite length_insert. exact Hlen.
    + apply Forall_insert; [exact Hall |]. auto with bytes.
  - apply subWord_ok, Htemp.
  - exact Htemp.
Qed.

Lemma initial_schedule_ok n : scheduleOk n (repeat [0; 0; 0; 0] n).
Proof.
  split; [apply repeat_length |].
  apply Forall_forall. intros word Hin. apply repeat_spec in Hin. subst word.
  split; [reflexivity |]. repeat constructor; apply byte_0.
Qed.

Lemma expanded_schedule_ok key Nk n :
  Forall byte key -> (Nk <= n)%nat ->
  scheduleOk n (fold_left (expandWord Nk) (seq Nk (n - Nk))
                  (fold_left (copyKeyWord key) (seq 0 Nk) (repeat [0; 0; 0; 0] n))).
Proof.
  intros Hkey Hle.
  apply fold_left_invariant.
  - intros w i Hin Hw. apply in_seq in Hin. apply expandWord_ok; [exact Hw | lia].
  - apply fold_left_invariant.
    + intros w i Hin Hw. apply in_seq in Hin. apply copyKeyWord_ok; [exact Hkey | exact Hw | lia].
    + apply initial_schedule_ok.
Qed.

Lemma roundKey_of_words n w i :
  scheduleOk n w -> (i * 4 + 3 < n)%nat ->
  roundKeyOk (concat (map (fun j => nth (i * 4 + j) w []) (seq 0 4))).
Proof.
  intros Hw Hi. cbn [seq map concat].
  destruct (scheduleOk_nth n w (i * 4 + 0) Hw ltac:(lia)) as [L0 B0].
  destruct (scheduleOk_nth n w (i * 4 + 1) Hw ltac:(lia)) as [L1 B1].
  destruct (scheduleOk_nth n w (i * 4 + 2) Hw ltac:(lia)) as [L2 B2].
  destruct (scheduleOk_nth n w (i * 4 + 3) Hw ltac:(lia)) as [L3 B3].
  split.
  - rewrite !length_app, L0, L1, L2, L3. reflexivity.
  - repeat (apply Forall_app; split); auto.
Qed.

Lemma roundKeys_ok key Nk numRounds :
  Forall byte key -> (Nk <= 4 * (numRounds + 1))%nat ->
  let w := fold_left (expandWord Nk) (seq Nk (4 * (numRounds + 1) - Nk))
             (fold_left (copyKeyWord key) (seq 0 Nk) (repeat [0; 0; 0; 0] (4 * (numRounds + 1)))) in
  let roundKeys := map (fun i => concat (map (fun j => nth (i * 4 + j) w []) (seq 0 4)))
                       (seq 0 (numRounds + 1)) in
  length roundKeys = (numRounds + 1)%nat /\ Forall roundKeyOk roundKeys.
Proof.
  intros Hkey Hle w roundKeys. split.
  - unfold roundKeys. rewrite length_map, length_seq. reflexivity.
  - unfold roundKeys. apply Forall_map, Forall_forall. intros i Hin. apply in_seq in Hin.
    apply (roundKey_of_words (4 * (numRounds + 1))); [| lia].
    apply expanded_schedule_ok; assumption.
Qed.

Lemma keyExpansion_valid key :
  validKeyLength (length key) -> Forall byte key ->
  exists roundKeys,
    keyExpansion key = Ok roundKeys
    /\ length roundKeys = (roundsFor (length key) + 1)%nat
    /\ Forall roundKeyOk roundKeys.
Proof.
  intros Hlen Hkey. unfold keyExpansion.
  destruct Hlen as [Hlen | [Hlen | Hlen]]; rewrite Hlen;
    cbv [Nat.eqb bind NUM_ROUNDS roundsFor]; eexists; (split; [reflexivity |]).
  - exact (roundKeys_ok key 4 10 Hkey ltac:(lia)).
  - exact (roundKeys_ok key 6 12 Hkey ltac:(lia)).
  - exact (roundKeys_ok key 8 14 Hkey ltac:(lia)).
Qed.

Lemma keyExpansion_invalid key :
  ~ validKeyLength (length key) -> keyExpansion key = Throw (InvalidKeyLength (length key)).
Proof.
  intros Hlen. unfold keyExpansion, validKeyLength in *.
  destruct (Nat.eqb_spec (length key) 16); [tauto |].
  destruct (Nat.eqb_spec (length key) 24); [tauto |].
  destruct (Nat.eqb_spec (length key) 32); [tauto |].
  reflexivity.
Qed.

(** ** One block *)

Lemma roundKey_nth roundKeys i : Forall roundKeyOk roundKeys -> Forall byte (nth i roundKeys []).
Proof.
  intros H. destruct (Nat.lt_ge_cases i (length roundKeys)) as [Hlt | Hge].
  - apply (Forall_nth roundKeyOk); assumption.
  - rewrite nth_overflow by assumption. constructor.
Qed.

#[local] Hint Resolve roundKey_nth : bytes.

Lemma aesEncryptionRound_byteState s roundKey isFinalRound :
  byteState s -> Forall byte roundKey -> byteState (aesEncryptionRound s roundKey isFinalRound).
Proof.
  intros Hs Hk. unfold aesEncryptionRound. destruct isFinalRound; cbn [negb]; auto 6 with bytes.
Qed.

Lemma bytesToState_ok block :
  length block = 16%nat -> Forall byte block ->
  exists s, bytesToState block = Ok s /\ byteState s /\ stateToBytes s = block.
Proof.
  intros Hlen Hb. unfold bytesToState, BLOCK_SIZE_BYTES. rewrite Hlen. cbn [Nat.eqb negb].
  eexists. split; [reflexivity |]. split.
  - apply byteState_matrix. auto with bytes.
  - do 17 (destruct block as [| ? block]; try discriminate Hlen). reflexivity.
Qed.

Lemma bytesToState_stateToBytes s : byteState s -> bytesToState (stateToBytes s) = Ok s.
Proof. intros H. as_matrix s f Hf. reflexivity. Qed.

Lemma stateToBytes_ok s : byteState s -> length (stateToBytes s) = 16%nat /\ Forall byte (stateToBytes s).
Proof.
  intros [_ Hs]. split; [reflexivity |].
  cbv [stateToBytes four concat app]. repeat constructor; apply Hs.
Qed.

(** A middle round of decryption, applied to the state a middle round of
    encryption leaves once its rows are substituted and shifted again,
    returns the substituted and shifted state that round started from. *)
Lemma decryptionRound_encryptionRound s roundKey :
  byteState s -> Forall byte roundKey ->
  aesDecryptionRound (shiftRows (subBytes (aesEncryptionRound s roundKey false))) roundKey false
  = shiftRows (subBytes s).
Proof.
  intros Hs Hk. unfold aesDecryptionRound, aesEncryptionRound. cbn [negb].
  rewrite invShiftRows_shiftRows by auto with bytes.
  rewrite invSubBytes_subBytes by auto 6 with bytes.
  rewrite addRoundKey_involutive by auto with bytes.
  apply invMixColumns_mixColumns. auto with bytes.
Qed.

Lemma middle_rounds_inverse roundKeys rounds s :
  Forall roundKeyOk roundKeys -> byteState s ->
  fold_left (fun state round => aesDecryptionRound state (nth round roundKeys []) false)
    (rev rounds)
    (shiftRows (subBytes
       (fold_left (fun state round => aesEncryptionRound state (nth round roundKeys []) false)
          rounds s)))
  = shiftRows (subBytes s).
Proof.
  intros Hk. revert s. induction rounds as [| round rounds IH]; intros s Hs; [reflexivity |].
  cbn [fold_left rev]. rewrite fold_left_app. cbn [fold_left].
  rewrite IH by (apply aesEncryptionRound_byteState; auto with bytes).
  apply decryptionRound_encryptionRound; auto with bytes.
Qed.

Lemma middle_rounds_byteState roundKeys rounds s :
  Forall roundKeyOk roundKeys -> byteState s ->
  byteState (fold_left (fun state round => aesEncryptionRound state (nth round roundKeys []) false)
               rounds s).
Proof.
  intros Hk Hs. apply fold_left_invariant; [| exact Hs].
  intros s' i _ Hs'. apply aesEncryptionRound_byteState; auto with bytes.
Qed.

(** Encryption of a block of sixteen bytes under a valid key succeeds with
    a block of sixteen bytes, which decryption under the same key sends back. *)
Lemma aesEncryptBlock_ok block key :
  length block = 16%nat -> Forall byte block ->
  validKeyLength (length key) -> Forall byte key ->
  exists encrypted,
    aesEncryptBlock block key = Ok encrypted
    /\ length encrypted = 16%nat /\ Forall byte encrypted
    /\ aesDecryptBlock encrypted key = Ok block.
Proof.
  intros Hlen Hb Hklen Hk.
  destruct (keyExpansion_valid key Hklen Hk) as (roundKeys & Hexp & Hn & Hrk).
  destruct (bytesToState_ok block Hlen Hb) as (s & Hs & Hbs & Hback).
  unfold aesEncryptBlock, aesDecryptBlock. rewrite Hexp, Hs. cbn [bind].
  set (numRounds := (length roundKeys - 1)%nat).
  set (s0 := addRoundKey s (nth 0 roundKeys [])).
  set (mid := fold_left _ (seq 1 (numRounds - 1)) s0).
  assert (Hs0 : byteState s0) by (subst s0; auto with bytes).
  assert (Hmid : byteState mid) by (subst mid; apply middle_rounds_byteState; assumption).
  eexists. split; [reflexivity |].
  assert (Hfinal : byteState (aesEncryptionRound mid (nth numRounds roundKeys []) true))
    by (apply aesEncryptionRound_byteState; auto with bytes).
  destruct (stateToBytes_ok _ Hfinal) as [Hl Hby].
  split; [exact Hl |]. split; [exact Hby |].
  rewrite bytesToState_stateToBytes by exact Hfinal. cbn [bind].
  f_equal. rewrite <- Hback. f_equal.
  unfold aesEncryptionRound at 1. cbn [negb].
  rewrite addRoundKey_involutive by auto with bytes.
  subst mid. rewrite middle_rounds_inverse by assumption.
  unfold aesDecryptionRound. cbn [negb].
  rewrite invShiftRows_shiftRows by auto with bytes.
  rewrite invSubBytes_subBytes by assumption.
  subst s0. apply addRoundKey_involutive. assumption.
Qed.

(** ** Loops *)

Lemma forEach_map {S I J : Type} (body : S -> J -> Result S) (g : I -> J) l s :
  forEach body (map g l) s = forEach (fun s i => body s (g i)) l s.
Proof.
  revert s. induction l as [| i l IH]; intros s; [reflexivity |].
  cbn [map forEach]. destruct (body s (g i)); cbn [bind]; [apply IH | reflexivity].
Qed.

Lemma forEach_ext {S I : Type} (body body' : S -> I -> Result S) l s :
  (forall s i, In i l -> body s i = body' s i) -> forEach body l s = forEach body' l s.
Proof.
  revert s. induction l as [| i l IH]; intros s H; [reflexivity |].
  cbn [forEach]. rewrite (H s i) by (left; reflexivity).
  destruct (body' s i); cbn [bind]; [| reflexivity].
  apply IH. intros s' i' Hin. apply H. right. exact Hin.
Qed.

Lemma forEach_agree {S T I : Type} (R : S -> T -> Prop)
    (body1 : S -> I -> Result S) (body2 : T -> I -> Result T) l s t :
  (forall s t i, R s t -> agree R (body1 s i) (body2 t i)) ->
  R s t -> agree R (forEach body1 l s) (forEach body2 l t).
Proof.
  intros Hbody. revert s t. induction l as [| i l IH]; intros s t Hst; [exact Hst |].
  cbn [forEach]. specialize (Hbody s t i Hst). unfold agree in Hbody.
  destruct (body1 s i) as [s' | e1], (body2 t i) as [t' | e2]; cbn [bind];
    try contradiction.
  - apply IH, Hbody.
  - exact Hbody.
Qed.

(** If the loop completes, its body completed at every value of the counter. *)
Lemma forEach_Ok_inv {S I : Type} (body : S -> I -> Result S) l s s' :
  forEach body l s = Ok s' ->
  forall i, In i l -> exists s1 s2, body s1 i = Ok s2.
Proof.
  revert s. induction l as [| j l IH]; intros s H i Hin; [destruct Hin |].
  cbn [forEach] in H. destruct (body s j) as [s1 |] eqn:Hj; cbn [bind] in H; [| discriminate].
  destruct Hin as [-> | Hin]; [exists s, s1; exact Hj | exact (IH s1 H i Hin)].
Qed.

(** ** Slices and block starts *)

Lemma blockStarts_0 : blockStarts 0 = [].
Proof. reflexivity. Qed.

Lemma blockStarts_cons n :
  blockStarts (16 + n) = 0%nat :: map (fun i => i + 16)%nat (blockStarts n).
Proof.
  unfold blockStarts, BLOCK_SIZE_BYTES. cbn [Nat.sub].
  replace ((16 + n + 15) / 16)%nat with (Datatypes.S ((n + 15) / 16)).
  - cbn [seq map]. f_equal. rewrite <- seq_shift, !map_map.
    apply map_ext. intros k. lia.
  - replace (16 + n + 15)%nat with (1 * 16 + (n + 15))%nat by lia.
    rewrite Nat.div_add_l by lia. reflexivity.
Qed.

Lemma blockStarts_positive n : (0 < n)%nat -> exists rest, blockStarts n = 0%nat :: rest.
Proof.
  intros Hn. unfold blockStarts, BLOCK_SIZE_BYTES. cbn [Nat.sub].
  destruct ((n + 15) / 16)%nat as [| q] eqn:Hq.
  - apply Nat.div_small_iff in Hq; lia.
  - cbn [seq map]. eexists. reflexivity.
Qed.

Lemma slice_first {A : Type} (b rest : list A) :
  length b = 16%nat -> slice (b ++ rest) 0 (0 + BLOCK_SIZE_BYTES) = b.
Proof.
  intros Hb. unfold slice, BLOCK_SIZE_BYTES. cbn [Nat.add Nat.sub]. rewrite skipn_O.
  rewrite firstn_app, Hb. cbn [Nat.sub firstn]. rewrite app_nil_r.
  rewrite <- Hb. apply firstn_all.
Qed.

Lemma slice_shift {A : Type} (b rest : list A) i :
  length b = 16%nat ->
  slice (b ++ rest) (i + 16) (i + 16 + BLOCK_SIZE_BYTES) = slice rest i (i + BLOCK_SIZE_BYTES).
Proof.
  intros Hb. unfold slice, BLOCK_SIZE_BYTES.
  replace (i + 16 + 16 - (i + 16))%nat with 16%nat by lia.
  replace (i + 16 - i)%nat with 16%nat by lia.
  f_equal. rewrite skipn_app, Hb.
  replace (i + 16 - 16)%nat with i by lia.
  rewrite (skipn_all2 b) by lia. reflexivity.
Qed.

Lemma slice_length {A : Type} (l : list A) i :
  length (slice l i (i + BLOCK_SIZE_BYTES)) = Nat.min 16 (length l - i).
Proof.
  unfold slice, BLOCK_SIZE_BYTES. rewrite length_firstn, length_skipn. f_equal. lia.
Qed.

(** A list whose length is a multiple of sixteen, cut after its first block. *)
Lemma split_block {A : Type} (l : list A) n :
  length l = (16 * Datatypes.S n)%nat ->
  exists b rest, l = b ++ rest /\ length b = 16%nat /\ length rest = (16 * n)%nat.
Proof.
  intros Hl. exists (firstn 16 l), (skipn 16 l). split; [| split].
  - symmetry. apply firstn_skipn.
  - rewrite length_firstn. lia.
  - rewrite length_skipn. lia.
Qed.

(** ** xorBytes *)

Lemma nth_map_seq {A : Type} (f : nat -> A) n i d :
  (i < n)%nat -> nth i (map f (seq 0 n)) d = f i.
Proof.
  intros Hi. rewrite (nth_indep _ d (f 0%nat)) by (rewrite length_map, length_seq; exact Hi).
  rewrite map_nth, seq_nth by exact Hi. reflexivity.
Qed.

Lemma xorBytes_ok a b :
  length a = length b ->
  exists x, xorBytes a b = Ok x /\ length x = length a
            /\ (Forall byte a -> Forall byte b -> Forall byte x)
            /\ xorBytes x b = Ok a.
Proof.
  intros Hlen. unfold xorBytes at 1.
  destruct (Nat.eqb_spec (length a) (length b)) as [_ | Hne]; [| contradiction]. cbn [negb].
  eexists. split; [reflexivity |].
  assert (Hl : length (map (fun i => nth i a 0 .^ nth i b 0) (seq 0 (length a))) = length a)
    by (rewrite length_map, length_seq; reflexivity).
  split; [exact Hl |]. split.
  - intros Ha Hb. apply Forall_map, Forall_forall. intros i _. auto with bytes.
  - unfold xorBytes. rewrite Hl.
    destruct (Nat.eqb_spec (length a) (length b)) as [_ | Hne]; [| contradiction]. cbn [negb].
    f_equal. apply (nth_ext _ _ 0 0); [rewrite length_map, length_seq; reflexivity |].
    intros i Hi. rewrite length_map, length_seq in Hi.
    rewrite nth_map_seq by exact Hi. rewrite nth_map_seq by exact Hi.
    apply lxor_cancel_r.
Qed.

Lemma xorBytes_Ok_length a b x : xorBytes a b = Ok x -> length a = length b /\ length x = length a.
Proof.
  unfold xorBytes. destruct (Nat.eqb_spec (length a) (length b)) as [Heq | Hne]; cbn [negb];
    [| discriminate].
  intros H. injection H as <-. split; [exact Heq |].
  rewrite length_map, length_seq. reflexivity.
Qed.

(** ** Padding *)

Lemma padPKCS7_shape data :
  let n := (16 - length data mod 16)%nat in
  padPKCS7 data 16 = data ++ repeat (Z.of_nat n) n /\ (1 <= n <= 16)%nat.
Proof.
  cbv zeta. split; [reflexivity |].
  pose proof (Nat.mod_upper_bound (length data) 16 ltac:(lia)). lia.
Qed.

Lemma padPKCS7_length data :
  length (padPKCS7 data 16) = (16 * Datatypes.S (length data / 16))%nat.
Proof.
  unfold padPKCS7. rewrite length_app, repeat_length.
  pose proof (Nat.div_mod_eq (length data) 16).
  pose proof (Nat.mod_upper_bound (length data) 16 ltac:(lia)). lia.
Qed.

Lemma padPKCS7_bytes data : Forall byte data -> Forall byte (padPKCS7 data 16).
Proof.
  intros H. destruct (padPKCS7_shape data) as [-> Hn]. apply Forall_app. split; [exact H |].
  apply Forall_forall. intros x Hx. apply repeat_spec in Hx. subst x. unfold byte. lia.
Qed.

Lemma checkPadding_spec data n l :
  (forEach (checkPadding data n) l tt = Ok tt /\ forall i, In i l -> nth i data 0 = n)
  \/ (exists i, In i l /\ nth i data 0 <> n
                /\ forEach (checkPadding data n) l tt = Throw (InvalidPaddingByte n (nth i data 0) i)).
Proof.
  induction l as [| j l IH].
  - left. split; [reflexivity | intros i []].
  - cbn [forEach]. unfold checkPadding at 1 3.
    destruct (Z.eqb_spec (nth j data 0) n) as [Heq | Hne]; cbn [negb bind].
    + destruct IH as [[Hok Hall] | (i & Hin & Hne & Hthrow)].
      * left. split; [exact Hok |]. intros i [<- | Hin]; [exact Heq | apply Hall, Hin].
      * right. exists i. split; [right; exact Hin |]. split; [exact Hne | exact Hthrow].
    + right. exists j. split; [left; reflexivity |]. split; [exact Hne | reflexivity].
Qed.

Lemma unpadPKCS7_unfold data :
  unpadPKCS7 data =
  if (length data =? 0)%nat then Throw EmptyInput
  else
    let n := nth (length data - 1) data 0 in
    if (n <=? 0) || (n >? 16) || (n >? Z.of_nat (length data))
    then Throw (InvalidPaddingLength n)
    else
      let* _ := forEach (checkPadding data n) (seq (length data - Z.to_nat n) (Z.to_nat n)) tt in
      Ok (firstn (length data - Z.to_nat n) data).
Proof.
  unfold unpadPKCS7, slice. rewrite skipn_O, Nat.sub_0_r. reflexivity.
Qed.

Lemma unpadPKCS7_padPKCS7 data : unpadPKCS7 (padPKCS7 data 16) = Ok data.
Proof.
  rewrite unpadPKCS7_unfold.
  destruct (padPKCS7_shape data) as [Hpad Hn]. rewrite Hpad.
  set (n := (16 - length data mod 16)%nat) in *.
  assert (Hlen : length (data ++ repeat (Z.of_nat n) n) = (length data + n)%nat)
    by (rewrite length_app, repeat_length; reflexivity).
  rewrite Hlen.
  assert (Hnth : forall i, (length data <= i < length data + n)%nat ->
                           nth i (data ++ repeat (Z.of_nat n) n) 0 = Z.of_nat n).
  { intros i Hi. rewrite app_nth2 by lia. apply nth_repeat_lt. lia. }
  destruct (Nat.eqb_spec (length data + n) 0) as [H0 | _]; [lia |]. cbv zeta.
  rewrite Hnth by lia.
  destruct (Z.leb_spec (Z.of_nat n) 0); [lia |].
  destruct (Z.gtb_spec (Z.of_nat n) 16); [lia |].
  destruct (Z.gtb_spec (Z.of_nat n) (Z.of_nat (length data + n))); [lia |].
  cbn [orb]. rewrite Nat2Z.id.
  replace (length data + n - n)%nat with (length data) by lia.
  destruct (checkPadding_spec (data ++ repeat (Z.of_nat n) n) (Z.of_nat n) (seq (length data) n))
    as [[Hok _] | (i & Hin & Hne & _)].
  - rewrite Hok. cbn [bind]. f_equal.
    rewrite firstn_app, Nat.sub_diag, firstn_all. cbn [firstn]. apply app_nil_r.
  - apply in_seq in Hin. exfalso. apply Hne, Hnth. lia.
Qed.

(** ** Chaining *)

Lemma bytesToState_Ok_length bytes s : bytesToState bytes = Ok s -> length bytes = 16%nat.
Proof.
  unfold bytesToState, BLOCK_SIZE_BYTES.
  destruct (Nat.eqb_spec (length bytes) 16) as [Heq | Hne]; cbn [negb]; [| discriminate].
  intros _. exact Heq.
Qed.

Lemma aesEncryptBlock_Ok_length block key encrypted :
  aesEncryptBlock block key = Ok encrypted -> length block = 16%nat /\ length encrypted = 16%nat.
Proof.
  unfold aesEncryptBlock. destruct (keyExpansion key) as [roundKeys |]; cbn [bind]; [| discriminate].
  destruct (bytesToState block) as [s |] eqn:Hs; cbn [bind]; [| discriminate].
  intros H. injection H as <-. split; [exact (bytesToState_Ok_length _ _ Hs) | reflexivity].
Qed.

Lemma aesDecryptBlock_Ok_length block key decrypted :
  aesDecryptBlock block key = Ok decrypted -> length block = 16%nat /\ length decrypted = 16%nat.
Proof.
  unfold aesDecryptBlock. destruct (keyExpansion key) as [roundKeys |]; cbn [bind]; [| discriminate].
  destruct (bytesToState block) as [s |] eqn:Hs; cbn [bind]; [| discriminate].
  intros H. injection H as <-. split; [exact (bytesToState_Ok_length _ _ Hs) | reflexivity].
Qed.

Lemma encryptCBCLoop_shift b rest key vars i :
  length b = 16%nat ->
  encryptCBCLoop (b ++ rest) key vars (i + 16) = encryptCBCLoop rest key vars i.
Proof.
  intros Hb. destruct vars as [ciphertext previousBlock]. unfold encryptCBCLoop.
  rewrite slice_shift by exact Hb. reflexivity.
Qed.

Lemma decryptCBCLoop_shift b rest key vars i :
  length b = 16%nat ->
  decryptCBCLoop (b ++ rest) key vars (i + 16) = decryptCBCLoop rest key vars i.
Proof.
  intros Hb. destruct vars as [plaintext previousBlock]. unfold decryptCBCLoop.
  rewrite slice_shift by exact Hb. reflexivity.
Qed.

(** The encryption loop over [n] blocks of bytes completes, appending [n]
    blocks of bytes to the ciphertext; the decryption loop over those blocks,
    started from the same previous block, appends the plaintext blocks. *)
Lemma cbc_blocks_roundtrip key :
  validKeyLength (length key) -> Forall byte key ->
  forall n padded previousBlock ciphertext plaintext,
    length padded = (16 * n)%nat -> Forall byte padded ->
    length previousBlock = 16%nat -> Forall byte previousBlock ->
    exists blocks last last',
      forEach (encryptCBCLoop padded key) (blockStarts (length padded)) (ciphertext, previousBlock)
      = Ok (ciphertext ++ blocks, last)
      /\ length blocks = (16 * n)%nat /\ Forall byte blocks
      /\ forEach (decryptCBCLoop blocks key) (blockStarts (length blocks)) (plaintext, previousBlock)
         = Ok (plaintext ++ padded, last').
Proof.
  intros Hklen Hkey. induction n as [| n IH];
    intros padded previousBlock ciphertext plaintext Hlen Hbytes Hplen Hpbytes.
  - destruct padded; [| discriminate Hlen].
    exists [], previousBlock, previousBlock. cbn [length]. rewrite blockStarts_0.
    cbn [forEach]. rewrite !app_nil_r. repeat split. constructor.
  - destruct (split_block padded n Hlen) as (b & rest & -> & Hb & Hrest).
    apply Forall_app in Hbytes. destruct Hbytes as [Hbb Hrb].
    destruct (xorBytes_ok b previousBlock ltac:(congruence)) as (x & Hx & Hxl & Hxb & Hxc).
    destruct (aesEncryptBlock_ok x key ltac:(congruence) (Hxb Hbb Hpbytes) Hklen Hkey)
      as (e & He & Hel & Heb & Hd).
    destruct (IH rest e (ciphertext ++ e) (plaintext ++ b) Hrest Hrb Hel Heb)
      as (blocks & last & last' & Henc & Hbl & Hbb' & Hdec).
    exists (e ++ blocks), last, last'.
    rewrite !length_app, Hb, Hel, Hbl, !blockStarts_cons. cbn [forEach].
    split; [| split; [lia | split; [apply Forall_app; split; assumption |]]].
    + unfold encryptCBCLoop at 1. rewrite slice_first by exact Hb.
      rewrite Hx. cbn [bind]. rewrite He. cbn [bind].
      rewrite forEach_map.
      rewrite (forEach_ext _ (encryptCBCLoop rest key))
        by (intros vars i _; apply encryptCBCLoop_shift, Hb).
      rewrite Henc, app_assoc. reflexivity.
    + unfold decryptCBCLoop at 1. rewrite slice_first by exact Hel.
      rewrite Hd. cbn [bind]. rewrite Hxc. cbn [bind].
      rewrite forEach_map.
      rewrite (forEach_ext _ (decryptCBCLoop blocks key))
        by (intros vars i _; apply decryptCBCLoop_shift, Hel).
      rewrite <- Hbl, Hdec, app_assoc. reflexivity.
Qed.

(** ** Sample inputs *)

Lemma fipsKey_bytes : Forall byte fipsKey.
Proof. apply Forall_byte_check. reflexivity. Qed.

Lemma fipsBlock_bytes : Forall byte fipsBlock.
Proof. apply Forall_byte_check. reflexivity. Qed.

Lemma zeroBlock_bytes : Forall byte zeroBlock.
Proof. apply Forall_byte_check. reflexivity. Qed.

(** The vectors of FIPS-197, appendices C.2 and C.3, for keys of 24 and 32
    bytes. *)
Example fips197_vector_192 :
  aesEncryptBlock fipsBlock (map Z.of_nat (seq 0 24))
  = Ok [0xdd; 0xa9; 0x7c; 0xa4; 0x86; 0x4c; 0xdf; 0xe0; 0x6e; 0xaf; 0x70; 0xa0; 0xec; 0x0d; 0x71; 0x91].
Proof. vm_compute. reflexivity. Qed.

Example fips197_vector_256 :
  aesEncryptBlock fipsBlock (map Z.of_nat (seq 0 32))
  = Ok [0x8e; 0xa2; 0xb7; 0xca; 0x51; 0x67; 0x45; 0xbf; 0xea; 0xfc; 0x49; 0x90; 0x4b; 0x49; 0x60; 0x89].
Proof. vm_compute. reflexivity. Qed.

(** * The claims *)

(** C1. For every block of sixteen bytes and every key of 16, 24 or 32
    bytes, [aesEncryptBlock] returns a block that [aesDecryptBlock] under the
    same key sends back to the original block. *)
Theorem aesDecryptBlock_aesEncryptBlock (block key : list Z) :
  length block = 16%nat -> Forall byte block ->
  validKeyLength (length key) -> Forall byte key ->
  exists encrypted,
    aesEncryptBlock block key = Ok encrypted /\ aesDecryptBlock encrypted key = Ok block.
Proof.
  intros Hlen Hb Hklen Hk.
  destruct (aesEncryptBlock_ok block key Hlen Hb Hklen Hk) as (e & He & _ & _ & Hd).
  exists e. split; assumption.
Qed.

Lemma aesDecryptBlock_aesEncryptBlock_witness :
  (length fipsBlock = 16%nat /\ Forall byte fipsBlock
   /\ validKeyLength (length fipsKey) /\ Forall byte fipsKey)
  /\ exists encrypted,
       aesEncryptBlock fipsBlock fipsKey = Ok encrypted
       /\ aesDecryptBlock encrypted fipsKey = Ok fipsBlock.
Proof.
  assert (Hk : validKeyLength (length fipsKey)) by (left; reflexivity).
  split; [repeat split; [exact fipsBlock_bytes | exact Hk | exact fipsKey_bytes] |].
  exact (aesDecryptBlock_aesEncryptBlock fipsBlock fipsKey eq_refl fipsBlock_bytes Hk
           fipsKey_bytes).
Defined.

(** C2. For every key of 16, 24 or 32 bytes, every IV of sixteen bytes and
    every message of bytes, of any length, [encryptCBC] returns a ciphertext
    that [decryptCBC] under the same key and IV sends back to the message. *)
Theorem decryptCBC_encryptCBC (generateRandomBytes : RandomSource) (m key iv : list Z) :
  validKeyLength (length key) -> Forall byte key ->
  length iv = 16%nat -> Forall byte iv -> Forall byte m ->
  exists r,
    encryptCBC generateRandomBytes m key (Some iv) = Ok r
    /\ enc_iv r = iv
    /\ decryptCBC (enc_ciphertext r) key iv = Ok m.
Proof.
  intros Hklen Hkey Hivlen Hiv Hm.
  destruct (cbc_blocks_roundtrip key Hklen Hkey (Datatypes.S (length m / 16))
              (padPKCS7 m 16) iv [] [] (padPKCS7_length m) (padPKCS7_bytes m Hm) Hivlen Hiv)
    as (blocks & last & last' & Henc & Hbl & Hbb & Hdec).
  exists {| enc_iv := iv; enc_ciphertext := blocks |}. split; [| split; [reflexivity |]].
  - unfold encryptCBC, BLOCK_SIZE_BYTES. rewrite Hivlen. cbn [Nat.eqb negb].
    rewrite Henc. reflexivity.
  - cbn [enc_ciphertext]. unfold decryptCBC, BLOCK_SIZE_BYTES. rewrite Hivlen. cbn [Nat.eqb negb].
    replace (length blocks mod 16)%nat with 0%nat
      by (rewrite Hbl, Nat.mul_comm, Nat.Div0.mod_mul; reflexivity).
    cbn [Nat.eqb negb]. rewrite Hdec. cbn [bind app].
    rewrite unpadPKCS7_padPKCS7. reflexivity.
Qed.

Lemma decryptCBC_encryptCBC_witness :
  (validKeyLength (length fipsKey) /\ Forall byte fipsKey
   /\ length zeroBlock = 16%nat /\ Forall byte zeroBlock
   /\ Forall byte [72; 69; 76; 76; 79])
  /\ exists r,
       encryptCBC zeroSource [72; 69; 76; 76; 79] fipsKey (Some zeroBlock) = Ok r
       /\ enc_iv r = zeroBlock
       /\ decryptCBC (enc_ciphertext r) fipsKey zeroBlock = Ok [72; 69; 76; 76; 79].
Proof.
  assert (Hk : validKeyLength (length fipsKey)) by (left; reflexivity).
  assert (Hm : Forall byte [72; 69; 76; 76; 79]) by (apply Forall_byte_check; reflexivity).
  split; [repeat split; [exact Hk | exact fipsKey_bytes | exact zeroBlock_bytes | exact Hm] |].
  exact (decryptCBC_encryptCBC zeroSource [72; 69; 76; 76; 79] fipsKey zeroBlock Hk
           fipsKey_bytes eq_refl zeroBlock_bytes Hm).
Defined.

(** C3. The FIPS-197 vector: the block 00112233445566778899aabbccddeeff under
    the key 000102030405060708090a0b0c0d0e0f encrypts to
    69c4e0d86a7b0430d8cdb78070b4c55a. *)
Theorem aesEncryptBlock_fips197 : aesEncryptBlock fipsBlock fipsKey = Ok fipsCipher.
Proof. vm_compute. reflexivity. Qed.

(** C4. [keyExpansion] throws the invalid-key-length error on every key whose
    length is not 16, 24 or 32; on a key of 16, 24 or 32 bytes it returns
    11, 13 or 15 round keys respectively, each of sixteen bytes. *)
Theorem keyExpansion_contract (key : list Z) :
  (~ validKeyLength (length key) ->
   keyExpansion key = Throw (InvalidKeyLength (length key))
   /\ kind (InvalidKeyLength (length key)) = KInvalidKeyLength)
  /\ (length key = 16%nat -> Forall byte key ->
      exists roundKeys, keyExpansion key = Ok roundKeys
                        /\ length roundKeys = 11%nat /\ Forall roundKeyOk roundKeys)
  /\ (length key = 24%nat -> Forall byte key ->
      exists roundKeys, keyExpansion key = Ok roundKeys
                        /\ length roundKeys = 13%nat /\ Forall roundKeyOk roundKeys)
  /\ (length key = 32%nat -> Forall byte key ->
      exists roundKeys, keyExpansion key = Ok roundKeys
                        /\ length roundKeys = 15%nat /\ Forall roundKeyOk roundKeys).
Proof.
  split; [| split; [| split]].
  - intros Hlen. split; [apply keyExpansion_invalid, Hlen | reflexivity].
  - intros Hn Hkey.
    destruct (keyExpansion_valid key (or_introl Hn) Hkey) as (roundKeys & Hexp & Hlen & Hok).
    exists roundKeys. rewrite Hn in Hlen. auto.
  - intros Hn Hkey.
    destruct (keyExpansion_valid key (or_intror (or_introl Hn)) Hkey)
      as (roundKeys & Hexp & Hlen & Hok).
    exists roundKeys. rewrite Hn in Hlen. auto.
  - intros Hn Hkey.
    destruct (keyExpansion_valid key (or_intror (or_intror Hn)) Hkey)
      as (roundKeys & Hexp & Hlen & Hok).
    exists roundKeys. rewrite Hn in Hlen. auto.
Qed.

Lemma keyExpansion_contract_witness :
  Forall byte fipsKey
  /\ exists roundKeys,
       keyExpansion fipsKey = Ok roundKeys
       /\ length roundKeys = 11%nat /\ Forall roundKeyOk roundKeys.
Proof.
  split; [exact fipsKey_bytes |].
  exact (proj1 (proj2 (keyExpansion_contract fipsKey)) eq_refl fipsKey_bytes).
Defined.

(** C5. [padPKCS7(data, 16)] is [data] followed by [n = 16 - |data| mod 16]
    bytes of value [n], with [n] between 1 and 16; when [|data|] is a
    multiple of 16, the empty message included, that is sixteen bytes of
    value 16. *)
Theorem padPKCS7_appends (data : list Z) :
  exists n : nat,
    n = (16 - length data mod 16)%nat
    /\ (1 <= n <= 16)%nat
    /\ padPKCS7 data 16 = data ++ repeat (Z.of_nat n) n
    /\ ((length data mod 16)%nat = 0%nat -> padPKCS7 data 16 = data ++ repeat 16 16).
Proof.
  destruct (padPKCS7_shape data) as [Hpad Hn].
  exists (16 - length data mod 16)%nat. split; [reflexivity |]. split; [exact Hn |].
  split; [exact Hpad |]. intros H0. rewrite Hpad, H0. reflexivity.
Qed.

(** C6. [unpadPKCS7] throws the empty-input error exactly on the empty
    input; on a non-empty input of bytes it throws an invalid-padding error
    exactly when the last byte [n] is 0, exceeds 16, exceeds the length, or
    differs from one of the last [n] bytes; otherwise it returns the input
    without its last [n] bytes.  Unpadding a padded message returns the
    message. *)
Theorem unpadPKCS7_contract (data : list Z) :
  Forall byte data ->
  (unpadPKCS7 data = Throw EmptyInput <-> data = [])
  /\ (data <> [] ->
      ((exists e, unpadPKCS7 data = Throw e /\ kind e = KInvalidPadding) <-> paddingRejected data)
      /\ (~ paddingRejected data ->
          unpadPKCS7 data
          = Ok (firstn (length data - Z.to_nat (nth (length data - 1) data 0)) data)))
  /\ unpadPKCS7 (padPKCS7 data 16) = Ok data.
Proof.
  intros Hbytes. split; [| split; [| apply unpadPKCS7_padPKCS7]].
  - split.
    + intros H. destruct data as [| x data]; [reflexivity | exfalso].
      rewrite unpadPKCS7_unfold in H. cbn [length Nat.eqb] in H. cbv zeta in H.
      destruct (_ || _ || _) in H; [discriminate |].
      match type of H with
      | context [forEach (checkPadding ?d ?n) ?l tt] =>
          destruct (checkPadding_spec d n l) as [[Hok _] | (i & _ & _ & Hthrow)];
          [rewrite Hok in H | rewrite Hthrow in H]; discriminate H
      end.
    + intros ->. reflexivity.
  - intros Hne.
    assert (Hlen : (length data <> 0)%nat) by (destruct data; [congruence | discriminate]).
    rewrite unpadPKCS7_unfold. unfold paddingRejected.
    destruct (Nat.eqb_spec (length data) 0) as [H0 | _]; [contradiction |]. cbv zeta.
    set (n := nth (length data - 1) data 0).
    assert (Hn : byte n) by (apply nth_byte, Hbytes). unfold byte in Hn.
    destruct (Z.leb_spec n 0) as [Hle | Hpos]; cbn [orb].
    { split.
      - split; [intros _; left; lia | intros _; eexists; split; reflexivity].
      - intros Hnot. exfalso. apply Hnot. left. lia. }
    destruct (Z.gtb_spec n 16) as [Hgt | Hle16]; cbn [orb].
    { split.
      - split; [intros _; right; left; lia | intros _; eexists; split; reflexivity].
      - intros Hnot. exfalso. apply Hnot. right. left. lia. }
    destruct (Z.gtb_spec n (Z.of_nat (length data))) as [Hgt | Hlelen].
    { split.
      - split; [intros _; right; right; left; lia | intros _; eexists; split; reflexivity].
      - intros Hnot. exfalso. apply Hnot. right. right. left. lia. }
    destruct (checkPadding_spec data n (seq (length data - Z.to_nat n) (Z.to_nat n)))
      as [[Hok Hall] | (i & Hin & Hdiff & Hthrow)].
    + rewrite Hok. cbn [bind].
      assert (Hnot : ~ (n = 0 \/ n > 16 \/ n > Z.of_nat (length data)
                        \/ exists i, (length data - Z.to_nat n <= i < length data)%nat
                                     /\ nth i data 0 <> n)).
      { intros [H | [H | [H | (i & Hi & Hdiff)]]]; try lia.
        apply Hdiff, Hall, in_seq. lia. }
      split; [| intros _; reflexivity].
      split; [intros (e & He & _); discriminate He | intros H; contradiction].
    + rewrite Hthrow. cbn [bind]. apply in_seq in Hin.
      assert (Hrej : exists i, (length data - Z.to_nat n <= i < length data)%nat
                               /\ nth i data 0 <> n)
        by (exists i; split; [lia | exact Hdiff]).
      split.
      * split; [intros _; right; right; right; exact Hrej
               | intros _; eexists; split; reflexivity].
      * intros Hnot. exfalso. apply Hnot. right. right. right. exact Hrej.
Qed.

Lemma unpadPKCS7_contract_witness :
  Forall byte [72; 69; 3; 3; 3]
  /\ (unpadPKCS7 [72; 69; 3; 3; 3] = Throw EmptyInput <-> [72; 69; 3; 3; 3] = [])
  /\ unpadPKCS7 (padPKCS7 [72; 69; 3; 3; 3] 16) = Ok [72; 69; 3; 3; 3].
Proof.
  assert (H : Forall byte [72; 69; 3; 3; 3]) by (apply Forall_byte_check; reflexivity).
  split; [exact H |].
  split; [exact (proj1 (unpadPKCS7_contract _ H))
         | exact (proj2 (proj2 (unpadPKCS7_contract _ H)))].
Defined.

(** ** The step-recording variants *)

Lemma forEach_Throw_inv {S I : Type} (body : S -> I -> Result S) l s e :
  forEach body l s = Throw e -> exists s1 i, In i l /\ body s1 i = Throw e.
Proof.
  revert s. induction l as [| j l IH]; intros s H; [discriminate H |].
  cbn [forEach] in H. destruct (body s j) as [s1 | e1] eqn:Hj; cbn [bind] in H.
  - destruct (IH s1 H) as (s2 & i & Hin & Hi). exists s2, i. split; [right; exact Hin | exact Hi].
  - injection H as ->. exists s, j. split; [left; reflexivity | exact Hj].
Qed.

Lemma encrypt_loops_agree padded key starts vars vars' :
  sameVars vars vars' ->
  agree sameVars (forEach (encryptCBCLoop padded key) starts vars)
                 (forEach (encryptCBCWithStepsLoop padded key) starts vars').
Proof.
  apply forEach_agree. clear vars vars'.
  intros [ciphertext previousBlock] [[blocks ciphertext'] previousBlock'] i [H1 H2].
  cbn [fst snd] in H1, H2. subst ciphertext' previousBlock'.
  unfold encryptCBCLoop, encryptCBCWithStepsLoop.
  destruct (xorBytes _ previousBlock) as [x |]; cbn [bind agree]; [| reflexivity].
  destruct (aesEncryptBlock x key) as [e |]; cbn [bind agree]; [| reflexivity].
  split; reflexivity.
Qed.

Lemma decrypt_loops_agree ciphertext key starts vars vars' :
  sameVars vars vars' ->
  agree sameVars (forEach (decryptCBCLoop ciphertext key) starts vars)
                 (forEach (decryptCBCWithStepsLoop ciphertext key) starts vars').
Proof.
  apply forEach_agree. clear vars vars'.
  intros [plaintext previousBlock] [[blocks plaintext'] previousBlock'] i [H1 H2].
  cbn [fst snd] in H1, H2. subst plaintext' previousBlock'.
  unfold decryptCBCLoop, decryptCBCWithStepsLoop.
  destruct (aesDecryptBlock _ key) as [d |]; cbn [bind agree]; [| reflexivity].
  destruct (xorBytes d previousBlock) as [x |]; cbn [bind agree]; [| reflexivity].
  split; reflexivity.
Qed.

(** When every block the loop reads is whole, the length is a multiple of
    the block size. *)
Lemma whole_blocks {A : Type} (l : list A) :
  (forall i, In i (blockStarts (length l)) -> length (slice l i (i + BLOCK_SIZE_BYTES)) = 16%nat) ->
  (length l mod 16 = 0)%nat.
Proof.
  intros H. destruct (Nat.eq_dec (length l mod 16) 0) as [H0 | Hne]; [exact H0 | exfalso].
  pose proof (Nat.div_mod_eq (length l) 16) as Hdm.
  pose proof (Nat.mod_upper_bound (length l) 16 ltac:(lia)) as Hub.
  assert (Hin : In (length l / 16 * 16)%nat (blockStarts (length l))).
  { unfold blockStarts, BLOCK_SIZE_BYTES. apply in_map_iff. exists (length l / 16)%nat.
    split; [reflexivity |]. apply in_seq. cbn [Nat.sub]. split; [lia |].
    assert (length l / 16 + 1 <= (length l + 15) / 16)%nat
      by (apply Nat.div_le_lower_bound; lia).
    lia. }
  specialize (H _ Hin). rewrite slice_length in H. lia.
Qed.

Lemma decryptCBCLoop_Ok_inv ciphertext key vars i vars' :
  decryptCBCLoop ciphertext key vars i = Ok vars' ->
  length (slice ciphertext i (i + BLOCK_SIZE_BYTES)) = 16%nat /\ length (snd vars) = 16%nat.
Proof.
  destruct vars as [plaintext previousBlock]. unfold decryptCBCLoop.
  destruct (aesDecryptBlock _ key) as [d |] eqn:Hd; cbn [bind]; [| discriminate].
  destruct (xorBytes d previousBlock) as [x |] eqn:Hx; cbn [bind]; [| discriminate].
  intros _. apply aesDecryptBlock_Ok_length in Hd. apply xorBytes_Ok_length in Hx.
  cbn [snd]. split; [tauto | lia].
Qed.

(** What the loop of [decryptCBC] needs in order to complete with a
    non-empty plaintext. *)
Lemma decrypt_loop_Ok_inv ciphertext key iv padded last :
  forEach (decryptCBCLoop ciphertext key) (blockStarts (length ciphertext)) ([], iv)
  = Ok (padded, last) ->
  padded <> [] ->
  length iv = 16%nat /\ (length ciphertext mod 16 = 0)%nat.
Proof.
  intros Hloop Hne. split.
  - destruct (Nat.eq_dec (length ciphertext) 0) as [H0 | Hpos].
    + rewrite H0, blockStarts_0 in Hloop. cbn [forEach] in Hloop. congruence.
    + destruct (blockStarts_positive (length ciphertext) ltac:(lia)) as (rest & Hstarts).
      rewrite Hstarts in Hloop. cbn [forEach] in Hloop.
      destruct (decryptCBCLoop ciphertext key ([], iv) 0) as [vars |] eqn:H0;
        cbn [bind] in Hloop; [| discriminate].
      apply decryptCBCLoop_Ok_inv in H0. cbn [snd] in H0. tauto.
  - apply whole_blocks. intros i Hin.
    destruct (forEach_Ok_inv _ _ _ _ Hloop i Hin) as (s1 & s2 & Hbody).
    apply decryptCBCLoop_Ok_inv in Hbody. tauto.
Qed.

Lemma unpadPKCS7_nil : unpadPKCS7 [] = Throw EmptyInput.
Proof. reflexivity. Qed.

Lemma keyExpansion_Throw key e :
  keyExpansion key = Throw e -> e = InvalidKeyLength (length key).
Proof.
  unfold keyExpansion.
  destruct (length key =? 16)%nat; [cbn [bind]; discriminate |].
  destruct (length key =? 24)%nat; [cbn [bind]; discriminate |].
  destruct (length key =? 32)%nat; [cbn [bind]; discriminate |].
  cbn [bind]. intros H. injection H as <-. reflexivity.
Qed.

Lemma aesDecryptBlock_Throw block key e :
  aesDecryptBlock block key = Throw e ->
  e = InvalidKeyLength (length key) \/ e = InvalidBlockSize (length block).
Proof.
  unfold aesDecryptBlock. destruct (keyExpansion key) as [roundKeys | e'] eqn:Hk; cbn [bind].
  - unfold bytesToState. destruct (negb _); cbn [bind]; intros H; [| discriminate H].
    injection H as <-. right. reflexivity.
  - intros H. injection H as <-. left. exact (keyExpansion_Throw key e' Hk).
Qed.

Lemma decryptCBC_not_wrapped ciphertext key iv e :
  decryptCBC ciphertext key iv = Throw e -> forall cause, e <> DecryptionFailed cause.
Proof.
  unfold decryptCBC. intros H cause ->.
  destruct (negb _) in H; [discriminate H |].
  destruct (negb _) in H; [discriminate H |].
  destruct (forEach _ _ _) as [[padded last] | e] eqn:Hloop; cbn [bind] in H.
  - destruct (unpadPKCS7 padded); discriminate H.
  - injection H as ->. apply forEach_Throw_inv in Hloop.
    destruct Hloop as ([plaintext previousBlock] & i & _ & Hbody).
    unfold decryptCBCLoop in Hbody.
    destruct (aesDecryptBlock _ key) as [d |] eqn:Hd; cbn [bind] in Hbody.
    + unfold xorBytes in Hbody. destruct (negb _) in Hbody; discriminate Hbody.
    + injection Hbody as ->. apply aesDecryptBlock_Throw in Hd. destruct Hd; discriminate.
Qed.

(** C7, as stated, fails: an empty ciphertext with a sixteen-byte IV passes
    the length check ([0 % 16 === 0]); the error is the one of the padding
    step, not the invalid-ciphertext-length error. *)
Lemma decryptCBC_empty_ciphertext :
  decryptCBC [] fipsKey zeroBlock = Throw DecryptionFailedInvalidPadding
  /\ kind DecryptionFailedInvalidPadding <> KInvalidCiphertextLength.
Proof. split; [reflexivity | discriminate]. Qed.

(** C7, amended. [decryptCBC] throws the invalid-IV-length error whenever
    the IV is not sixteen bytes long and, the IV being sixteen bytes long,
    the invalid-ciphertext-length error whenever the ciphertext length is
    not a multiple of 16; both whatever the key and the ciphertext bytes,
    so before any block is decrypted.  An empty ciphertext passes both
    checks and fails in the padding step, with the generic error. *)
Theorem decryptCBC_validation (ciphertext key iv : list Z) :
  (length iv <> 16%nat ->
   decryptCBC ciphertext key iv = Throw (InvalidIVLength (length iv)))
  /\ (length iv = 16%nat -> (length ciphertext mod 16)%nat <> 0%nat ->
      decryptCBC ciphertext key iv = Throw (InvalidCiphertextLength (length ciphertext)))
  /\ (length iv = 16%nat -> ciphertext = [] ->
      decryptCBC ciphertext key iv = Throw DecryptionFailedInvalidPadding).
Proof.
  unfold decryptCBC, BLOCK_SIZE_BYTES. split; [| split].
  - intros Hiv. destruct (Nat.eqb_spec (length iv) 16); [contradiction | reflexivity].
  - intros Hiv Hct. rewrite Hiv. cbn [Nat.eqb negb].
    destruct (Nat.eqb_spec (length ciphertext mod 16) 0); [contradiction | reflexivity].
  - intros Hiv ->. rewrite Hiv. reflexivity.
Qed.

(** C8, as stated, fails for [decryptCBCWithSteps]: a padding length of 0
    and a mismatched padding byte surface as two different errors, each
    naming the check that failed. *)
Lemma decryptCBCWithSteps_padding_errors_differ :
  decryptCBCWithSteps zeroPaddingCipher fipsKey zeroBlock
  = Throw (DecryptionFailed (InvalidPaddingLength 0))
  /\ decryptCBCWithSteps mismatchedPaddingCipher fipsKey zeroBlock
     = Throw (DecryptionFailed (InvalidPaddingByte 2 7 14))
  /\ message (DecryptionFailed (InvalidPaddingLength 0))
     = "Decryption failed: Invalid padding length: 0. This may be due to incorrect key, IV, or corrupted ciphertext."%string
  /\ message (DecryptionFailed (InvalidPaddingByte 2 7 14))
     = "Decryption failed: Invalid padding: expected 2 but found 7 at position 14. This may be due to incorrect key, IV, or corrupted ciphertext."%string.
Proof. repeat split; vm_compute; reflexivity. Qed.

(** C8, amended. When the blocks decrypt and the padding validation of the
    result fails, with whatever error [e], [decryptCBC] throws one fixed
    error, and [decryptCBCWithSteps] throws the error that wraps [e] and
    carries its message. *)
Theorem padding_failure_surfaced (ciphertext key iv padded last : list Z) (e : Error) :
  length iv = 16%nat -> (length ciphertext mod 16)%nat = 0%nat ->
  forEach (decryptCBCLoop ciphertext key) (blockStarts (length ciphertext)) ([], iv)
  = Ok (padded, last) ->
  unpadPKCS7 padded = Throw e ->
  decryptCBC ciphertext key iv = Throw DecryptionFailedInvalidPadding
  /\ decryptCBCWithSteps ciphertext key iv = Throw (DecryptionFailed e).
Proof.
  intros Hiv Hct Hloop Hunpad. split.
  - unfold decryptCBC, BLOCK_SIZE_BYTES. rewrite Hiv, Hct. cbn [Nat.eqb negb].
    rewrite Hloop. cbn [bind]. rewrite Hunpad. reflexivity.
  - unfold decryptCBCWithSteps.
    pose proof (decrypt_loops_agree ciphertext key (blockStarts (length ciphertext))
                  ([], iv) (@nil DecryptBlockStep, [], iv) (conj eq_refl eq_refl)) as Hagree.
    rewrite Hloop in Hagree. unfold agree in Hagree.
    destruct (forEach (decryptCBCWithStepsLoop ciphertext key) _ _)
      as [[[blocks padded'] last'] |]; [| contradiction].
    destruct Hagree as [Hp _]. cbn [fst snd] in Hp. subst padded'.
    cbn [bind]. rewrite Hunpad. reflexivity.
Qed.

Lemma padding_failure_surfaced_witness :
  (length zeroBlock = 16%nat /\ (length zeroPaddingCipher mod 16)%nat = 0%nat
   /\ forEach (decryptCBCLoop zeroPaddingCipher fipsKey)
        (blockStarts (length zeroPaddingCipher)) ([], zeroBlock)
      = Ok (zeroBlock, zeroPaddingCipher)
   /\ unpadPKCS7 zeroBlock = Throw (InvalidPaddingLength 0))
  /\ decryptCBC zeroPaddingCipher fipsKey zeroBlock = Throw DecryptionFailedInvalidPadding
  /\ decryptCBCWithSteps zeroPaddingCipher fipsKey zeroBlock
     = Throw (DecryptionFailed (InvalidPaddingLength 0)).
Proof.
  assert (H1 : length zeroBlock = 16%nat) by reflexivity.
  assert (H2 : (length zeroPaddingCipher mod 16)%nat = 0%nat) by reflexivity.
  assert (H3 : forEach (decryptCBCLoop zeroPaddingCipher fipsKey)
                 (blockStarts (length zeroPaddingCipher)) ([], zeroBlock)
               = Ok (zeroBlock, zeroPaddingCipher)) by (vm_compute; reflexivity).
  assert (H4 : unpadPKCS7 zeroBlock = Throw (InvalidPaddingLength 0)) by reflexivity.
  split; [repeat split; assumption |].
  exact (padding_failure_surfaced zeroPaddingCipher fipsKey zeroBlock zeroBlock
           zeroPaddingCipher (InvalidPaddingLength 0) H1 H2 H3 H4).
Defined.

(** C9, as stated, fails: a key string in which every second character is
    [g] is converted, each pair [1g] to the byte 1, and decryption and
    encryption go through. *)
Lemma non_hex_key_accepted :
  isValidHex nonHexKey = false
  /\ decrypt helloCipherHex nonHexKey zeroIVHex false
     = Some (Ok {| out_plaintext := "HELLO"; out_decryptSteps := None |})
  /\ encrypt zeroSource "HELLO" nonHexKey false
     = Some (Ok {| out_iv := zeroIVHex; out_ciphertext := helloCipherHex; out_steps := None |}).
Proof. repeat split; vm_compute; reflexivity. Qed.

(** C9, amended. The string-level [encrypt] and [decrypt] do not validate
    their hexadecimal strings.  The one check they make before any block
    processing is on the number of bytes of the converted key.  [hexToBytes]
    converts a pair made of a hexadecimal digit and a character that is not
    one to the value of the digit (unless the pair is a [0x] prefix), and
    [decrypt] hands the converted bytes to [decryptCBC]. *)
Theorem string_boundary_checks (generateRandomBytes : RandomSource)
    (plaintext ciphertext key iv : string) (recordSteps : bool) :
  (isValidKeyLength (hexToBytes key) = false ->
   encrypt generateRandomBytes plaintext key recordSteps
   = Some (Throw (InvalidKeyLength (length (hexToBytes key))))
   /\ decrypt ciphertext key iv recordSteps
      = Some (Throw (InvalidKeyLength (length (hexToBytes key)))))
  /\ (forall (c1 c2 : ascii) (d : Z),
        hexDigit c1 = Some d -> hexDigit c2 = None ->
        d <> 0 \/ (c2 <> "x"%char /\ c2 <> "X"%char) ->
        parseIntHexPair c1 c2 = Some d)
  /\ (forall c k v,
        isValidKeyLength (hexToBytes key) = true ->
        numbers (hexToBytes ciphertext) = Some c ->
        numbers (hexToBytes key) = Some k ->
        numbers (hexToBytes iv) = Some v ->
        decrypt ciphertext key iv false
        = Some (let* plaintextBytes := decryptCBC c k v in
                Ok {| out_plaintext := bytesToString plaintextBytes;
                      out_decryptSteps := None |})).
Proof.
  split; [| split].
  - intros Hkey. unfold encrypt, decrypt. rewrite Hkey. split; reflexivity.
  - intros c1 c2 d H1 H2 Hx. unfold parseIntHexPair.
    destruct (Ascii.eqb_spec c1 "-") as [-> | _]; [discriminate H1 |].
    destruct (Ascii.eqb_spec c1 "+") as [-> | _]; [discriminate H1 |].
    rewrite H1, H2.
    destruct (Z.eqb_spec d 0) as [Hd | _]; [| reflexivity].
    destruct (Ascii.eqb_spec c2 "x") as [-> | _]; [exfalso; tauto |].
    destruct (Ascii.eqb_spec c2 "X") as [-> | _]; [exfalso; tauto |].
    reflexivity.
  - intros c k v Hkey Hc Hk Hv. unfold decrypt. rewrite Hkey, Hc, Hk, Hv. reflexivity.
Qed.

(** C10, as stated, fails: on a ciphertext whose padding is invalid the two
    variants of decryption fail with different errors. *)
Lemma decryptCBCWithSteps_error_differs :
  decryptCBC mismatchedPaddingCipher fipsKey zeroBlock = Throw DecryptionFailedInvalidPadding
  /\ decryptCBCWithSteps mismatchedPaddingCipher fipsKey zeroBlock
     = Throw (DecryptionFailed (InvalidPaddingByte 2 7 14))
  /\ DecryptionFailedInvalidPadding <> DecryptionFailed (InvalidPaddingByte 2 7 14).
Proof. split; [| split]; [vm_compute; reflexivity | vm_compute; reflexivity | discriminate]. Qed.

(** C10, amended. With a sixteen-byte IV, [encryptCBCWithSteps] returns the
    IV and ciphertext of [encryptCBC], or throws the error it throws.
    [decryptCBCWithSteps] returns exactly when [decryptCBC] does, with the
    same plaintext, and so fails exactly when it fails; the error it throws
    then wraps the underlying error, and is never the error of
    [decryptCBC]. *)
Theorem steps_variants (generateRandomBytes : RandomSource) (m c key iv : list Z) :
  (length iv = 16%nat ->
   agree (fun r s => enc_iv r = esteps_iv s /\ enc_ciphertext r = esteps_ciphertext s)
         (encryptCBC generateRandomBytes m key (Some iv)) (encryptCBCWithSteps m key iv))
  /\ (forall p, decryptCBC c key iv = Ok p
                <-> exists s, decryptCBCWithSteps c key iv = Ok s /\ dsteps_plaintext s = p)
  /\ ((exists e, decryptCBC c key iv = Throw e)
      <-> exists e', decryptCBCWithSteps c key iv = Throw e')
  /\ (forall e', decryptCBCWithSteps c key iv = Throw e' ->
                 (exists cause, e' = DecryptionFailed cause)
                 /\ decryptCBC c key iv <> Throw e').
Proof.
  assert (Hdec : forall p, decryptCBC c key iv = Ok p
                 <-> exists s, decryptCBCWithSteps c key iv = Ok s /\ dsteps_plaintext s = p).
  { intros p.
    pose proof (decrypt_loops_agree c key (blockStarts (length c))
                  ([], iv) (@nil DecryptBlockStep, [], iv) (conj eq_refl eq_refl)) as Hagree.
    unfold agree in Hagree. split.
    - unfold decryptCBC, decryptCBCWithSteps. intros H.
      destruct (negb _) in H; [discriminate H |].
      destruct (negb _) in H; [discriminate H |].
      destruct (forEach (decryptCBCLoop c key) _ _) as [[padded last] |]; cbn [bind] in H;
        [| discriminate H].
      destruct (forEach (decryptCBCWithStepsLoop c key) _ _)
        as [[[blocks padded'] last'] |]; [| contradiction].
      destruct Hagree as [Hp _]. cbn [fst snd] in Hp. subst padded'. cbn [bind].
      destruct (unpadPKCS7 padded) as [p' |]; cbn [tryCatch] in H; [| discriminate H].
      injection H as ->. cbn [bind tryCatch]. eexists. split; reflexivity.
    - intros (s & Hs & Hp). unfold decryptCBCWithSteps in Hs.
      destruct (forEach (decryptCBCWithStepsLoop c key) _ _)
        as [[[blocks padded'] last'] |]; cbn [bind tryCatch] in Hs; [| discriminate Hs].
      destruct (forEach (decryptCBCLoop c key) _ _) as [[padded last] |] eqn:Hloop;
        [| contradiction].
      destruct Hagree as [Hp' _]. cbn [fst snd] in Hp'. subst padded'.
      destruct (unpadPKCS7 padded) as [p' |] eqn:Hunpad; cbn [bind tryCatch] in Hs;
        [| discriminate Hs].
      injection Hs as <-. cbn [dsteps_plaintext] in Hp. subst p'.
      assert (Hne : padded <> []) by (intros ->; rewrite unpadPKCS7_nil in Hunpad; discriminate).
      destruct (decrypt_loop_Ok_inv c key iv padded last Hloop Hne) as [Hiv Hct].
      unfold decryptCBC, BLOCK_SIZE_BYTES. rewrite Hiv, Hct. cbn [Nat.eqb negb].
      rewrite Hloop. cbn [bind]. rewrite Hunpad. reflexivity. }
  split; [| split; [exact Hdec | split]].
  - intros Hiv. unfold encryptCBC, encryptCBCWithSteps, BLOCK_SIZE_BYTES.
    rewrite Hiv. cbn [Nat.eqb negb].
    pose proof (encrypt_loops_agree (padPKCS7 m 16) key (blockStarts (length (padPKCS7 m 16)))
                  ([], iv) (@nil EncryptBlockStep, [], iv) (conj eq_refl eq_refl)) as Hagree.
    unfold agree in Hagree |- *.
    destruct (forEach (encryptCBCLoop _ key) _ _) as [[ciphertext last] |],
             (forEach (encryptCBCWithStepsLoop _ key) _ _) as [[[blocks ciphertext'] last'] |];
      cbn [bind]; try contradiction; [| exact Hagree].
    destruct Hagree as [Hc _]. cbn [fst snd] in Hc. subst ciphertext'.
    split; reflexivity.
  - split.
    + intros [e He]. destruct (decryptCBCWithSteps c key iv) as [s |] eqn:Hs; [| eauto].
      exfalso. assert (Hok : decryptCBC c key iv = Ok (dsteps_plaintext s))
        by (apply Hdec; exists s; split; reflexivity).
      congruence.
    + intros [e' He']. destruct (decryptCBC c key iv) as [p |] eqn:Hp; [| eauto].
      exfalso. destruct (proj1 (Hdec p) eq_refl) as (s & Hs & _). congruence.
  - intros e' He'. split.
    + unfold decryptCBCWithSteps, tryCatch in He'.
      destruct (let* vars := _ in _) in He'; [discriminate He' |].
      injection He' as <-. eexists. reflexivity.
    + intros Hplain. unfold decryptCBCWithSteps, tryCatch in He'.
      destruct (let* vars := _ in _) in He'; [discriminate He' |].
      injection He' as <-. exact (decryptCBC_not_wrapped c key iv _ Hplain _ eq_refl).
Qed.

(** * Further properties *)

(** ** The round transformations, in both directions *)

Lemma SBOX_INV_SBOX b : byte b -> idx SBOX (idx INV_SBOX b) = b.
Proof.
  intros Hb.
  assert (H : forallBytes (fun b => idx SBOX (idx INV_SBOX b) =? b) = true)
    by (vm_compute; reflexivity).
  apply Z.eqb_eq. exact (forallBytes_spec _ H b Hb).
Qed.

Lemma MULT_2_linear : linearTable MULT_2 = true.
Proof. vm_compute. reflexivity. Qed.
Lemma MULT_3_linear : linearTable MULT_3 = true.
Proof. vm_compute. reflexivity. Qed.

Lemma subBytes_invSubBytes s : byteState s -> subBytes (invSubBytes s) = s.
Proof.
  intros H. as_matrix s f Hf.
  cbv [invSubBytes subBytes matrix four cell nth]. split_list; apply SBOX_INV_SBOX, Hf.
Qed.

Lemma shiftRows_invShiftRows s : s = matrix (cell s) -> shiftRows (invShiftRows s) = s.
Proof. intros ->. reflexivity. Qed.

Ltac mix_row :=
  intros;
  rewrite (linearTable4 MULT_2 _ _ _ _ MULT_2_linear) by auto with bytes;
  rewrite (linearTable4 MULT_3 _ _ _ _ MULT_3_linear) by auto with bytes;
  rewrite lxor_regroup.

Lemma mix_row0 a b c d : byte a -> byte b -> byte c -> byte d ->
  idx MULT_2 (idx MULT_14 a .^ idx MULT_11 b .^ idx MULT_13 c .^ idx MULT_9 d)
  .^ idx MULT_3 (idx MULT_9 a .^ idx MULT_14 b .^ idx MULT_11 c .^ idx MULT_13 d)
  .^ (idx MULT_13 a .^ idx MULT_9 b .^ idx MULT_14 c .^ idx MULT_11 d)
  .^ (idx MULT_11 a .^ idx MULT_13 b .^ idx MULT_9 c .^ idx MULT_14 d) = a.
Proof.
  mix_row. transitivity (a .^ 0 .^ 0 .^ 0); [| rewrite !Z.lxor_0_r; reflexivity].
  f_equal; [f_equal; [f_equal |] |]; all_bytes.
Qed.

Lemma mix_row1 a b c d : byte a -> byte b -> byte c -> byte d ->
  (idx MULT_14 a .^ idx MULT_11 b .^ idx MULT_13 c .^ idx MULT_9 d)
  .^ idx MULT_2 (idx MULT_9 a .^ idx MULT_14 b .^ idx MULT_11 c .^ idx MULT_13 d)
  .^ idx MULT_3 (idx MULT_13 a .^ idx MULT_9 b .^ idx MULT_14 c .^ idx MULT_11 d)
  .^ (idx MULT_11 a .^ idx MULT_13 b .^ idx MULT_9 c .^ idx MULT_14 d) = b.
Proof.
  mix_row. transitivity (0 .^ b .^ 0 .^ 0); [| rewrite !Z.lxor_0_r; reflexivity].
  f_equal; [f_equal; [f_equal |] |]; all_bytes.
Qed.

Lemma mix_row2 a b c d : byte a -> byte b -> byte c -> byte d ->
  (idx MULT_14 a .^ idx MULT_11 b .^ idx MULT_13 c .^ idx MULT_9 d)
  .^ (idx MULT_9 a .^ idx MULT_14 b .^ idx MULT_11 c .^ idx MULT_13 d)
  .^ idx MULT_2 (idx MULT_13 a .^ idx MULT_9 b .^ idx MULT_14 c .^ idx MULT_11 d)
  .^ idx MULT_3 (idx MULT_11 a .^ idx MULT_13 b .^ idx MULT_9 c .^ idx MULT_14 d) = c.
Proof.
  mix_row. transitivity (0 .^ 0 .^ c .^ 0); [| rewrite !Z.lxor_0_r; reflexivity].
  f_equal; [f_equal; [f_equal |] |]; all_bytes.
Qed.

Lemma mix_row3 a b c d : byte a -> byte b -> byte c -> byte d ->
  idx MULT_3 (idx MULT_14 a .^ idx MULT_11 b .^ idx MULT_13 c .^ idx MULT_9 d)
  .^ (idx MULT_9 a .^ idx MULT_14 b .^ idx MULT_11 c .^ idx MULT_13 d)
  .^ (idx MULT_13 a .^ idx MULT_9 b .^ idx MULT_14 c .^ idx MULT_11 d)
  .^ idx MULT_2 (idx MULT_11 a .^ idx MULT_13 b .^ idx MULT_9 c .^ idx MULT_14 d) = d.
Proof.
  mix_row. transitivity (0 .^ 0 .^ 0 .^ d); [| rewrite !Z.lxor_0_r; reflexivity].
  f_equal; [f_equal; [f_equal |] |]; all_bytes.
Qed.

Lemma mixColumns_invMixColumns s : byteState s -> mixColumns (invMixColumns s) = s.
Proof.
  intros H. as_matrix s f Hf.
  cbv [invMixColumns mixColumns matrix four cell nth].
  split_list;
    first [apply mix_row0 | apply mix_row1 | apply mix_row2 | apply mix_row3];
    apply Hf.
Qed.

Lemma aesDecryptionRound_byteState s roundKey isFirstRound :
  byteState s -> Forall byte roundKey -> byteState (aesDecryptionRound s roundKey isFirstRound).
Proof.
  intros Hs Hk. unfold aesDecryptionRound. destruct isFirstRound; cbn [negb]; auto 6 with bytes.
Qed.

(** A middle round of encryption, applied to the state a middle round of
    decryption leaves once its rows are shifted back and substituted back
    again, returns the shifted and substituted state that round started
    from. *)
Lemma encryptionRound_decryptionRound s roundKey :
  byteState s -> Forall byte roundKey ->
  aesEncryptionRound (invSubBytes (invShiftRows (aesDecryptionRound s roundKey false)))
    roundKey false
  = invSubBytes (invShiftRows s).
Proof.
  intros Hs Hk. unfold aesDecryptionRound, aesEncryptionRound. cbn [negb].
  rewrite subBytes_invSubBytes by auto 8 with bytes.
  rewrite shiftRows_invShiftRows by (apply invMixColumns_byteState; auto 6 with bytes).
  rewrite mixColumns_invMixColumns by auto 6 with bytes.
  apply addRoundKey_involutive. auto with bytes.
Qed.

Lemma fold_left_cons_step {S I : Type} (f : S -> I -> S) (i : I) (l : list I) (s : S) :
  fold_left f (i :: l) s = fold_left f l (f s i).
Proof. reflexivity. Qed.

Lemma fold_left_snoc {S I : Type} (f : S -> I -> S) (i : I) (l : list I) (s : S) :
  fold_left f (l ++ [i]) s = f (fold_left f l s) i.
Proof. rewrite fold_left_app. reflexivity. Qed.

Lemma rev_cons_snoc {A : Type} (a : A) (l : list A) : rev (a :: l) = rev l ++ [a].
Proof. reflexivity. Qed.

Lemma inverse_middle_rounds roundKeys rounds s :
  Forall roundKeyOk roundKeys -> byteState s ->
  fold_left (fun state round => aesEncryptionRound state (nth round roundKeys []) false)
    rounds
    (invSubBytes (invShiftRows
       (fold_left (fun state round => aesDecryptionRound state (nth round roundKeys []) false)
          (rev rounds) s)))
  = invSubBytes (invShiftRows s).
Proof.
  intros Hk Hs. induction rounds as [| round rounds IH]; [reflexivity |].
  rewrite rev_cons_snoc, fold_left_snoc, fold_left_cons_step.
  set (t := fold_left _ (rev rounds) s) in *.
  assert (Ht : byteState t).
  { subst t. apply fold_left_invariant; [| exact Hs].
    intros s' i _ Hs'. apply aesDecryptionRound_byteState; auto with bytes. }
  clearbody t.
  rewrite (encryptionRound_decryptionRound t (nth round roundKeys []) Ht
             (roundKey_nth roundKeys round Hk)).
  exact IH.
Qed.

Lemma aesDecryptBlock_ok block key :
  length block = 16%nat -> Forall byte block ->
  validKeyLength (length key) -> Forall byte key ->
  exists decrypted,
    aesDecryptBlock block key = Ok decrypted
    /\ length decrypted = 16%nat /\ Forall byte decrypted
    /\ aesEncryptBlock decrypted key = Ok block.
Proof.
  intros Hlen Hb Hklen Hk.
  destruct (keyExpansion_valid key Hklen Hk) as (roundKeys & Hexp & Hn & Hrk).
  destruct (bytesToState_ok block Hlen Hb) as (s & Hs & Hbs & Hback).
  unfold aesEncryptBlock, aesDecryptBlock. rewrite Hexp, Hs. cbn [bind].
  set (numRounds := (length roundKeys - 1)%nat).
  set (s0 := addRoundKey s (nth numRounds roundKeys [])).
  set (mid := fold_left _ (rev (seq 1 (numRounds - 1))) s0).
  assert (Hs0 : byteState s0) by (subst s0; auto with bytes).
  assert (Hmid : byteState mid).
  { subst mid. apply fold_left_invariant; [| exact Hs0].
    intros s' i _ Hs'. apply aesDecryptionRound_byteState; auto with bytes. }
  eexists. split; [reflexivity |].
  assert (Hfinal : byteState (aesDecryptionRound mid (nth 0 roundKeys []) true))
    by (apply aesDecryptionRound_byteState; auto with bytes).
  destruct (stateToBytes_ok _ Hfinal) as [Hl Hby].
  split; [exact Hl |]. split; [exact Hby |].
  rewrite bytesToState_stateToBytes by exact Hfinal. cbn [bind].
  f_equal. rewrite <- Hback. f_equal.
  unfold aesDecryptionRound at 1. cbn [negb].
  rewrite addRoundKey_involutive by auto with bytes.
  subst mid. rewrite inverse_middle_rounds by assumption.
  unfold aesEncryptionRound. cbn [negb].
  rewrite subBytes_invSubBytes by auto with bytes.
  rewrite shiftRows_invShiftRows by apply Hs0.
  subst s0. apply addRoundKey_involutive. assumption.
Qed.

Lemma keyExpansion_Ok_valid key :
  validKeyLength (length key) -> exists roundKeys, keyExpansion key = Ok roundKeys.
Proof.
  intros [H | [H | H]]; unfold keyExpansion; rewrite H; cbv [Nat.eqb bind];
    eexists; reflexivity.
Qed.

(** A state of sample bytes. *)
Lemma sampleState_byteState : byteState (matrix (fun row col => Z.of_nat (16 * row + col))).
Proof.
  split; [reflexivity |]. intros row col.
  cases6 row; cases6 col; cbv [cell matrix four nth]; try apply byte_0;
    apply isByte_spec; reflexivity.
Qed.

(** ** aesCore.ts *)

(** X1. [bytesToState] throws the invalid-block-size error exactly when its
    argument does not hold sixteen numbers; otherwise the state holds byte
    [i] at row [i mod 4], column [i / 4], and [stateToBytes] reads the bytes
    back; conversely [bytesToState] rebuilds every 4x4 state from its
    bytes. *)
Theorem bytesToState_layout (bytes : list Z) :
  (length bytes <> 16%nat -> bytesToState bytes = Throw (InvalidBlockSize (length bytes)))
  /\ (length bytes = 16%nat ->
      exists state,
        bytesToState bytes = Ok state
        /\ stateToBytes state = bytes
        /\ forall i, (i < 16)%nat -> cell state (i mod 4) (i / 4) = nth i bytes 0)
  /\ (forall state, state = matrix (cell state) -> bytesToState (stateToBytes state) = Ok state).
Proof.
  split; [| split].
  - intros Hlen. unfold bytesToState, BLOCK_SIZE_BYTES.
    destruct (Nat.eqb_spec (length bytes) 16); [contradiction | reflexivity].
  - intros Hlen. unfold bytesToState, BLOCK_SIZE_BYTES. rewrite Hlen. cbn [Nat.eqb negb].
    eexists. split; [reflexivity |].
    do 17 (destruct bytes as [| ? bytes]; try discriminate Hlen).
    split; [reflexivity |]. intros i Hi.
    do 16 (destruct i as [| i]; [reflexivity |]). lia.
  - intros state ->. reflexivity.
Qed.

(** X2. On a state of bytes, [subBytes] and [invSubBytes] undo each other,
    in both orders. *)
Theorem subBytes_inverse (state : State) :
  byteState state ->
  invSubBytes (subBytes state) = state /\ subBytes (invSubBytes state) = state.
Proof.
  intros H. split; [apply invSubBytes_subBytes | apply subBytes_invSubBytes]; exact H.
Qed.

Lemma subBytes_inverse_witness :
  byteState (matrix (fun row col => Z.of_nat (16 * row + col)))
  /\ invSubBytes (subBytes (matrix (fun row col => Z.of_nat (16 * row + col))))
     = matrix (fun row col => Z.of_nat (16 * row + col))
  /\ subBytes (invSubBytes (matrix (fun row col => Z.of_nat (16 * row + col))))
     = matrix (fun row col => Z.of_nat (16 * row + col)).
Proof.
  split; [exact sampleState_byteState | exact (subBytes_inverse _ sampleState_byteState)].
Defined.



(** X4. On a state of bytes, [mixColumns] and [invMixColumns] undo each
    other, in both orders. *)
Theorem mixColumns_inverse (state : State) :
  byteState state ->
  invMixColumns (mixColumns state) = state /\ mixColumns (invMixColumns state) = state.
Proof.
  intros H. split; [apply invMixColumns_mixColumns | apply mixColumns_invMixColumns]; exact H.
Qed.

Lemma mixColumns_inverse_witness :
  byteState (matrix (fun row col => Z.of_nat (16 * row + col)))
  /\ invMixColumns (mixColumns (matrix (fun row col => Z.of_nat (16 * row + col))))
     = matrix (fun row col => Z.of_nat (16 * row + col))
  /\ mixColumns (invMixColumns (matrix (fun row col => Z.of_nat (16 * row + col))))
     = matrix (fun row col => Z.of_nat (16 * row + col)).
Proof.
  split; [exact sampleState_byteState | exact (mixColumns_inverse _ sampleState_byteState)].
Defined.



(** X6. For every block of sixteen bytes and every key of 16, 24 or 32
    bytes, [aesDecryptBlock] returns a block of sixteen bytes that
    [aesEncryptBlock] under the same key sends back to the original block:
    encryption undoes decryption as well. *)
Theorem aesEncryptBlock_aesDecryptBlock (block key : list Z) :
  length block = 16%nat -> Forall byte block ->
  validKeyLength (length key) -> Forall byte key ->
  exists decrypted,
    aesDecryptBlock block key = Ok decrypted
    /\ length decrypted = 16%nat /\ Forall byte decrypted
    /\ aesEncryptBlock decrypted key = Ok block.
Proof. exact (aesDecryptBlock_ok block key). Qed.

Lemma aesEncryptBlock_aesDecryptBlock_witness :
  (length fipsCipher = 16%nat /\ Forall byte fipsCipher
   /\ validKeyLength (length fipsKey) /\ Forall byte fipsKey)
  /\ exists decrypted,
       aesDecryptBlock fipsCipher fipsKey = Ok decrypted
       /\ length decrypted = 16%nat /\ Forall byte decrypted
       /\ aesEncryptBlock decrypted fipsKey = Ok fipsCipher.
Proof.
  assert (Hk : validKeyLength (length fipsKey)) by (left; reflexivity).
  assert (Hc : Forall byte fipsCipher) by (apply Forall_byte_check; reflexivity).
  split; [repeat split; [exact Hc | exact Hk | exact fipsKey_bytes] |].
  exact (aesEncryptBlock_aesDecryptBlock fipsCipher fipsKey eq_refl Hc Hk fipsKey_bytes).
Defined.

(** X7. [aesEncryptBlock] and [aesDecryptBlock] expand the key before they
    look at the block: with a key of invalid length both throw the
    invalid-key-length error whatever the block; with a valid key length and
    a block that does not hold sixteen numbers both throw the
    invalid-block-size error; otherwise both return sixteen numbers. *)
Theorem block_functions_outcome (block key : list Z) :
  (~ validKeyLength (length key) ->
   aesEncryptBlock block key = Throw (InvalidKeyLength (length key))
   /\ aesDecryptBlock block key = Throw (InvalidKeyLength (length key)))
  /\ (validKeyLength (length key) -> length block <> 16%nat ->
      aesEncryptBlock block key = Throw (InvalidBlockSize (length block))
      /\ aesDecryptBlock block key = Throw (InvalidBlockSize (length block)))
  /\ (validKeyLength (length key) -> length block = 16%nat ->
      exists encrypted decrypted,
        aesEncryptBlock block key = Ok encrypted /\ length encrypted = 16%nat
        /\ aesDecryptBlock block key = Ok decrypted /\ length decrypted = 16%nat).
Proof.
  unfold aesEncryptBlock, aesDecryptBlock. split; [| split].
  - intros Hk. rewrite (keyExpansion_invalid key Hk). split; reflexivity.
  - intros Hk Hb. destruct (keyExpansion_Ok_valid key Hk) as [roundKeys ->]. cbn [bind].
    unfold bytesToState, BLOCK_SIZE_BYTES.
    destruct (Nat.eqb_spec (length block) 16); [contradiction |]. split; reflexivity.
  - intros Hk Hb. destruct (keyExpansion_Ok_valid key Hk) as [roundKeys ->]. cbn [bind].
    unfold bytesToState, BLOCK_SIZE_BYTES. rewrite Hb. cbn [Nat.eqb negb bind].
    eexists. eexists. repeat split.
Qed.

(** ** utils.ts *)

Lemma append_empty_r (s : string) : (s ++ EmptyString)%string = s.
Proof. induction s as [| c s IH]; [reflexivity |]. cbn. rewrite IH. reflexivity. Qed.

Lemma bytesToHex_cons b bytes :
  bytesToHex (b :: bytes) = (byteToHex b ++ bytesToHex bytes)%string.
Proof.
  unfold bytesToHex. cbn [map String.concat].
  destruct (map byteToHex bytes) as [| h t] eqn:Hm.
  - cbn [String.concat]. symmetry. apply append_empty_r.
  - reflexivity.
Qed.

Lemma byteToHex_pair b :
  byte b ->
  exists c1 c2,
    byteToHex b = String c1 (String c2 EmptyString)
    /\ parseIntHexPair c1 c2 = Some b
    /\ isHexDigit c1 = true /\ isHexDigit c2 = true
    /\ isSpace c1 = false /\ isSpace c2 = false.
Proof.
  intros Hb.
  assert (H : forallBytes hexPairOk = true) by (vm_compute; reflexivity).
  pose proof (forallBytes_spec _ H b Hb) as Hok. unfold hexPairOk in Hok.
  destruct (byteToHex b) as [| c1 [| c2 [| c3 s]]]; try discriminate Hok.
  destruct (parseIntHexPair c1 c2) as [z |] eqn:Hp; [| discriminate Hok].
  rewrite !andb_true_iff, !negb_true_iff in Hok.
  destruct Hok as [[[[Hz H1] H2] H3] H4]. apply Z.eqb_eq in Hz. subst z.
  exists c1, c2. repeat split; auto.
Qed.

Lemma numbers_map_Some bytes : numbers (map Some bytes) = Some bytes.
Proof.
  induction bytes as [| b bytes IH]; [reflexivity |].
  cbn [map numbers]. rewrite IH. reflexivity.
Qed.

Lemma numbers_length parsed bytes : numbers parsed = Some bytes -> length parsed = length bytes.
Proof.
  revert bytes. induction parsed as [| [z |] parsed IH]; intros bytes H; cbn [numbers] in H.
  - injection H as <-. reflexivity.
  - destruct (numbers parsed) as [rest |]; cbn [option_map] in H; [| discriminate H].
    injection H as <-. cbn [length]. f_equal. apply IH. reflexivity.
  - discriminate H.
Qed.

Lemma bytesToHex_facts bytes :
  Forall byte bytes ->
  removeSpaces (bytesToHex bytes) = bytesToHex bytes
  /\ String.length (bytesToHex bytes) = (2 * length bytes)%nat
  /\ allHexDigits (bytesToHex bytes) = true
  /\ parsePairs (bytesToHex bytes) = map Some bytes.
Proof.
  induction 1 as [| b bytes Hb _ IH]; [repeat split |].
  destruct IH as (IH1 & IH2 & IH3 & IH4).
  destruct (byteToHex_pair b Hb) as (c1 & c2 & Hhex & Hparse & Hd1 & Hd2 & Hs1 & Hs2).
  rewrite bytesToHex_cons, Hhex. cbn [append removeSpaces String.length allHexDigits parsePairs map].
  rewrite Hs1, Hs2, Hd1, Hd2, IH1, IH2, IH3, IH4, Hparse. repeat split. cbn [andb length]. lia.
Qed.

Lemma hexToBytes_bytesToHex bytes :
  Forall byte bytes -> hexToBytes (bytesToHex bytes) = map Some bytes.
Proof.
  intros H. destruct (bytesToHex_facts bytes H) as (H1 & H2 & _ & H4).
  unfold hexToBytes. rewrite H1, H2.
  replace (2 * length bytes mod 2)%nat with 0%nat
    by (rewrite Nat.mul_comm, Nat.Div0.mod_mul; reflexivity).
  cbn [Nat.eqb negb]. exact H4.
Qed.

Lemma isValidHex_bytesToHex bytes :
  Forall byte bytes -> bytes <> [] -> isValidHex (bytesToHex bytes) = true.
Proof.
  intros H Hne. destruct (bytesToHex_facts bytes H) as (H1 & H2 & H3 & _).
  unfold isValidHex. rewrite H1, H2, H3.
  destruct bytes; [contradiction | reflexivity].
Qed.






(** X9. For every array of bytes, [hexToBytes] reads [bytesToHex] back:
    the string has two characters per byte, and for a non-empty array
    [isValidHex] accepts it. *)
Theorem hexToBytes_bytesToHex_roundtrip (bytes : list Z) :
  Forall byte bytes ->
  hexToBytes (bytesToHex bytes) = map Some bytes
  /\ String.length (bytesToHex bytes) = (2 * length bytes)%nat
  /\ (bytes <> [] -> isValidHex (bytesToHex bytes) = true).
Proof.
  intros H. split; [apply hexToBytes_bytesToHex, H |].
  split; [apply (bytesToHex_facts bytes H) | apply isValidHex_bytesToHex, H].
Qed.

Lemma hexToBytes_bytesToHex_roundtrip_witness :
  Forall byte fipsCipher
  /\ hexToBytes (bytesToHex fipsCipher) = map Some fipsCipher
  /\ String.length (bytesToHex fipsCipher) = (2 * length fipsCipher)%nat.
Proof.
  assert (Hc : Forall byte fipsCipher) by (apply Forall_byte_check; reflexivity).
  split; [exact Hc |].
  split; [exact (proj1 (hexToBytes_bytesToHex_roundtrip fipsCipher Hc))
         | exact (proj1 (proj2 (hexToBytes_bytesToHex_roundtrip fipsCipher Hc)))].
Defined.


Lemma hexDigit_range c d : hexDigit c = Some d -> 0 <= d < 16.
Proof.
  unfold hexDigit. set (n := nat_of_ascii c).
  destruct ((48 <=? n)%nat && (n <=? 57)%nat) eqn:H1.
  { intros H. injection H as <-. apply andb_true_iff in H1. destruct H1 as [Ha Hb].
    apply Nat.leb_le in Ha, Hb. lia. }
  destruct ((97 <=? n)%nat && (n <=? 102)%nat) eqn:H2.
  { intros H. injection H as <-. apply andb_true_iff in H2. destruct H2 as [Ha Hb].
    apply Nat.leb_le in Ha, Hb. lia. }
  destruct ((65 <=? n)%nat && (n <=? 70)%nat) eqn:H3; [| discriminate].
  intros H. injection H as <-. apply andb_true_iff in H3. destruct H3 as [Ha Hb].
  apply Nat.leb_le in Ha, Hb. lia.
Qed.

Lemma parseIntHexPair_digits c1 c2 :
  isHexDigit c1 = true -> isHexDigit c2 = true ->
  exists b, parseIntHexPair c1 c2 = Some b /\ byte b.
Proof.
  unfold isHexDigit. intros H1 H2.
  destruct (hexDigit c1) as [d1 |] eqn:Hd1; [| discriminate H1].
  destruct (hexDigit c2) as [d2 |] eqn:Hd2; [| discriminate H2].
  pose proof (hexDigit_range c1 d1 Hd1). pose proof (hexDigit_range c2 d2 Hd2).
  exists (16 * d1 + d2). split; [| unfold byte; lia].
  unfold parseIntHexPair.
  destruct (Ascii.eqb_spec c1 "-") as [-> | _]; [discriminate Hd1 |].
  destruct (Ascii.eqb_spec c1 "+") as [-> | _]; [discriminate Hd1 |].
  rewrite Hd1, Hd2.
  destruct (Ascii.eqb_spec c2 "x") as [-> | _]; [discriminate Hd2 |].
  destruct (Ascii.eqb_spec c2 "X") as [-> | _]; [discriminate Hd2 |].
  rewrite andb_false_r. reflexivity.
Qed.

Lemma parsePairs_digits n : forall s,
  String.length s = (2 * n)%nat -> allHexDigits s = true ->
  exists bytes, parsePairs s = map Some bytes /\ Forall byte bytes /\ length bytes = n.
Proof.
  induction n as [| n IH]; intros s Hlen Hhex.
  - destruct s; [| discriminate Hlen]. exists []. repeat split. constructor.
  - destruct s as [| c1 [| c2 s]]; cbn [String.length] in Hlen; try lia.
    cbn [allHexDigits] in Hhex. apply andb_true_iff in Hhex. destruct Hhex as [H1 Hhex].
    apply andb_true_iff in Hhex. destruct Hhex as [H2 Hhex].
    destruct (parseIntHexPair_digits c1 c2 H1 H2) as (b & Hb & Hbyte).
    destruct (IH s) as (bytes & Hp & Hbytes & Hn); [lia | exact Hhex |].
    exists (b :: bytes). cbn [parsePairs map length]. rewrite Hb, Hp, Hn.
    repeat split. constructor; assumption.
Qed.

Lemma isValidHex_hexToBytes (hex : string) :
  isValidHex hex = true ->
  exists bytes,
    hexToBytes hex = map Some bytes
    /\ Forall byte bytes
    /\ length bytes = ((String.length (removeSpaces hex) + 1) / 2)%nat.
Proof.
  unfold isValidHex, hexToBytes. intros H. apply andb_true_iff in H. destruct H as [_ Hhex].
  set (s := removeSpaces hex) in *.
  pose proof (Nat.div_mod_eq (String.length s) 2) as Hdm.
  pose proof (Nat.mod_upper_bound (String.length s) 2 ltac:(lia)) as Hub.
  destruct (Nat.eqb_spec (String.length s mod 2) 0) as [Heven | Hodd]; cbn [negb].
  - destruct (parsePairs_digits (String.length s / 2) s ltac:(lia) Hhex)
      as (bytes & Hp & Hb & Hn).
    exists bytes. split; [exact Hp |]. split; [exact Hb |]. rewrite Hn.
    replace (String.length s + 1)%nat with (1 + String.length s / 2 * 2)%nat by lia.
    rewrite Nat.div_add by lia. reflexivity.
  - destruct (parsePairs_digits (String.length s / 2 + 1) (String "0" s))
      as (bytes & Hp & Hb & Hn); [cbn [String.length]; lia | exact Hhex |].
    exists bytes. split; [exact Hp |]. split; [exact Hb |]. rewrite Hn.
    replace (String.length s + 1)%nat with (0 + (String.length s / 2 + 1) * 2)%nat by lia.
    rewrite Nat.div_add by lia. reflexivity.
Qed.

(** X11. Whatever [isValidHex] accepts, [hexToBytes] converts to bytes
    only: no [NaN], every value in 0..255, one byte for every two
    characters that are not white space, an odd count rounded up. *)
Theorem hexToBytes_of_valid_hex (hex : string) :
  isValidHex hex = true ->
  exists bytes,
    hexToBytes hex = map Some bytes
    /\ Forall byte bytes
    /\ length bytes = ((String.length (removeSpaces hex) + 1) / 2)%nat.
Proof. exact (isValidHex_hexToBytes hex). Qed.

Lemma hexToBytes_of_valid_hex_witness :
  isValidHex "0f 1E a" = true
  /\ exists bytes,
       hexToBytes "0f 1E a" = map Some bytes
       /\ Forall byte bytes
       /\ length bytes = ((String.length (removeSpaces "0f 1E a") + 1) / 2)%nat.
Proof.
  split; [reflexivity |]. exact (hexToBytes_of_valid_hex "0f 1E a" eq_refl).
Defined.

(** ** splitIntoBlocks and joinBlocks *)

Lemma loopCounter_from {A : Type} (bytes : list A) step : (1 <= step)%nat ->
  forall fuel i, (length bytes - i <= fuel)%nat ->
  exists counter,
    loopCounter fuel (length bytes) step i = Some counter
    /\ concat (map (fun j => slice bytes j (j + step)) counter) = skipn i bytes
    /\ Forall (fun j => (j < length bytes)%nat /\ exists k, j = (i + k * step)%nat) counter.
Proof.
  intros Hstep. induction fuel as [| fuel IH]; intros i Hfuel.
  - cbn [loopCounter]. destruct (Nat.ltb_spec i (length bytes)); [lia |].
    exists []. split; [reflexivity |]. split; [| constructor].
    cbn [map concat]. symmetry. apply skipn_all2. lia.
  - cbn [loopCounter]. destruct (Nat.ltb_spec i (length bytes)) as [Hlt | Hge].
    + destruct (IH (i + step)%nat ltac:(lia)) as (counter & Hc & Hcat & Hall).
      exists (i :: counter). rewrite Hc. split; [reflexivity |]. split.
      * cbn [map concat]. rewrite Hcat. unfold slice.
        replace (i + step - i)%nat with step by lia.
        rewrite <- (firstn_skipn step (skipn i bytes)) at 2.
        f_equal. rewrite skipn_skipn. f_equal. lia.
      * constructor; [split; [exact Hlt | exists 0%nat; lia] |].
        eapply Forall_impl; [| exact Hall]. intros j [Hj (k & ->)].
        split; [exact Hj | exists (Datatypes.S k); lia].
    + exists []. split; [reflexivity |]. split; [| constructor].
      cbn [map concat]. symmetry. apply skipn_all2. lia.
Qed.

Lemma loopCounter_stuck len i : (i < len)%nat -> forall fuel, loopCounter fuel len 0 i = None.
Proof.
  intros Hi. induction fuel as [| fuel IH]; cbn [loopCounter];
    destruct (Nat.ltb_spec i len); try lia; [reflexivity |].
  rewrite Nat.add_0_r, IH. reflexivity.
Qed.

(** X12. For a block size of at least 1, [splitIntoBlocks] ends (fuel equal
    to the number of bytes is enough) and [joinBlocks] puts its blocks back
    together; every block holds between 1 and [blockSize] bytes, and exactly
    [blockSize] when the block size divides the number of bytes.  With a
    block size of 0 the loop of [splitIntoBlocks] never ends on a non-empty
    array. *)
Theorem joinBlocks_splitIntoBlocks (bytes : list Z) (blockSize : nat) :
  ((1 <= blockSize)%nat ->
   forall fuel, (length bytes <= fuel)%nat ->
   exists blocks,
     splitIntoBlocks fuel bytes blockSize = Some blocks
     /\ joinBlocks blocks = bytes
     /\ Forall (fun block => (1 <= length block <= blockSize)%nat) blocks
     /\ ((length bytes mod blockSize)%nat = 0%nat ->
         Forall (fun block => length block = blockSize) blocks))
  /\ (blockSize = 0%nat -> bytes <> [] ->
      forall fuel, splitIntoBlocks fuel bytes blockSize = None).
Proof.
  split.
  - intros Hstep fuel Hfuel.
    destruct (loopCounter_from bytes blockSize Hstep fuel 0 ltac:(lia))
      as (counter & Hc & Hcat & Hall).
    unfold splitIntoBlocks, joinBlocks. rewrite Hc. cbn [option_map].
    eexists. split; [reflexivity |]. split; [exact Hcat |].
    assert (Hlen : forall j, length (slice bytes j (j + blockSize))
                             = Nat.min blockSize (length bytes - j)).
    { intros j. unfold slice. rewrite length_firstn, length_skipn. f_equal. lia. }
    split.
    + apply Forall_map. eapply Forall_impl; [| exact Hall].
      intros j [Hj _]. cbv beta. rewrite Hlen. lia.
    + intros Hdiv. apply Forall_map. eapply Forall_impl; [| exact Hall].
      intros j [Hj (k & ->)]. cbv beta. rewrite Hlen.
      pose proof (Nat.div_mod_eq (length bytes) blockSize) as Hdm.
      rewrite Hdiv, Nat.add_0_r in Hdm. cbn [Nat.add] in Hj |- *.
      assert (k < length bytes / blockSize)%nat by nia.
      nia.
  - intros -> Hne fuel. unfold splitIntoBlocks.
    rewrite loopCounter_stuck; [reflexivity |].
    destruct bytes; [contradiction | cbn [length]; lia].
Qed.

(** ** cbcMode.ts: padding *)

Lemma unpadPKCS7_app_repeat data n : (1 <= n)%nat ->
  unpadPKCS7 (data ++ repeat (Z.of_nat n) n) =
  if (n <=? 16)%nat then Ok data else Throw (InvalidPaddingLength (Z.of_nat n)).
Proof.
  intros Hn. rewrite unpadPKCS7_unfold.
  assert (Hlen : length (data ++ repeat (Z.of_nat n) n) = (length data + n)%nat)
    by (rewrite length_app, repeat_length; reflexivity).
  rewrite Hlen.
  assert (Hnth : forall i, (length data <= i < length data + n)%nat ->
                           nth i (data ++ repeat (Z.of_nat n) n) 0 = Z.of_nat n).
  { intros i Hi. rewrite app_nth2 by lia. apply nth_repeat_lt. lia. }
  destruct (Nat.eqb_spec (length data + n) 0) as [H0 | _]; [lia |]. cbv zeta.
  rewrite Hnth by lia.
  destruct (Z.leb_spec (Z.of_nat n) 0); [lia |].
  destruct (Nat.leb_spec n 16) as [Hle | Hgt].
  - destruct (Z.gtb_spec (Z.of_nat n) 16); [lia |].
    destruct (Z.gtb_spec (Z.of_nat n) (Z.of_nat (length data + n))); [lia |].
    cbn [orb]. rewrite Nat2Z.id.
    replace (length data + n - n)%nat with (length data) by lia.
    destruct (checkPadding_spec (data ++ repeat (Z.of_nat n) n) (Z.of_nat n) (seq (length data) n))
      as [[Hok _] | (i & Hin & Hne & _)].
    + rewrite Hok. cbn [bind]. f_equal.
      rewrite firstn_app, Nat.sub_diag, firstn_all. cbn [firstn]. apply app_nil_r.
    + apply in_seq in Hin. exfalso. apply Hne, Hnth. lia.
  - destruct (Z.gtb_spec (Z.of_nat n) 16); [| lia]. reflexivity.
Qed.

Lemma unpadPKCS7_Ok_inv data plaintext :
  unpadPKCS7 data = Ok plaintext ->
  exists n, (1 <= n <= 16)%nat /\ data = plaintext ++ repeat (Z.of_nat n) n.
Proof.
  rewrite unpadPKCS7_unfold.
  destruct (Nat.eqb_spec (length data) 0) as [_ | Hne]; [discriminate |]. cbv zeta.
  set (n := nth (length data - 1) data 0).
  destruct (Z.leb_spec n 0); [discriminate |].
  destruct (Z.gtb_spec n 16); [discriminate |].
  destruct (Z.gtb_spec n (Z.of_nat (length data))); [discriminate |]. cbn [orb].
  destruct (checkPadding_spec data n (seq (length data - Z.to_nat n) (Z.to_nat n)))
    as [[Hok Hall] | (i & _ & _ & Hthrow)]; [| rewrite Hthrow; discriminate].
  rewrite Hok. cbn [bind]. intros Hres. injection Hres as <-.
  exists (Z.to_nat n). split; [lia |].
  rewrite <- (firstn_skipn (length data - Z.to_nat n) data) at 1. f_equal.
  apply (nth_ext _ _ 0 0).
  - rewrite length_skipn, repeat_length. lia.
  - intros i Hi. rewrite length_skipn in Hi.
    rewrite nth_skipn, nth_repeat_lt by lia. rewrite Z2Nat.id by lia.
    apply Hall, in_seq. lia.
Qed.

(** X13. [padPKCS7] for any block size: with block size 0 nothing is
    appended; with a block size of at least 1 the data is followed by [n]
    bytes of value [n], [1 <= n <= blockSize], and the length becomes a
    multiple of the block size.  [unpadPKCS7] removes that padding exactly
    when [n] is at most 16, and otherwise rejects it as an invalid padding
    length, whatever the data. *)
Theorem padPKCS7_block_size (data : list Z) (blockSize : nat) :
  padPKCS7 data 0 = data
  /\ ((1 <= blockSize)%nat ->
      exists n,
        (1 <= n <= blockSize)%nat
        /\ padPKCS7 data blockSize = data ++ repeat (Z.of_nat n) n
        /\ (length (padPKCS7 data blockSize) mod blockSize = 0)%nat
        /\ ((n <= 16)%nat -> unpadPKCS7 (padPKCS7 data blockSize) = Ok data)
        /\ ((16 < n)%nat ->
            unpadPKCS7 (padPKCS7 data blockSize) = Throw (InvalidPaddingLength (Z.of_nat n)))).
Proof.
  split.
  - unfold padPKCS7. cbn [Nat.sub repeat]. apply app_nil_r.
  - intros Hbs. unfold padPKCS7.
    pose proof (Nat.mod_upper_bound (length data) blockSize ltac:(lia)) as Hub.
    pose proof (Nat.div_mod_eq (length data) blockSize) as Hdm.
    set (n := (blockSize - length data mod blockSize)%nat) in *.
    exists n. split; [lia |]. split; [reflexivity |]. split.
    + rewrite length_app, repeat_length.
      replace (length data + n)%nat with (0 + (length data / blockSize + 1) * blockSize)%nat by lia.
      rewrite Nat.Div0.mod_add. apply Nat.mod_small. lia.
    + split; intros Hn; rewrite unpadPKCS7_app_repeat by lia.
      * destruct (Nat.leb_spec n 16); [reflexivity | lia].
      * destruct (Nat.leb_spec n 16); [lia | reflexivity].
Qed.

(** X14. What [unpadPKCS7] returns is what [padPKCS7] can have produced:
    the input is the returned data followed by [n] bytes of value [n], for
    some [n] in 1..16; when the input length is a multiple of 16, padding
    the returned data to blocks of 16 gives the input back. *)
Theorem unpadPKCS7_returns_padded (data plaintext : list Z) :
  unpadPKCS7 data = Ok plaintext ->
  (exists n, (1 <= n <= 16)%nat /\ data = plaintext ++ repeat (Z.of_nat n) n)
  /\ ((length data mod 16 = 0)%nat -> padPKCS7 plaintext 16 = data).
Proof.
  intros H. destruct (unpadPKCS7_Ok_inv data plaintext H) as (n & Hn & Hdata).
  split; [exists n; split; assumption |].
  intros Hmod. unfold padPKCS7.
  assert (Hlen : length data = (length plaintext + n)%nat)
    by (rewrite Hdata, length_app, repeat_length; reflexivity).
  rewrite Hlen in Hmod.
  pose proof (Nat.div_mod_eq (length plaintext + n) 16) as Hdm. rewrite Hmod in Hdm.
  pose proof (Nat.div_mod_eq (length plaintext) 16) as Hdp.
  pose proof (Nat.mod_upper_bound (length plaintext) 16 ltac:(lia)) as Hub.
  replace (16 - length plaintext mod 16)%nat with n by lia. symmetry. exact Hdata.
Qed.

Lemma unpadPKCS7_returns_padded_witness :
  unpadPKCS7 (repeat 16 16) = Ok []
  /\ (exists n, (1 <= n <= 16)%nat /\ repeat 16 16 = [] ++ repeat (Z.of_nat n) n)
  /\ ((length (repeat 16 16) mod 16 = 0)%nat -> padPKCS7 [] 16 = repeat 16 16).
Proof.
  split; [reflexivity |]. exact (unpadPKCS7_returns_padded (repeat 16 16) [] eq_refl).
Defined.

(** ** cbcMode.ts: what the four functions return or throw *)

Lemma aesEncryptBlock_returns block key :
  validKeyLength (length key) -> length block = 16%nat ->
  exists encrypted, aesEncryptBlock block key = Ok encrypted /\ length encrypted = 16%nat.
Proof.
  intros Hk Hb. unfold aesEncryptBlock.
  destruct (keyExpansion_Ok_valid key Hk) as [roundKeys ->]. cbn [bind].
  unfold bytesToState, BLOCK_SIZE_BYTES. rewrite Hb. cbn [Nat.eqb negb bind].
  eexists. split; reflexivity.
Qed.

Lemma aesDecryptBlock_returns block key :
  validKeyLength (length key) -> length block = 16%nat ->
  exists decrypted, aesDecryptBlock block key = Ok decrypted /\ length decrypted = 16%nat.
Proof.
  intros Hk Hb. unfold aesDecryptBlock.
  destruct (keyExpansion_Ok_valid key Hk) as [roundKeys ->]. cbn [bind].
  unfold bytesToState, BLOCK_SIZE_BYTES. rewrite Hb. cbn [Nat.eqb negb bind].
  eexists. split; reflexivity.
Qed.

Lemma aesEncryptBlock_invalid_key block key :
  ~ validKeyLength (length key) -> aesEncryptBlock block key = Throw (InvalidKeyLength (length key)).
Proof. intros Hk. unfold aesEncryptBlock. rewrite (keyExpansion_invalid key Hk). reflexivity. Qed.

Lemma aesDecryptBlock_invalid_key block key :
  ~ validKeyLength (length key) -> aesDecryptBlock block key = Throw (InvalidKeyLength (length key)).
Proof. intros Hk. unfold aesDecryptBlock. rewrite (keyExpansion_invalid key Hk). reflexivity. Qed.

Lemma validKeyLength_dec n : validKeyLength n \/ ~ validKeyLength n.
Proof. unfold validKeyLength. lia. Qed.

Lemma aesEncryptBlock_Ok_key block key encrypted :
  aesEncryptBlock block key = Ok encrypted -> validKeyLength (length key).
Proof.
  intros H. destruct (validKeyLength_dec (length key)) as [Hk | Hk]; [exact Hk |].
  rewrite (aesEncryptBlock_invalid_key block key Hk) in H. discriminate H.
Qed.

Lemma aesDecryptBlock_Ok_key block key decrypted :
  aesDecryptBlock block key = Ok decrypted -> validKeyLength (length key).
Proof.
  intros H. destruct (validKeyLength_dec (length key)) as [Hk | Hk]; [exact Hk |].
  rewrite (aesDecryptBlock_invalid_key block key Hk) in H. discriminate H.
Qed.

Lemma encrypt_loop_returns key :
  validKeyLength (length key) ->
  forall n padded previousBlock ciphertext,
    length padded = (16 * n)%nat -> length previousBlock = 16%nat ->
    exists blocks last,
      forEach (encryptCBCLoop padded key) (blockStarts (length padded)) (ciphertext, previousBlock)
      = Ok (ciphertext ++ blocks, last)
      /\ length blocks = (16 * n)%nat.
Proof.
  intros Hk. induction n as [| n IH]; intros padded previousBlock ciphertext Hlen Hprev.
  - destruct padded; [| discriminate Hlen]. exists [], previousBlock.
    cbn [length]. rewrite blockStarts_0, app_nil_r. split; reflexivity.
  - destruct (split_block padded n Hlen) as (b & rest & -> & Hb & Hrest).
    destruct (xorBytes_ok b previousBlock ltac:(congruence)) as (x & Hx & Hxl & _).
    destruct (aesEncryptBlock_returns x key Hk ltac:(congruence)) as (e & He & Hel).
    destruct (IH rest e (ciphertext ++ e) Hrest Hel) as (blocks & last & Henc & Hbl).
    exists (e ++ blocks), last.
    rewrite !length_app, Hb, Hel, Hbl, blockStarts_cons. cbn [forEach].
    split; [| lia].
    unfold encryptCBCLoop at 1. rewrite slice_first by exact Hb.
    rewrite Hx. cbn [bind]. rewrite He. cbn [bind].
    rewrite forEach_map.
    rewrite (forEach_ext _ (encryptCBCLoop rest key))
      by (intros vars i _; apply encryptCBCLoop_shift, Hb).
    rewrite Henc, app_assoc. reflexivity.
Qed.

Lemma decrypt_loop_returns key :
  validKeyLength (length key) ->
  forall n ciphertext previousBlock plaintext,
    length ciphertext = (16 * n)%nat -> length previousBlock = 16%nat ->
    exists blocks last,
      forEach (decryptCBCLoop ciphertext key) (blockStarts (length ciphertext))
              (plaintext, previousBlock)
      = Ok (plaintext ++ blocks, last)
      /\ length blocks = (16 * n)%nat.
Proof.
  intros Hk. induction n as [| n IH]; intros ciphertext previousBlock plaintext Hlen Hprev.
  - destruct ciphertext; [| discriminate Hlen]. exists [], previousBlock.
    cbn [length]. rewrite blockStarts_0, app_nil_r. split; reflexivity.
  - destruct (split_block ciphertext n Hlen) as (b & rest & -> & Hb & Hrest).
    destruct (aesDecryptBlock_returns b key Hk Hb) as (d & Hd & Hdl).
    destruct (xorBytes_ok d previousBlock ltac:(congruence)) as (x & Hx & Hxl & _).
    destruct (IH rest b (plaintext ++ x) Hrest Hb) as (blocks & last & Hdec & Hbl).
    exists (x ++ blocks), last.
    rewrite !length_app, Hb, Hxl, Hdl, Hbl, blockStarts_cons. cbn [forEach].
    split; [| lia].
    unfold decryptCBCLoop at 1. rewrite slice_first by exact Hb.
    rewrite Hd. cbn [bind]. rewrite Hx. cbn [bind].
    rewrite forEach_map.
    rewrite (forEach_ext _ (decryptCBCLoop rest key))
      by (intros vars i _; apply decryptCBCLoop_shift, Hb).
    rewrite Hdec, app_assoc. reflexivity.
Qed.

Lemma padded_first_block plaintext :
  exists b rest, padPKCS7 plaintext 16 = b ++ rest /\ length b = 16%nat
                 /\ length rest = (16 * (length plaintext / 16))%nat.
Proof. apply split_block. rewrite padPKCS7_length. reflexivity. Qed.

Lemma multiple_of_16 n : (n mod 16 = 0)%nat -> n = (16 * (n / 16))%nat.
Proof. intros H. pose proof (Nat.div_mod_eq n 16). lia. Qed.

Lemma encryptCBC_returns generateRandomBytes plaintext key iv :
  length (initVectorOf generateRandomBytes iv) = 16%nat -> validKeyLength (length key) ->
  exists ciphertext,
    encryptCBC generateRandomBytes plaintext key iv
    = Ok {| enc_iv := initVectorOf generateRandomBytes iv; enc_ciphertext := ciphertext |}
    /\ length ciphertext = (16 * (length plaintext / 16 + 1))%nat.
Proof.
  intros Hiv Hk. unfold encryptCBC. fold (initVectorOf generateRandomBytes iv).
  unfold BLOCK_SIZE_BYTES at 1. rewrite Hiv. cbn [Nat.eqb negb]. unfold BLOCK_SIZE_BYTES at 1 2.
  destruct (encrypt_loop_returns key Hk (length plaintext / 16 + 1) (padPKCS7 plaintext 16)
              (initVectorOf generateRandomBytes iv) [])
    as (blocks & last & Hloop & Hbl);
    [rewrite padPKCS7_length; f_equal; lia | exact Hiv |].
  rewrite Hloop. cbn [bind app]. exists blocks. split; [reflexivity | exact Hbl].
Qed.

(** X15. What [encryptCBC] does, on any numbers: an IV (given or drawn)
    that does not hold 16 entries is refused first, whatever the key; with
    a 16-entry IV a key of a length other than 16, 24, 32 is refused with
    the invalid-key-length error; otherwise the call returns the IV used
    and a ciphertext of [16 * (floor(|plaintext| / 16) + 1)] entries, always
    longer than the plaintext. *)
Theorem encryptCBC_outcome (generateRandomBytes : RandomSource)
    (plaintext key : list Z) (iv : option (list Z)) :
  (length (initVectorOf generateRandomBytes iv) <> 16%nat ->
   encryptCBC generateRandomBytes plaintext key iv
   = Throw (InvalidIVLength (length (initVectorOf generateRandomBytes iv))))
  /\ (length (initVectorOf generateRandomBytes iv) = 16%nat ->
      ~ validKeyLength (length key) ->
      encryptCBC generateRandomBytes plaintext key iv = Throw (InvalidKeyLength (length key)))
  /\ (length (initVectorOf generateRandomBytes iv) = 16%nat ->
      validKeyLength (length key) ->
      exists ciphertext,
        encryptCBC generateRandomBytes plaintext key iv
        = Ok {| enc_iv := initVectorOf generateRandomBytes iv; enc_ciphertext := ciphertext |}
        /\ length ciphertext = (16 * (length plaintext / 16 + 1))%nat
        /\ (length plaintext < length ciphertext)%nat).
Proof.
  split; [| split].
  - intros Hiv. unfold encryptCBC. fold (initVectorOf generateRandomBytes iv).
    unfold BLOCK_SIZE_BYTES at 1.
    destruct (Nat.eqb_spec (length (initVectorOf generateRandomBytes iv)) 16);
      [contradiction | reflexivity].
  - intros Hiv Hk. unfold encryptCBC. fold (initVectorOf generateRandomBytes iv).
    unfold BLOCK_SIZE_BYTES at 1. rewrite Hiv. cbn [Nat.eqb negb]. unfold BLOCK_SIZE_BYTES at 1 2.
    destruct (padded_first_block plaintext) as (b & rest & -> & Hb & _).
    rewrite length_app, Hb, blockStarts_cons. cbn [forEach].
    unfold encryptCBCLoop at 1. rewrite slice_first by exact Hb.
    destruct (xorBytes_ok b (initVectorOf generateRandomBytes iv) ltac:(congruence))
      as (x & -> & _). cbn [bind].
    rewrite (aesEncryptBlock_invalid_key x key Hk). reflexivity.
  - intros Hiv Hk.
    destruct (encryptCBC_returns generateRandomBytes plaintext key iv Hiv Hk)
      as (ciphertext & Henc & Hlen).
    exists ciphertext. split; [exact Henc |]. split; [exact Hlen |].
    pose proof (Nat.div_mod_eq (length plaintext) 16).
    pose proof (Nat.mod_upper_bound (length plaintext) 16 ltac:(lia)). lia.
Qed.

(** X16. [decryptCBC] on a 16-entry IV and a ciphertext whose length is a
    multiple of 16: a key of a wrong length is refused with the
    invalid-key-length error as soon as there is a block to decrypt; with a
    key of 16, 24 or 32 entries the only possible failure is the generic
    invalid-padding error, and a returned plaintext is shorter than the
    ciphertext by 1 to 16 entries. *)
Theorem decryptCBC_outcome (ciphertext key iv : list Z) :
  length iv = 16%nat -> (length ciphertext mod 16 = 0)%nat ->
  (~ validKeyLength (length key) -> (0 < length ciphertext)%nat ->
   decryptCBC ciphertext key iv = Throw (InvalidKeyLength (length key)))
  /\ (validKeyLength (length key) ->
      decryptCBC ciphertext key iv = Throw DecryptionFailedInvalidPadding
      \/ exists plaintext n,
           decryptCBC ciphertext key iv = Ok plaintext
           /\ (1 <= n <= 16)%nat /\ length ciphertext = (length plaintext + n)%nat).
Proof.
  intros Hiv Hmod. unfold decryptCBC, BLOCK_SIZE_BYTES.
  rewrite Hiv, Hmod. cbn [Nat.eqb negb]. split.
  - intros Hk Hpos. apply multiple_of_16 in Hmod.
    destruct (length ciphertext / 16)%nat as [| n] eqn:Hq; [lia |].
    destruct (split_block ciphertext n Hmod) as (b & rest & -> & Hb & _).
    rewrite length_app, Hb, blockStarts_cons. cbn [forEach].
    unfold decryptCBCLoop at 1. rewrite slice_first by exact Hb.
    rewrite (aesDecryptBlock_invalid_key b key Hk). reflexivity.
  - intros Hk.
    destruct (decrypt_loop_returns key Hk (length ciphertext / 16) ciphertext iv []
                (multiple_of_16 _ Hmod) Hiv) as (padded & last & Hloop & Hpl).
    rewrite Hloop. cbn [bind app].
    destruct (unpadPKCS7 padded) as [plaintext | e] eqn:Hunpad; cbn [tryCatch].
    + right. destruct (unpadPKCS7_Ok_inv padded plaintext Hunpad) as (n & Hn & Hpadded).
      exists plaintext, n. split; [reflexivity |]. split; [exact Hn |].
      rewrite (multiple_of_16 _ Hmod), <- Hpl, Hpadded, length_app, repeat_length. reflexivity.
    + left. reflexivity.
Qed.

Lemma decryptCBC_outcome_witness :
  length zeroBlock = 16%nat /\ (length fipsCipher mod 16 = 0)%nat
  /\ (~ validKeyLength (length fipsKey) -> (0 < length fipsCipher)%nat ->
      decryptCBC fipsCipher fipsKey zeroBlock = Throw (InvalidKeyLength (length fipsKey)))
  /\ (validKeyLength (length fipsKey) ->
      decryptCBC fipsCipher fipsKey zeroBlock = Throw DecryptionFailedInvalidPadding
      \/ exists plaintext n,
           decryptCBC fipsCipher fipsKey zeroBlock = Ok plaintext
           /\ (1 <= n <= 16)%nat /\ length fipsCipher = (length plaintext + n)%nat).
Proof.
  split; [reflexivity |]. split; [reflexivity |].
  exact (decryptCBC_outcome fipsCipher fipsKey zeroBlock eq_refl eq_refl).
Defined.

(** ** cbcMode.ts: the recorded steps *)

Lemma firstn_plus_split {A : Type} (a b : nat) (l : list A) :
  firstn (a + b) l = firstn a l ++ firstn b (skipn a l).
Proof.
  revert l. induction a as [| a IH]; intros l; [reflexivity |].
  destruct l as [| x l]; [cbn [Nat.add firstn skipn app]; rewrite firstn_nil; reflexivity |].
  cbn [Nat.add firstn skipn app]. rewrite IH. reflexivity.
Qed.

Lemma block_slice {A : Type} (l : list A) a m :
  slice l (a * 16) (a * 16 + 16) ++ firstn (m * 16) (skipn (Datatypes.S a * 16) l)
  = firstn (Datatypes.S m * 16) (skipn (a * 16) l).
Proof.
  unfold slice. replace (a * 16 + 16 - a * 16)%nat with 16%nat by lia.
  replace (Datatypes.S m * 16)%nat with (16 + m * 16)%nat by lia.
  rewrite firstn_plus_split, skipn_skipn. first [reflexivity | do 3 f_equal; lia].
Qed.

Lemma blockStarts_seq len :
  blockStarts len = map (fun k => k * BLOCK_SIZE_BYTES)%nat (seq 0 ((len + 15) / 16)).
Proof. reflexivity. Qed.

Lemma whole_list {A : Type} (l : list A) :
  firstn ((length l + 15) / 16 * 16) (skipn (0 * 16) l) = l.
Proof.
  cbn [Nat.mul]. rewrite skipn_O. apply firstn_all2.
  pose proof (Nat.div_mod_eq (length l + 15) 16).
  pose proof (Nat.mod_upper_bound (length l + 15) 16 ltac:(lia)). lia.
Qed.

Lemma encrypt_steps_loop padded key : forall m a blocks ciphertext previousBlock vars,
  forEach (encryptCBCWithStepsLoop padded key)
          (map (fun k => k * BLOCK_SIZE_BYTES)%nat (seq a m)) (blocks, ciphertext, previousBlock)
  = Ok vars ->
  exists new,
    fst (fst vars) = blocks ++ new
    /\ snd (fst vars) = ciphertext ++ concat (map es_encrypted new)
    /\ map es_index new = seq a m
    /\ concat (map es_plainBlock new) = firstn (m * 16) (skipn (a * 16) padded)
    /\ encryptChain key previousBlock new.
Proof.
  induction m as [| m IH]; intros a blocks ciphertext previousBlock vars Hloop.
  - cbn [seq map forEach] in Hloop. injection Hloop as <-. exists [].
    cbn [fst snd map concat encryptChain Nat.mul firstn]. rewrite !app_nil_r. repeat split.
  - cbn [seq map forEach] in Hloop. unfold encryptCBCWithStepsLoop at 1 in Hloop.
    change BLOCK_SIZE_BYTES with 16%nat in Hloop.
    destruct (xorBytes _ previousBlock) as [x |] eqn:Hx; cbn [bind] in Hloop; [| discriminate].
    destruct (aesEncryptBlock x key) as [e |] eqn:He; cbn [bind] in Hloop; [| discriminate].
    destruct (IH _ _ _ _ _ Hloop) as (new & Hb & Hc & Hi & Hp & Hchain).
    match type of Hb with _ = (_ ++ [?step]) ++ _ => exists (step :: new) end. rewrite Hb, Hc.
    cbn [map concat encryptChain es_index es_plainBlock es_xorWithPrevious es_encrypted seq].
    rewrite <- !app_assoc. cbn [app]. rewrite Hi, Hp, Nat.div_mul by lia.
    repeat split; try assumption. apply block_slice.
Qed.

Lemma decrypt_steps_loop ciphertext key : forall m a blocks padded previousBlock vars,
  forEach (decryptCBCWithStepsLoop ciphertext key)
          (map (fun k => k * BLOCK_SIZE_BYTES)%nat (seq a m)) (blocks, padded, previousBlock)
  = Ok vars ->
  exists new,
    fst (fst vars) = blocks ++ new
    /\ snd (fst vars) = padded ++ concat (map ds_xorWithPrevious new)
    /\ map ds_index new = seq a m
    /\ concat (map ds_cipherBlock new) = firstn (m * 16) (skipn (a * 16) ciphertext)
    /\ decryptChain key previousBlock new.
Proof.
  induction m as [| m IH]; intros a blocks padded previousBlock vars Hloop.
  - cbn [seq map forEach] in Hloop. injection Hloop as <-. exists [].
    cbn [fst snd map concat decryptChain Nat.mul firstn]. rewrite !app_nil_r. repeat split.
  - cbn [seq map forEach] in Hloop. unfold decryptCBCWithStepsLoop at 1 in Hloop.
    change BLOCK_SIZE_BYTES with 16%nat in Hloop.
    destruct (aesDecryptBlock _ key) as [d |] eqn:Hd; cbn [bind] in Hloop; [| discriminate].
    destruct (xorBytes d previousBlock) as [x |] eqn:Hx; cbn [bind] in Hloop; [| discriminate].
    destruct (IH _ _ _ _ _ Hloop) as (new & Hb & Hc & Hi & Hp & Hchain).
    match type of Hb with _ = (_ ++ [?step]) ++ _ => exists (step :: new) end. rewrite Hb, Hc.
    cbn [map concat decryptChain ds_index ds_cipherBlock ds_decrypted ds_xorWithPrevious seq].
    rewrite <- !app_assoc. cbn [app]. rewrite Hi, Hp, Nat.div_mul by lia.
    repeat split; try assumption. apply block_slice.
Qed.

Lemma padded_block_count plaintext :
  ((length (padPKCS7 plaintext 16) + 15) / 16 = length plaintext / 16 + 1)%nat.
Proof.
  rewrite padPKCS7_length.
  replace (16 * Datatypes.S (length plaintext / 16) + 15)%nat
    with (15 + (length plaintext / 16 + 1) * 16)%nat by lia.
  rewrite Nat.div_add by lia. reflexivity.
Qed.

Lemma decryptChain_lengths key : forall blocks previousBlock,
  decryptChain key previousBlock blocks ->
  length (concat (map ds_cipherBlock blocks)) = (16 * length blocks)%nat
  /\ (blocks <> [] -> length previousBlock = 16%nat /\ validKeyLength (length key)).
Proof.
  induction blocks as [| step rest IH]; intros previousBlock Hchain.
  - split; [reflexivity | congruence].
  - cbn [decryptChain] in Hchain. destruct Hchain as (Hd & Hx & Hrest).
    pose proof (aesDecryptBlock_Ok_key _ _ _ Hd) as Hk.
    apply aesDecryptBlock_Ok_length in Hd. apply xorBytes_Ok_length in Hx.
    destruct (IH _ Hrest) as [Hlen _].
    cbn [map concat length]. rewrite length_app, Hlen. split; [lia |].
    intros _. split; [lia | exact Hk].
Qed.

Lemma encryptChain_first key previousBlock step rest :
  encryptChain key previousBlock (step :: rest) ->
  length previousBlock = length (es_plainBlock step) /\ validKeyLength (length key).
Proof.
  cbn [encryptChain]. intros (Hx & He & _).
  apply aesEncryptBlock_Ok_key in He. apply xorBytes_Ok_length in Hx. split; [lia | exact He].
Qed.

(** X17. The record [encryptCBCWithSteps] returns is consistent: it holds
    the IV and plaintext it was given and the padded plaintext; its steps
    are numbered 0, 1, ... and there are [floor(|plaintext| / 16) + 1] of
    them; their plain blocks put together are the padded plaintext, their
    encrypted blocks put together are the ciphertext; each step XORs its
    plain block with the previous encrypted block (the IV for step 0) and
    encrypts the result.  A record is returned only for an IV of 16 entries
    and a key of 16, 24 or 32. *)
Theorem encryptCBCWithSteps_record (plaintext key iv : list Z) (result : EncryptSteps) :
  encryptCBCWithSteps plaintext key iv = Ok result ->
  esteps_iv result = iv
  /\ esteps_plaintext result = plaintext
  /\ esteps_paddedPlaintext result = padPKCS7 plaintext 16
  /\ map es_index (esteps_blocks result) = seq 0 (length plaintext / 16 + 1)
  /\ concat (map es_plainBlock (esteps_blocks result)) = esteps_paddedPlaintext result
  /\ concat (map es_encrypted (esteps_blocks result)) = esteps_ciphertext result
  /\ encryptChain key iv (esteps_blocks result)
  /\ length iv = 16%nat /\ validKeyLength (length key).
Proof.
  unfold encryptCBCWithSteps, BLOCK_SIZE_BYTES. rewrite blockStarts_seq.
  destruct (forEach _ _ _) as [[[blocks ciphertext] last] |] eqn:Hloop; cbn [bind];
    [| discriminate].
  intros H. injection H as <-.
  cbn [esteps_iv esteps_plaintext esteps_paddedPlaintext esteps_blocks esteps_ciphertext].
  destruct (encrypt_steps_loop _ _ _ _ _ _ _ _ Hloop) as (new & Hb & Hc & Hi & Hp & Hchain).
  cbn [fst snd app] in Hb, Hc. subst blocks ciphertext.
  rewrite whole_list in Hp. rewrite padded_block_count in Hi.
  repeat split; try assumption; try reflexivity.
  - destruct new as [| step rest]; [destruct (length plaintext / 16)%nat; discriminate Hi |].
    destruct (padded_first_block plaintext) as (b & rest' & Hpad & Hbl & _).
    destruct (encryptChain_first _ _ _ _ Hchain) as [Hiv _]. rewrite Hiv.
    cbn [encryptChain] in Hchain. destruct Hchain as (Hx & He & _).
    apply aesEncryptBlock_Ok_length in He. apply xorBytes_Ok_length in Hx. lia.
  - destruct new as [| step rest]; [destruct (length plaintext / 16)%nat; discriminate Hi |].
    exact (proj2 (encryptChain_first _ _ _ _ Hchain)).
Qed.

Lemma encryptCBCWithSteps_record_witness :
  encryptCBCWithSteps [] fipsKey zeroBlock = Ok emptyMessageSteps
  /\ esteps_iv emptyMessageSteps = zeroBlock
  /\ esteps_plaintext emptyMessageSteps = []
  /\ esteps_paddedPlaintext emptyMessageSteps = padPKCS7 [] 16
  /\ map es_index (esteps_blocks emptyMessageSteps) = seq 0 (length (@nil Z) / 16 + 1)
  /\ concat (map es_plainBlock (esteps_blocks emptyMessageSteps))
     = esteps_paddedPlaintext emptyMessageSteps
  /\ concat (map es_encrypted (esteps_blocks emptyMessageSteps))
     = esteps_ciphertext emptyMessageSteps
  /\ encryptChain fipsKey zeroBlock (esteps_blocks emptyMessageSteps)
  /\ length zeroBlock = 16%nat /\ validKeyLength (length fipsKey).
Proof.
  assert (H : encryptCBCWithSteps [] fipsKey zeroBlock = Ok emptyMessageSteps)
    by (vm_compute; reflexivity).
  split; [exact H |]. exact (encryptCBCWithSteps_record [] fipsKey zeroBlock emptyMessageSteps H).
Defined.

(** X18. [encryptCBCWithSteps] makes no check of its own.  An IV that does
    not hold 16 entries makes the first XOR fail with the length-mismatch
    error of [xorBytes] (16 against the IV length), not with the invalid-IV
    error of [encryptCBC], and this whatever the key; with a 16-entry IV, a
    key of a wrong length gives the invalid-key-length error, and any other
    key a record. *)
Theorem encryptCBCWithSteps_outcome (plaintext key iv : list Z) :
  (length iv <> 16%nat ->
   encryptCBCWithSteps plaintext key iv = Throw (LengthMismatch 16 (length iv)))
  /\ (length iv = 16%nat -> ~ validKeyLength (length key) ->
      encryptCBCWithSteps plaintext key iv = Throw (InvalidKeyLength (length key)))
  /\ (length iv = 16%nat -> validKeyLength (length key) ->
      exists result, encryptCBCWithSteps plaintext key iv = Ok result).
Proof.
  split; [| split].
  - intros Hiv. unfold encryptCBCWithSteps, BLOCK_SIZE_BYTES.
    destruct (padded_first_block plaintext) as (b & rest & -> & Hb & _).
    rewrite length_app, Hb, blockStarts_cons. cbn [forEach].
    unfold encryptCBCWithStepsLoop at 1. rewrite slice_first by exact Hb.
    unfold xorBytes. rewrite Hb.
    destruct (Nat.eqb_spec 16 (length iv)) as [Heq | _]; [congruence | reflexivity].
  - intros Hiv Hk. unfold encryptCBCWithSteps, BLOCK_SIZE_BYTES.
    destruct (padded_first_block plaintext) as (b & rest & -> & Hb & _).
    rewrite length_app, Hb, blockStarts_cons. cbn [forEach].
    unfold encryptCBCWithStepsLoop at 1. rewrite slice_first by exact Hb.
    destruct (xorBytes_ok b iv ltac:(congruence)) as (x & -> & _). cbn [bind].
    rewrite (aesEncryptBlock_invalid_key x key Hk). reflexivity.
  - intros Hiv Hk. unfold encryptCBCWithSteps, BLOCK_SIZE_BYTES.
    destruct (encrypt_loop_returns key Hk (length plaintext / 16 + 1) (padPKCS7 plaintext 16) iv [])
      as (c & last & Hloop & _); [rewrite padPKCS7_length; f_equal; lia | exact Hiv |].
    pose proof (encrypt_loops_agree (padPKCS7 plaintext 16) key
                  (blockStarts (length (padPKCS7 plaintext 16))) ([], iv)
                  (@nil EncryptBlockStep, [], iv) (conj eq_refl eq_refl)) as Hagree.
    rewrite Hloop in Hagree.
    destruct (forEach (encryptCBCWithStepsLoop _ _) _ _) as [[[blocks c'] last'] |];
      [| destruct Hagree].
    cbn [bind]. eexists. reflexivity.
Qed.

(** X19. The record [decryptCBCWithSteps] returns is consistent: it holds
    the IV and ciphertext it was given; its steps are numbered 0, 1, ...,
    one for every 16 entries of the ciphertext; their cipher blocks put
    together are the ciphertext, their XOR results put together are the
    padded plaintext, of which the plaintext is the unpadded form; each step
    decrypts its cipher block and XORs the result with the previous cipher
    block (the IV for step 0).  Although the function checks neither, a
    record is returned only for an IV of 16 entries, a key of 16, 24 or 32
    and a non-empty ciphertext made of whole blocks. *)
Theorem decryptCBCWithSteps_record (ciphertext key iv : list Z) (result : DecryptSteps) :
  decryptCBCWithSteps ciphertext key iv = Ok result ->
  dsteps_iv result = iv
  /\ dsteps_ciphertext result = ciphertext
  /\ map ds_index (dsteps_blocks result) = seq 0 (length ciphertext / 16)
  /\ concat (map ds_cipherBlock (dsteps_blocks result)) = ciphertext
  /\ concat (map ds_xorWithPrevious (dsteps_blocks result)) = dsteps_paddedPlaintext result
  /\ decryptChain key iv (dsteps_blocks result)
  /\ unpadPKCS7 (dsteps_paddedPlaintext result) = Ok (dsteps_plaintext result)
  /\ length iv = 16%nat /\ validKeyLength (length key)
  /\ (0 < length ciphertext)%nat /\ (length ciphertext mod 16 = 0)%nat.
Proof.
  unfold decryptCBCWithSteps. rewrite blockStarts_seq.
  destruct (forEach _ _ _) as [[[blocks padded] last] |] eqn:Hloop; cbn [bind tryCatch];
    [| discriminate].
  destruct (unpadPKCS7 padded) as [plaintext |] eqn:Hunpad; cbn [bind tryCatch]; [| discriminate].
  intros H. injection H as <-.
  cbn [dsteps_iv dsteps_ciphertext dsteps_blocks dsteps_paddedPlaintext dsteps_plaintext].
  destruct (decrypt_steps_loop _ _ _ _ _ _ _ _ Hloop) as (new & Hb & Hc & Hi & Hp & Hchain).
  cbn [fst snd app] in Hb, Hc. subst blocks padded.
  rewrite whole_list in Hp.
  destruct (decryptChain_lengths key new iv Hchain) as [Hlen Hfirst].
  rewrite Hp in Hlen.
  assert (Hnew : new <> []).
  { intros ->. cbn [map concat] in Hunpad. rewrite unpadPKCS7_nil in Hunpad. discriminate. }
  destruct (Hfirst Hnew) as [Hiv Hk].
  assert (Hcount : length new = (length ciphertext / 16)%nat)
    by (rewrite Hlen, Nat.mul_comm, Nat.div_mul; lia).
  assert (Hpos : (0 < length new)%nat) by (destruct new; [congruence | cbn [length]; lia]).
  repeat split; try assumption; try reflexivity.
  - rewrite Hi. f_equal. apply (f_equal (@length nat)) in Hi.
    rewrite length_map, length_seq in Hi. lia.
  - lia.
  - rewrite Hlen, Nat.mul_comm. apply Nat.Div0.mod_mul.
Qed.

Lemma decryptCBCWithSteps_record_witness :
  decryptCBCWithSteps (esteps_ciphertext emptyMessageSteps) fipsKey zeroBlock
  = Ok emptyMessageDecryptSteps
  /\ dsteps_iv emptyMessageDecryptSteps = zeroBlock
  /\ dsteps_ciphertext emptyMessageDecryptSteps = esteps_ciphertext emptyMessageSteps
  /\ map ds_index (dsteps_blocks emptyMessageDecryptSteps)
     = seq 0 (length (esteps_ciphertext emptyMessageSteps) / 16)
  /\ concat (map ds_cipherBlock (dsteps_blocks emptyMessageDecryptSteps))
     = esteps_ciphertext emptyMessageSteps
  /\ concat (map ds_xorWithPrevious (dsteps_blocks emptyMessageDecryptSteps))
     = dsteps_paddedPlaintext emptyMessageDecryptSteps
  /\ decryptChain fipsKey zeroBlock (dsteps_blocks emptyMessageDecryptSteps)
  /\ unpadPKCS7 (dsteps_paddedPlaintext emptyMessageDecryptSteps)
     = Ok (dsteps_plaintext emptyMessageDecryptSteps)
  /\ length zeroBlock = 16%nat /\ validKeyLength (length fipsKey)
  /\ (0 < length (esteps_ciphertext emptyMessageSteps))%nat
  /\ (length (esteps_ciphertext emptyMessageSteps) mod 16 = 0)%nat.
Proof.
  assert (H : decryptCBCWithSteps (esteps_ciphertext emptyMessageSteps) fipsKey zeroBlock
              = Ok emptyMessageDecryptSteps) by (vm_compute; reflexivity).
  split; [exact H |].
  exact (decryptCBCWithSteps_record _ fipsKey zeroBlock emptyMessageDecryptSteps H).
Defined.

(** ** index.ts *)



Lemma isValidKeyLength_spec {A : Type} (key : list A) :
  isValidKeyLength key = true <-> validKeyLength (length key).
Proof.
  unfold isValidKeyLength, validKeyLength.
  destruct (Nat.eqb_spec (length key) 16), (Nat.eqb_spec (length key) 24),
    (Nat.eqb_spec (length key) 32); cbn [orb]; split; try tauto; try discriminate; lia.
Qed.

(** A key string the UI accepts: hexadecimal digits that make 16, 24 or 32
    bytes. *)
Lemma accepted_key key :
  isValidHex key = true -> isValidKeyLength (hexToBytes key) = true ->
  exists keyBytes,
    hexToBytes key = map Some keyBytes /\ Forall byte keyBytes
    /\ validKeyLength (length keyBytes).
Proof.
  intros Hhex Hlen. destruct (isValidHex_hexToBytes key Hhex) as (keyBytes & Hk & Hb & _).
  exists keyBytes. split; [exact Hk |]. split; [exact Hb |].
  apply isValidKeyLength_spec in Hlen. rewrite Hk, length_map in Hlen. exact Hlen.
Qed.

Lemma zeroSource_ok : randomBytesOk zeroSource.
Proof.
  intros n. unfold zeroSource. split; [apply repeat_length |].
  apply Forall_forall. intros x Hx. apply repeat_spec in Hx. subst x. apply byte_0.
Qed.




Lemma educational_blocks block key blockBytes keyBytes :
  hexToBytes block = map Some blockBytes -> Forall byte blockBytes ->
  length blockBytes = 16%nat ->
  hexToBytes key = map Some keyBytes -> Forall byte keyBytes ->
  validKeyLength (length keyBytes) ->
  exists encrypted,
    aesEducational.encryptBlock block key = Some (Ok (bytesToHex encrypted))
    /\ length encrypted = 16%nat /\ Forall byte encrypted
    /\ aesEducational.decryptBlock (bytesToHex encrypted) key = Some (Ok (bytesToHex blockBytes)).
Proof.
  intros Hblock Hbb Hbl Hkey Hkb Hkl.
  destruct (aesEncryptBlock_ok blockBytes keyBytes Hbl Hbb Hkl Hkb) as (e & He & Hel & Heb & Hd).
  exists e. unfold aesEducational.encryptBlock, aesEducational.decryptBlock.
  rewrite Hblock, Hkey, hexToBytes_bytesToHex by exact Heb.
  rewrite !numbers_map_Some, He, Hd. cbn [bind]. repeat split; assumption.
Qed.

(** X21. The block functions of the educational interface: for a block
    string of hexadecimal digits making 16 bytes and an accepted key
    string, [encryptBlock] returns 32 hexadecimal digits, and [decryptBlock]
    sends them back to the block, written in lower case, two digits a byte,
    without white space. *)
Theorem decryptBlock_encryptBlock (block key : string) :
  isValidHex block = true -> length (hexToBytes block) = 16%nat ->
  isValidHex key = true -> aesEducational.isValidKeyLength key = true ->
  exists encrypted blockBytes,
    aesEducational.encryptBlock block key = Some (Ok encrypted)
    /\ String.length encrypted = 32%nat /\ isValidHex encrypted = true
    /\ hexToBytes block = map Some blockBytes
    /\ aesEducational.decryptBlock encrypted key = Some (Ok (bytesToHex blockBytes)).
Proof.
  intros Hbhex Hblen Hkhex Hklen.
  destruct (accepted_key key Hkhex Hklen) as (keyBytes & Hkey & Hkb & Hkl).
  destruct (isValidHex_hexToBytes block Hbhex) as (blockBytes & Hblock & Hbb & _).
  rewrite Hblock, length_map in Hblen.
  destruct (educational_blocks block key blockBytes keyBytes Hblock Hbb Hblen Hkey Hkb Hkl)
    as (e & Henc & Hel & Heb & Hdec).
  destruct (bytesToHex_facts e Heb) as (_ & Hhexlen & _ & _).
  exists (bytesToHex e), blockBytes. split; [exact Henc |].
  split; [rewrite Hhexlen, Hel; reflexivity |].
  split; [apply isValidHex_bytesToHex; [exact Heb | intros ->; discriminate Hel] |].
  split; [exact Hblock | exact Hdec].
Qed.

Lemma decryptBlock_encryptBlock_witness :
  isValidHex fipsBlockHex = true /\ length (hexToBytes fipsBlockHex) = 16%nat
  /\ isValidHex fipsKeyHex = true /\ aesEducational.isValidKeyLength fipsKeyHex = true
  /\ exists encrypted blockBytes,
       aesEducational.encryptBlock fipsBlockHex fipsKeyHex = Some (Ok encrypted)
       /\ String.length encrypted = 32%nat /\ isValidHex encrypted = true
       /\ hexToBytes fipsBlockHex = map Some blockBytes
       /\ aesEducational.decryptBlock encrypted fipsKeyHex = Some (Ok (bytesToHex blockBytes)).
Proof.
  split; [reflexivity |]. split; [reflexivity |]. split; [reflexivity |]. split; [reflexivity |].
  exact (decryptBlock_encryptBlock fipsBlockHex fipsKeyHex eq_refl eq_refl eq_refl eq_refl).
Defined.

Lemma generated_hex generateRandomBytes n :
  randomBytesOk generateRandomBytes -> (0 < n)%nat ->
  hexToBytes (bytesToHex (generateRandomBytes n)) = map Some (generateRandomBytes n)
  /\ length (hexToBytes (bytesToHex (generateRandomBytes n))) = n
  /\ String.length (bytesToHex (generateRandomBytes n)) = (2 * n)%nat
  /\ isValidHex (bytesToHex (generateRandomBytes n)) = true.
Proof.
  intros Hrnd Hn. destruct (Hrnd n) as [Hl Hb].
  destruct (bytesToHex_facts _ Hb) as (_ & Hhexlen & _ & _).
  rewrite hexToBytes_bytesToHex, length_map, Hhexlen, Hl by exact Hb.
  repeat split. apply isValidHex_bytesToHex; [exact Hb |].
  intros Hnil. rewrite Hnil in Hl. cbn [length] in Hl. lia.
Qed.

(** X22. Key and IV generation in the educational interface, for a random
    source giving bytes: [generateKey] returns, for 128, 192 and 256 bits, a
    string of [bits / 4] hexadecimal digits that [isValidHex] and
    [isValidKeyLength] accept and whose [getKeySize] is [bits], and throws
    for every other number; [generateIV] returns 32 hexadecimal digits
    making 16 bytes; and [getKeySize] is [null] exactly on the strings
    [isValidKeyLength] refuses. *)
Theorem generateKey_getKeySize (generateRandomBytes : RandomSource) :
  randomBytesOk generateRandomBytes ->
  (forall bits, bits = 128 \/ bits = 192 \/ bits = 256 ->
     exists key,
       aesEducational.generateKey generateRandomBytes bits = KeyHex key
       /\ Z.of_nat (String.length key) = bits / 4
       /\ isValidHex key = true
       /\ aesEducational.isValidKeyLength key = true
       /\ aesEducational.getKeySize key = Some bits)
  /\ (forall bits, bits <> 128 -> bits <> 192 -> bits <> 256 ->
        aesEducational.generateKey generateRandomBytes bits = ThrowInvalidKeySize bits)
  /\ (String.length (aesEducational.generateIV generateRandomBytes) = 32%nat
      /\ isValidHex (aesEducational.generateIV generateRandomBytes) = true
      /\ length (hexToBytes (aesEducational.generateIV generateRandomBytes)) = 16%nat)
  /\ (forall key, aesEducational.getKeySize key = None
                  <-> aesEducational.isValidKeyLength key = false).
Proof.
  intros Hrnd. split; [| split; [| split]].
  - intros bits Hbits.
    unfold aesEducational.generateKey, aesEducational.isValidKeyLength,
      aesEducational.getKeySize, isValidKeyLength.
    destruct Hbits as [-> | [-> | ->]]; cbn [Z.eqb Pos.eqb]; eexists; (split; [reflexivity |]).
    + destruct (generated_hex generateRandomBytes 16 Hrnd ltac:(lia)) as (_ & -> & -> & ->).
      repeat split.
    + destruct (generated_hex generateRandomBytes 24 Hrnd ltac:(lia)) as (_ & -> & -> & ->).
      repeat split.
    + destruct (generated_hex generateRandomBytes 32 Hrnd ltac:(lia)) as (_ & -> & -> & ->).
      repeat split.
  - intros bits H1 H2 H3. unfold aesEducational.generateKey.
    destruct (Z.eqb_spec bits 128); [contradiction |].
    destruct (Z.eqb_spec bits 192); [contradiction |].
    destruct (Z.eqb_spec bits 256); [contradiction |]. reflexivity.
  - unfold aesEducational.generateIV, BLOCK_SIZE_BYTES.
    destruct (generated_hex generateRandomBytes 16 Hrnd ltac:(lia)) as (_ & -> & -> & ->).
    repeat split.
  - intros key. unfold aesEducational.getKeySize, aesEducational.isValidKeyLength,
      isValidKeyLength.
    destruct (length (hexToBytes key) =? 16)%nat; [split; discriminate |].
    destruct (length (hexToBytes key) =? 24)%nat; [split; discriminate |].
    destruct (length (hexToBytes key) =? 32)%nat; [split; discriminate |].
    split; reflexivity.
Qed.

Lemma generateKey_getKeySize_witness :
  randomBytesOk zeroSource
  /\ (forall bits, bits = 128 \/ bits = 192 \/ bits = 256 ->
        exists key,
          aesEducational.generateKey zeroSource bits = KeyHex key
          /\ Z.of_nat (String.length key) = bits / 4
          /\ isValidHex key = true
          /\ aesEducational.isValidKeyLength key = true
          /\ aesEducational.getKeySize key = Some bits)
  /\ (forall bits, bits <> 128 -> bits <> 192 -> bits <> 256 ->
        aesEducational.generateKey zeroSource bits = ThrowInvalidKeySize bits)
  /\ (String.length (aesEducational.generateIV zeroSource) = 32%nat
      /\ isValidHex (aesEducational.generateIV zeroSource) = true
      /\ length (hexToBytes (aesEducational.generateIV zeroSource)) = 16%nat)
  /\ (forall key, aesEducational.getKeySize key = None
                  <-> aesEducational.isValidKeyLength key = false).
Proof.
  split; [exact zeroSource_ok |]. exact (generateKey_getKeySize zeroSource zeroSource_ok).
Defined.

(** ** keyExpansion.ts: the schedule *)


Lemma nth_imap_lt {A B : Type} (f : nat -> A -> B) l j d d' :
  (j < length l)%nat -> nth j (imap f l) d = f j (nth j l d').
Proof.
  revert f j. induction l as [| a l IH]; intros f [| j] Hj; cbn in Hj |- *; try lia;
    [reflexivity |].
  rewrite IH by lia. reflexivity.
Qed.


















(** ** keyExpansion.ts: displayKeyExpansionSteps *)

Lemma map_imap_compose {A B C : Type} (g : B -> C) (f : nat -> A -> B) l :
  map g (imap f l) = imap (fun i x => g (f i x)) l.
Proof.
  revert f. induction l as [| x l IH]; intros f; [reflexivity |].
  rewrite !imap_cons. cbn [map]. rewrite IH. reflexivity.
Qed.

Lemma imap_no_index {A B : Type} (f : A -> B) l : imap (fun _ x => f x) l = map f l.
Proof. induction l as [| x l IH]; [reflexivity |]. rewrite imap_cons. cbn [map]. rewrite <- IH. reflexivity. Qed.

Lemma imap_index_from {A : Type} (l : list A) a :
  imap (fun i _ => (a + i)%nat) l = seq a (length l).
Proof.
  revert a. induction l as [| x l IH]; intros a; [reflexivity |].
  rewrite imap_cons. cbn [length seq]. rewrite Nat.add_0_r. f_equal.
  rewrite <- IH. unfold compose. apply imap_ext. intros i y _. cbn. lia.
Qed.

(** X24. [displayKeyExpansionSteps] (also [aesEducational.expandKey]) on
    an accepted key string: it returns the key string as given, one
    hexadecimal string of 32 digits for each of the [|key| / 4 + 7] round
    keys, and one detail entry for each, numbered 0, 1, ..., holding the same
    hexadecimal string and, as its matrix, the very state [bytesToState]
    makes of that round key. *)
Theorem displayKeyExpansionSteps_record (key : string) :
  isValidHex key = true -> isValidKeyLength (hexToBytes key) = true ->
  exists result roundKeys,
    displayKeyExpansionSteps key = Some (Ok result)
    /\ aesEducational.expandKey key = Some (Ok result)
    /\ kes_originalKey result = key
    /\ length roundKeys = (length (hexToBytes key) / 4 + 7)%nat
    /\ kes_roundKeys result = map bytesToHex roundKeys
    /\ Forall (fun hex => String.length hex = 32%nat /\ isValidHex hex = true)
              (kes_roundKeys result)
    /\ map ked_round (kes_details result) = seq 0 (length roundKeys)
    /\ map ked_keyHex (kes_details result) = kes_roundKeys result
    /\ map (fun detail => Ok (ked_keyMatrix detail)) (kes_details result)
       = map bytesToState roundKeys.
Proof.
  intros Hhex Hlen. destruct (accepted_key key Hhex Hlen) as (keyBytes & Hkey & Hkb & Hkl).
  destruct (keyExpansion_valid keyBytes Hkl Hkb) as (roundKeys & Hexp & Hcount & Hrk).
  unfold aesEducational.expandKey, displayKeyExpansionSteps.
  rewrite Hkey, numbers_map_Some, Hexp. cbn [bind].
  eexists. exists roundKeys. split; [reflexivity |]. split; [reflexivity |].
  cbn [kes_originalKey kes_roundKeys kes_details].
  split; [reflexivity |].
  split; [rewrite Hcount, length_map; unfold roundsFor; lia |].
  split; [reflexivity |]. split; [| split; [| split]].
  - apply Forall_map. eapply Forall_impl; [| exact Hrk]. intros rk [Hl Hb]. cbv beta.
    destruct (bytesToHex_facts rk Hb) as (_ & Hhexlen & _ & _).
    split; [rewrite Hhexlen, Hl; reflexivity |].
    apply isValidHex_bytesToHex; [exact Hb | intros ->; discriminate Hl].
  - rewrite map_imap_compose. cbn [ked_round]. apply (imap_index_from roundKeys 0).
  - rewrite map_imap_compose. cbn [ked_keyHex]. apply imap_no_index.
  - rewrite map_imap_compose. cbn [ked_keyMatrix].
    rewrite (imap_no_index (fun rk => Ok (matrix (fun row col => nth (col * 4 + row) rk 0)))).
    apply map_ext_in. intros rk Hin.
    destruct (proj1 (Forall_forall roundKeyOk roundKeys) Hrk rk Hin) as [Hl _].
    unfold bytesToState, BLOCK_SIZE_BYTES. rewrite Hl. reflexivity.
Qed.

Lemma displayKeyExpansionSteps_record_witness :
  isValidHex fipsKeyHex = true /\ isValidKeyLength (hexToBytes fipsKeyHex) = true
  /\ exists result roundKeys,
       displayKeyExpansionSteps fipsKeyHex = Some (Ok result)
       /\ aesEducational.expandKey fipsKeyHex = Some (Ok result)
       /\ kes_originalKey result = fipsKeyHex
       /\ length roundKeys = (length (hexToBytes fipsKeyHex) / 4 + 7)%nat
       /\ kes_roundKeys result = map bytesToHex roundKeys
       /\ Forall (fun hex => String.length hex = 32%nat /\ isValidHex hex = true)
                 (kes_roundKeys result)
       /\ map ked_round (kes_details result) = seq 0 (length roundKeys)
       /\ map ked_keyHex (kes_details result) = kes_roundKeys result
       /\ map (fun detail => Ok (ked_keyMatrix detail)) (kes_details result)
          = map bytesToState roundKeys.
Proof.
  split; [reflexivity |]. split; [reflexivity |].
  exact (displayKeyExpansionSteps_record fipsKeyHex eq_refl eq_refl).
Defined.

(** ** utils.ts: formatBytesForDisplay *)

Lemma list_ascii_append (s t : string) :
  list_ascii_of_string (s ++ t) = list_ascii_of_string s ++ list_ascii_of_string t.
Proof. induction s as [| c s IH]; [reflexivity |]. cbn. rewrite IH. reflexivity. Qed.

Lemma list_ascii_substring (s : string) : forall i m,
  list_ascii_of_string (substring i m s) = firstn m (skipn i (list_ascii_of_string s)).
Proof.
  induction s as [| c s IH]; intros [| i] [| m]; cbn; try reflexivity.
  - rewrite IH. rewrite skipn_O. reflexivity.
  - apply IH.
  - apply IH.
Qed.

Lemma list_ascii_length (s : string) : length (list_ascii_of_string s) = String.length s.
Proof. induction s as [| c s IH]; [reflexivity |]. cbn. rewrite IH. reflexivity. Qed.

Lemma list_ascii_removeSpaces (s : string) :
  list_ascii_of_string (removeSpaces s)
  = List.filter (fun c => negb (isSpace c)) (list_ascii_of_string s).
Proof.
  induction s as [| c s IH]; [reflexivity |]. cbn [removeSpaces list_ascii_of_string List.filter].
  destruct (isSpace c); cbn [negb list_ascii_of_string]; rewrite IH; reflexivity.
Qed.

Lemma removeSpaces_trimStart (s : string) : removeSpaces (trimStart s) = removeSpaces s.
Proof.
  induction s as [| c s IH]; [reflexivity |]. cbn [trimStart removeSpaces].
  destruct (isSpace c) eqn:Hc; [exact IH |]. cbn [removeSpaces]. rewrite Hc. reflexivity.
Qed.

Lemma removeSpaces_trimEnd (s : string) : removeSpaces (trimEnd s) = removeSpaces s.
Proof.
  induction s as [| c s IH]; [reflexivity |]. cbn [trimEnd removeSpaces].
  destruct (trimEnd s) as [| c' s'] eqn:Ht.
  - rewrite <- IH. destruct (isSpace c) eqn:Hc; cbn [removeSpaces]; [| rewrite Hc]; reflexivity.
  - cbn [removeSpaces] in IH |- *. rewrite IH. reflexivity.
Qed.

Lemma removeSpaces_trim (s : string) : removeSpaces (trim s) = removeSpaces s.
Proof. unfold trim. rewrite removeSpaces_trimEnd. apply removeSpaces_trimStart. Qed.

Lemma filter_all {A : Type} (p : A -> bool) (l : list A) :
  Forall (fun x => p x = true) l -> List.filter p l = l.
Proof.
  induction 1 as [| x l Hx _ IH]; [reflexivity |]. cbn [List.filter]. rewrite Hx, IH. reflexivity.
Qed.

Lemma Forall_slice {A : Type} (P : A -> Prop) (l : list A) i m :
  Forall P l -> Forall P (firstn m (skipn i l)).
Proof.
  intros H. apply Forall_take, Forall_drop, H.
Qed.

(** The groups appended by the loop, white space left out, are the slices
    of the digits. *)
Lemma format_groups (hex : string) (step : nat) (counter : list nat) : forall result,
  Forall (fun c => negb (isSpace c) = true) (list_ascii_of_string hex) ->
  List.filter (fun c => negb (isSpace c))
    (list_ascii_of_string
       (fold_left (fun result i => (result ++ substring i step hex ++ " ")%string) counter result))
  = List.filter (fun c => negb (isSpace c)) (list_ascii_of_string result)
    ++ concat (map (fun j => slice (list_ascii_of_string hex) j (j + step)) counter).
Proof.
  induction counter as [| i counter IH]; intros result Hhex.
  - cbn [fold_left map concat]. rewrite app_nil_r. reflexivity.
  - cbn [fold_left map concat]. rewrite (IH _ Hhex).
    rewrite !list_ascii_append, !filter_app, list_ascii_substring.
    cbn [list_ascii_of_string List.filter]. change (isSpace " ") with true. cbn [negb].
    rewrite app_nil_r, <- app_assoc. f_equal. f_equal.
    unfold slice. replace (i + step - i)%nat with step by lia.
    apply filter_all, Forall_slice, Hhex.
Qed.

Lemma hex_no_spaces bytes :
  Forall byte bytes ->
  Forall (fun c => negb (isSpace c) = true) (list_ascii_of_string (bytesToHex bytes)).
Proof.
  intros H. destruct (bytesToHex_facts bytes H) as (Hrs & _).
  apply (f_equal list_ascii_of_string) in Hrs. rewrite list_ascii_removeSpaces in Hrs.
  revert Hrs. generalize (list_ascii_of_string (bytesToHex bytes)) as l.
  induction l as [| c l IH]; intros Hl; [constructor |].
  cbn [List.filter] in Hl. destruct (negb (isSpace c)) eqn:Hc.
  - injection Hl as Hl. constructor; [exact Hc | exact (IH Hl)].
  - exfalso. assert (Hlen : (length (List.filter (fun c => negb (isSpace c)) l) <= length l)%nat)
      by apply filter_length_le.
    rewrite Hl in Hlen. cbn [length] in Hlen. lia.
Qed.

Lemma loopCounter_Some_inv {A : Type} (l : list A) step : forall fuel i counter,
  loopCounter fuel (length l) step i = Some counter ->
  concat (map (fun j => slice l j (j + step)) counter) = skipn i l.
Proof.
  assert (Hend : forall i, (length l <= i)%nat -> @nil A = skipn i l)
    by (intros i Hi; symmetry; apply skipn_all2; exact Hi).
  induction fuel as [| fuel IH]; intros i counter; cbn [loopCounter];
    destruct (Nat.ltb_spec i (length l)) as [Hlt | Hge]; try discriminate;
    try (intros Hc; injection Hc as <-; apply Hend, Hge).
  destruct (loopCounter fuel (length l) step (i + step)) as [rest |] eqn:Hrest;
    [| discriminate].
  cbn [option_map]. intros Hc. injection Hc as <-.
  cbn [map concat]. rewrite (IH _ _ Hrest). unfold slice.
  replace (i + step - i)%nat with step by lia.
  rewrite <- (firstn_skipn step (skipn i l)) at 2.
  f_equal. rewrite skipn_skipn. f_equal. lia.
Qed.

Lemma hexToBytes_removeSpaces s t : removeSpaces s = removeSpaces t -> hexToBytes s = hexToBytes t.
Proof. intros H. unfold hexToBytes. rewrite H. reflexivity. Qed.

Lemma formatBytesForDisplay_digits fuel bytes bytesPerGroup s :
  Forall byte bytes ->
  formatBytesForDisplay fuel bytes bytesPerGroup = Some s ->
  removeSpaces s = bytesToHex bytes.
Proof.
  intros Hb Hs. unfold formatBytesForDisplay in Hs.
  destruct (loopCounter fuel _ _ 0) as [counter |] eqn:Hc; [| discriminate Hs].
  cbn [option_map] in Hs. injection Hs as <-.
  rewrite removeSpaces_trim.
  match goal with
  | |- ?lhs = ?rhs =>
      assert (Hl : list_ascii_of_string lhs = list_ascii_of_string rhs)
  end.
  { rewrite list_ascii_removeSpaces, format_groups by (apply hex_no_spaces, Hb).
    cbn [list_ascii_of_string List.filter app].
    rewrite <- list_ascii_length in Hc.
    rewrite (loopCounter_Some_inv _ _ _ _ _ Hc). apply skipn_O. }
  apply (f_equal string_of_list_ascii) in Hl.
  rewrite !string_of_list_ascii_of_string in Hl. exact Hl.
Qed.

(** X25. [formatBytesForDisplay] on bytes: with at least one byte a
    group the loop ends (fuel of twice the number of bytes is enough) and
    the string returned holds, white space apart, exactly the hexadecimal
    digits of the bytes in order, so that [hexToBytes] reads the bytes back
    from it; with 0 bytes a group the loop never ends on a non-empty
    array. *)
Theorem formatBytesForDisplay_contract (bytes : list Z) (bytesPerGroup : nat) :
  Forall byte bytes ->
  ((1 <= bytesPerGroup)%nat ->
   forall fuel, (2 * length bytes <= fuel)%nat ->
   exists s,
     formatBytesForDisplay fuel bytes bytesPerGroup = Some s
     /\ removeSpaces s = bytesToHex bytes
     /\ hexToBytes s = map Some bytes)
  /\ (bytesPerGroup = 0%nat -> bytes <> [] ->
      forall fuel, formatBytesForDisplay fuel bytes bytesPerGroup = None).
Proof.
  intros Hb. destruct (bytesToHex_facts bytes Hb) as (Hrs & Hlen & _ & _). split.
  - intros Hg fuel Hfuel.
    destruct (formatBytesForDisplay fuel bytes bytesPerGroup) as [s |] eqn:Hs.
    + pose proof (formatBytesForDisplay_digits fuel bytes bytesPerGroup s Hb Hs) as Hdigits.
      exists s. split; [reflexivity |]. split; [exact Hdigits |].
      rewrite <- (hexToBytes_bytesToHex bytes Hb).
      apply hexToBytes_removeSpaces. rewrite Hdigits, Hrs. reflexivity.
    + exfalso. unfold formatBytesForDisplay in Hs.
      destruct (loopCounter_from (list_ascii_of_string (bytesToHex bytes)) (bytesPerGroup * 2)
                  ltac:(lia) fuel 0) as (counter & Hc & _).
      { rewrite list_ascii_length, Hlen. lia. }
      rewrite list_ascii_length in Hc. rewrite Hc in Hs. discriminate Hs.
  - intros -> Hne fuel. unfold formatBytesForDisplay. cbn [Nat.mul].
    rewrite loopCounter_stuck; [reflexivity |].
    rewrite Hlen. destruct bytes; [contradiction | cbn [length]; lia].
Qed.

Lemma formatBytesForDisplay_contract_witness :
  Forall byte fipsKey
  /\ ((1 <= 4)%nat ->
      forall fuel, (2 * length fipsKey <= fuel)%nat ->
      exists s,
        formatBytesForDisplay fuel fipsKey 4 = Some s
        /\ removeSpaces s = bytesToHex fipsKey
        /\ hexToBytes s = map Some fipsKey)
  /\ (4%nat = 0%nat -> fipsKey <> [] ->
      forall fuel, formatBytesForDisplay fuel fipsKey 4 = None).
Proof.
  split; [exact fipsKey_bytes |]. exact (formatBytesForDisplay_contract fipsKey 4 fipsKey_bytes).
Defined.

(** ** aesCore.ts: the cipher as a map on blocks *)

Lemma addRoundKey_as_xor f roundKey :
  length roundKey = 16%nat ->
  xorBytes (stateToBytes (matrix f)) roundKey
  = Ok (stateToBytes (addRoundKey (matrix f) roundKey)).
Proof.
  intros Hlen. do 17 (destruct roundKey as [| ? roundKey]; try discriminate Hlen).
  reflexivity.
Qed.

(** X26. [addRoundKey] is the XOR of the block with the round key, byte
    for byte in the order of the block: turning the state into bytes and
    XORing them with the sixteen numbers of the round key by [xorBytes]
    gives the bytes of the state [addRoundKey] returns. *)
Theorem addRoundKey_xorBytes (state : State) (roundKey : list Z) :
  state = matrix (cell state) -> length roundKey = 16%nat ->
  xorBytes (stateToBytes state) roundKey = Ok (stateToBytes (addRoundKey state roundKey)).
Proof. intros ->. apply addRoundKey_as_xor. Qed.

Lemma addRoundKey_xorBytes_witness :
  matrix (fun row col => Z.of_nat (16 * row + col))
  = matrix (cell (matrix (fun row col => Z.of_nat (16 * row + col))))
  /\ length fipsKey = 16%nat
  /\ xorBytes (stateToBytes (matrix (fun row col => Z.of_nat (16 * row + col)))) fipsKey
     = Ok (stateToBytes (addRoundKey (matrix (fun row col => Z.of_nat (16 * row + col))) fipsKey)).
Proof.
  split; [reflexivity |]. split; [reflexivity |].
  exact (addRoundKey_xorBytes (matrix (fun row col => Z.of_nat (16 * row + col))) fipsKey
           eq_refl eq_refl).
Defined.

(** X27. Under every key of 16, 24 or 32 bytes [aesEncryptBlock] is a
    permutation of the blocks of sixteen bytes: two byte blocks with the same
    encryption are equal, and every byte block is the encryption of a byte
    block. *)
Theorem aesEncryptBlock_permutation (key : list Z) :
  validKeyLength (length key) -> Forall byte key ->
  (forall block block',
     length block = 16%nat -> Forall byte block ->
     length block' = 16%nat -> Forall byte block' ->
     aesEncryptBlock block key = aesEncryptBlock block' key -> block = block')
  /\ (forall encrypted,
        length encrypted = 16%nat -> Forall byte encrypted ->
        exists block,
          length block = 16%nat /\ Forall byte block
          /\ aesEncryptBlock block key = Ok encrypted).
Proof.
  intros Hklen Hk. split.
  - intros block block' Hl Hb Hl' Hb' Heq.
    destruct (aesEncryptBlock_ok block key Hl Hb Hklen Hk) as (e & He & _ & _ & Hd).
    destruct (aesEncryptBlock_ok block' key Hl' Hb' Hklen Hk) as (e' & He' & _ & _ & Hd').
    rewrite He, He' in Heq. injection Heq as <-. rewrite Hd in Hd'. injection Hd' as ->.
    reflexivity.
  - intros encrypted Hl Hb.
    destruct (aesDecryptBlock_ok encrypted key Hl Hb Hklen Hk) as (d & _ & Hdl & Hdb & He).
    exists d. split; [exact Hdl |]. split; [exact Hdb | exact He].
Qed.

Lemma aesEncryptBlock_permutation_witness :
  validKeyLength (length fipsKey) /\ Forall byte fipsKey
  /\ (forall block block',
        length block = 16%nat -> Forall byte block ->
        length block' = 16%nat -> Forall byte block' ->
        aesEncryptBlock block fipsKey = aesEncryptBlock block' fipsKey -> block = block')
  /\ (forall encrypted,
        length encrypted = 16%nat -> Forall byte encrypted ->
        exists block,
          length block = 16%nat /\ Forall byte block
          /\ aesEncryptBlock block fipsKey = Ok encrypted).
Proof.
  assert (Hk : validKeyLength (length fipsKey)) by (left; reflexivity).
  split; [exact Hk |]. split; [exact fipsKey_bytes |].
  exact (aesEncryptBlock_permutation fipsKey Hk fipsKey_bytes).
Defined.
